(** * reltools: the DDL parser, the AST builder and the schema validator

    A shallow embedding of [reltools/parsers/sql_parser.py],
    [reltools/parsers/ast_builder.py], [reltools/utils/validators.py] and
    [reltools/converters/yaml_converter.py], with the properties of the
    specification proved (or refuted) on it.

    Text is a list of characters with the codes 0 to 255, the Latin-1 range
    of Python's code points.  On this range white space ([str.isspace],
    [str.split], [str.strip], the class [\s]), the case of letters under
    IGNORECASE and [str.upper] are as Python has them, with one exception:
    [str.upper] sends the micro sign (181) and the y with diaeresis (255)
    out of the range, and here they stay as they are.  Text with other
    code points is outside the model.

    The statement segmenter (sqlparse) is an external collaborator: a
    statement is given as its classified leaf tokens, whose values
    concatenate to the statement text. *)

From Stdlib Require Import Ascii String ZArith Lia Bool DecimalString.
From stdpp Require Import base list gmap strings.

Set Default Proof Using "Type".

Abbreviation str := (list ascii).

(** A string literal as text. *)
Definition txt (s : string) : str := list_ascii_of_string s.

(* ===================================================================== *)
(** * Python string primitives *)
(* ===================================================================== *)

Module Text.

(** [str.isspace] on one character, which is also [\s] of [re]: TAB, LF,
    VT, FF, CR, the four separators FS GS RS US, the space, NEL (133) and
    the no-break space (160). *)
Definition is_space (c : ascii) : bool :=
  let n := nat_of_ascii c in
  (Nat.leb 9 n && Nat.leb n 13) || (Nat.leb 28 n && Nat.leb n 32) ||
  Nat.eqb n 133 || Nat.eqb n 160.

(** The letters A to Z. *)
Definition is_upper (c : ascii) : bool :=
  let n := nat_of_ascii c in Nat.leb 65 n && Nat.leb n 90.

(** The letters a to z. *)
Definition is_lower (c : ascii) : bool :=
  let n := nat_of_ascii c in Nat.leb 97 n && Nat.leb n 122.

(** The lower-case letters whose upper-case form is one character of the
    range: a to z and the accented letters from code 224 to code 254, the
    division sign (247) apart. *)
Definition has_upper_form (c : ascii) : bool :=
  let n := nat_of_ascii c in
  is_lower c || (Nat.leb 224 n && Nat.leb n 254 && negb (Nat.eqb n 247)).

(** The upper-case letters with a lower-case form: A to Z and the accented
    letters from code 192 to code 222, the multiplication sign (215) apart. *)
Definition has_lower_form (c : ascii) : bool :=
  let n := nat_of_ascii c in
  is_upper c || (Nat.leb 192 n && Nat.leb n 222 && negb (Nat.eqb n 215)).

(** The other case of one character, as [re] takes it under IGNORECASE. *)
Definition upper_char (c : ascii) : ascii :=
  if has_upper_form c then ascii_of_nat (nat_of_ascii c - 32) else c.

Definition lower_char (c : ascii) : ascii :=
  if has_lower_form c then ascii_of_nat (nat_of_ascii c + 32) else c.

(** What [str.upper] makes of one character: the sharp s (223) becomes two
    letters. *)
Definition upper_form (c : ascii) : str :=
  if Nat.eqb (nat_of_ascii c) 223 then ["S"; "S"]%char else [upper_char c].

(** [s.upper()] *)
Definition upper (s : str) : str := flat_map upper_form s.

Fixpoint drop_while (p : ascii -> bool) (s : str) : str :=
  match s with
  | [] => []
  | c :: s' => if p c then drop_while p s' else s
  end.

Fixpoint span (p : ascii -> bool) (s : str) : str * str :=
  match s with
  | [] => ([], [])
  | c :: s' => if p c then let '(a, b) := span p s' in (c :: a, b) else ([], s)
  end.

Definition lstrip_by (p : ascii -> bool) (s : str) : str := drop_while p s.
Definition rstrip_by (p : ascii -> bool) (s : str) : str :=
  rev (drop_while p (rev s)).
Definition strip_by (p : ascii -> bool) (s : str) : str :=
  rstrip_by p (lstrip_by p s).

(** [s.strip()] *)
Definition strip (s : str) : str := strip_by is_space s.

Definition mem_char (cs : str) (c : ascii) : bool := existsb (Ascii.eqb c) cs.

(** [s.strip(chars)] *)
Definition strip_chars (cs : str) (s : str) : str := strip_by (mem_char cs) s.

(** The characters stripped from names: backtick, double quote (code 34)
    and the two square brackets. *)
Definition quote_chars : str := ["`"; "034"; "["; "]"]%char.

Definition strip_quotes (s : str) : str := strip_chars quote_chars s.

(** [s.split(sep)] for a one-character separator: every separator splits,
    and the result has one piece more than there are separators. *)
Fixpoint split_char (sep : ascii) (s : str) : list str :=
  match s with
  | [] => [[]]
  | c :: s' =>
      if Ascii.eqb c sep then [] :: split_char sep s'
      else match split_char sep s' with
           | p :: ps => (c :: p) :: ps
           | [] => [[c]]
           end
  end.

(** [s.split(None, maxsplit)]: at most [maxsplit] words are cut off at runs
    of white space; what is left, without its leading white space, is the
    last piece if it is not empty (its trailing white space is kept). *)
Fixpoint split_ws (maxsplit : nat) (s : str) : list str :=
  match drop_while is_space s with
  | [] => []
  | c :: s1 =>
      match maxsplit with
      | 0 => [c :: s1]
      | S n => let '(w, rest) := span (fun x => negb (is_space x)) (c :: s1) in
               w :: split_ws n rest
      end
  end.

(** [sep.join(l)] *)
Fixpoint join (sep : str) (l : list str) : str :=
  match l with
  | [] => []
  | [x] => x
  | x :: xs => x ++ sep ++ join sep xs
  end.

Definition eqb (a b : str) : bool := bool_decide (a = b).

(** [sub in s] for strings. *)
Fixpoint is_prefix (p s : str) : bool :=
  match p, s with
  | [], _ => true
  | a :: p', b :: s' => Ascii.eqb a b && is_prefix p' s'
  | _ :: _, [] => false
  end.

Fixpoint contains (sub s : str) : bool :=
  is_prefix sub s ||
  match s with
  | [] => false
  | _ :: s' => contains sub s'
  end.

End Text.

(* ===================================================================== *)
(** * The fragment of Python's [re] that the parser uses *)
(* ===================================================================== *)

Module Re.
Import Text.

(** Character classes. *)
Inductive cclass :=
| CAny                          (* [.] under DOTALL *)
| CChar (c : ascii)             (* one literal character *)
| CSpace                        (* [\s] *)
| CRange (lo hi : ascii)        (* [lo-hi] *)
| CUnion (a b : cclass)         (* members of one bracket *)
| CNot (a : cclass).            (* [^...] *)

(** Patterns; repetition is over one character class, which is all the
    parser's patterns need, and is greedy. *)
Inductive regex :=
| REps
| RLit (l : str)                (* a literal word *)
| RChar (k : cclass)
| RStar (k : cclass)            (* k* *)
| RPlus (k : cclass)            (* k+ *)
| RSeq (r1 r2 : regex)
| RGroup (n : nat) (r : regex)  (* capturing group number n *)
| ROpt (r : regex).             (* r? *)

Definition in_range (lo hi c : ascii) : bool :=
  Nat.leb (nat_of_ascii lo) (nat_of_ascii c) &&
  Nat.leb (nat_of_ascii c) (nat_of_ascii hi).

(** Does class [k] accept [x]?  [ic] is the IGNORECASE flag. *)
Fixpoint cmatch (ic : bool) (k : cclass) (x : ascii) : bool :=
  match k with
  | CAny => true
  | CChar c => if ic then Ascii.eqb (lower_char x) (lower_char c)
               else Ascii.eqb x c
  | CSpace => is_space x
  | CRange lo hi =>
      if ic then in_range lo hi (lower_char x) || in_range lo hi (upper_char x)
      else in_range lo hi x
  | CUnion a b => cmatch ic a x || cmatch ic b x
  | CNot a => negb (cmatch ic a x)
  end.

(** A literal word against the head of the text. *)
Fixpoint lit_prefix (ic : bool) (l s : str) : option (str * str) :=
  match l with
  | [] => Some ([], s)
  | a :: l' =>
      match s with
      | [] => None
      | b :: s' =>
          if cmatch ic (CChar a) b then
            match lit_prefix ic l' s' with
            | Some (m, rest) => Some (b :: m, rest)
            | None => None
            end
          else None
      end
  end.

Definition captures := list (nat * str).

Fixpoint group_of (n : nat) (caps : captures) : option str :=
  match caps with
  | [] => None
  | (i, m) :: caps' => if Nat.eqb i n then Some m else group_of n caps'
  end.

Section Matcher.
Context {R : Type}.

(** Greedy repetition with backtracking: the longest run first, then
    shorter ones until the continuation accepts. *)
Fixpoint star_greedy (p : ascii -> bool) (s : str)
    (k : str -> str -> option R) : option R :=
  match s with
  | [] => k [] []
  | c :: s' =>
      if p c then
        match star_greedy p s' (fun m rest => k (c :: m) rest) with
        | Some r => Some r
        | None => k [] s
        end
      else k [] s
  end.

Definition plus_greedy (p : ascii -> bool) (s : str)
    (k : str -> str -> option R) : option R :=
  match s with
  | [] => None
  | c :: s' =>
      if p c then star_greedy p s' (fun m rest => k (c :: m) rest) else None
  end.

(** The backtracking matcher, in continuation-passing style: [k] gets the
    text consumed, the groups captured so far and the text left. *)
Fixpoint rmatch (ic : bool) (r : regex) (s : str) (caps : captures)
    (k : str -> captures -> str -> option R) : option R :=
  match r with
  | REps => k [] caps s
  | RLit l =>
      match lit_prefix ic l s with
      | Some (m, rest) => k m caps rest
      | None => None
      end
  | RChar c =>
      match s with
      | x :: s' => if cmatch ic c x then k [x] caps s' else None
      | [] => None
      end
  | RStar c => star_greedy (cmatch ic c) s (fun m rest => k m caps rest)
  | RPlus c => plus_greedy (cmatch ic c) s (fun m rest => k m caps rest)
  | RSeq r1 r2 =>
      rmatch ic r1 s caps (fun m1 caps1 rest1 =>
        rmatch ic r2 rest1 caps1 (fun m2 caps2 rest2 =>
          k (m1 ++ m2) caps2 rest2))
  | RGroup n r' =>
      rmatch ic r' s caps (fun m caps' rest => k m ((n, m) :: caps') rest)
  | ROpt r' =>
      match rmatch ic r' s caps k with
      | Some x => Some x
      | None => k [] caps s
      end
  end.
End Matcher.

(** A match object: the text before the match, the match ([group(0)]), the
    groups, and the text after. *)
Record rmatch_obj := MatchObj {
  m_pre : str;
  m_text : str;
  m_groups : captures;
  m_post : str
}.

Definition group (n : nat) (m : rmatch_obj) : option str :=
  group_of n (m_groups m).

(** [re.match(r, s)]: a match at the start of [s]. *)
Definition re_match (ic : bool) (r : regex) (s : str) : option rmatch_obj :=
  rmatch ic r s [] (fun m caps rest => Some (MatchObj [] m caps rest)).

Definition shift (c : ascii) (m : rmatch_obj) : rmatch_obj :=
  MatchObj (c :: m_pre m) (m_text m) (m_groups m) (m_post m).

(** [re.search(r, s)]: the leftmost match. *)
Fixpoint re_search (ic : bool) (r : regex) (s : str) : option rmatch_obj :=
  match re_match ic r s with
  | Some m => Some m
  | None =>
      match s with
      | [] => None
      | c :: s' => shift c <$> re_search ic r s'
      end
  end.

(** [re.sub(r, repl, s)] for a pattern that matches no empty text: the
    leftmost match is replaced and the search goes on behind it.  [fuel]
    bounds the number of replacements; the length of the text is enough. *)
Fixpoint re_sub_fuel (fuel : nat) (ic : bool) (r : regex) (repl s : str) : str :=
  match fuel with
  | 0 => s
  | S f =>
      match re_search ic r s with
      | None => s
      | Some m => m_pre m ++ repl ++ re_sub_fuel f ic r repl (m_post m)
      end
  end.

Definition re_sub (ic : bool) (r : regex) (repl s : str) : str :=
  re_sub_fuel (S (length s)) ic r repl s.

(** ** What a pattern denotes *)

Fixpoint lit_eq (ic : bool) (l m : str) : bool :=
  match l, m with
  | [], [] => true
  | a :: l', b :: m' => cmatch ic (CChar a) b && lit_eq ic l' m'
  | _, _ => false
  end.

Fixpoint lang (ic : bool) (r : regex) (m : str) : Prop :=
  match r with
  | REps => m = []
  | RLit l => lit_eq ic l m = true
  | RChar k => exists c, m = [c] /\ cmatch ic k c = true
  | RStar k => forallb (cmatch ic k) m = true
  | RPlus k => m <> [] /\ forallb (cmatch ic k) m = true
  | RSeq r1 r2 => exists m1 m2, m = m1 ++ m2 /\ lang ic r1 m1 /\ lang ic r2 m2
  | RGroup _ r' => lang ic r' m
  | ROpt r' => m = [] \/ lang ic r' m
  end.

(** The text has a piece that the pattern denotes. *)
Definition occurs (ic : bool) (r : regex) (s : str) : Prop :=
  exists pre m post, s = pre ++ m ++ post /\ lang ic r m.

End Re.

(* ===================================================================== *)
(** * sql_parser.py *)
(* ===================================================================== *)

Module SqlParser.
Import Text Re.

Fixpoint rseq (l : list regex) : regex :=
  match l with
  | [] => REps
  | [r] => r
  | r :: l' => RSeq r (rseq l')
  end.

Definition not_rparen : cclass := CNot (CChar ")").

(** The pattern of the table body: an open parenthesis, group 1 holding
    any characters, greedy, under DOTALL, and a close parenthesis. *)
Definition paren_re : regex :=
  rseq [RChar (CChar "("); RGroup 1 (RStar CAny); RChar (CChar ")")].

(** [PRIMARY\s+KEY] *)
Definition primary_key_re : regex :=
  rseq [RLit (txt "PRIMARY"); RPlus CSpace; RLit (txt "KEY")].

(** [PRIMARY\s+KEY\s*\(([^)]+)\)] *)
Definition primary_key_cols_re : regex :=
  rseq [RLit (txt "PRIMARY"); RPlus CSpace; RLit (txt "KEY"); RStar CSpace;
        RChar (CChar "("); RGroup 1 (RPlus not_rparen); RChar (CChar ")")].

(** [FOREIGN\s+KEY] *)
Definition foreign_key_re : regex :=
  rseq [RLit (txt "FOREIGN"); RPlus CSpace; RLit (txt "KEY")].

(** [CONSTRAINT] *)
Definition constraint_re : regex := RLit (txt "CONSTRAINT").

(** [([A-Z]+)(\([^)]+\))?] *)
Definition type_re : regex :=
  rseq [RGroup 1 (RPlus (CRange "A" "Z"));
        ROpt (RGroup 2 (rseq [RChar (CChar "("); RPlus not_rparen;
                              RChar (CChar ")")]))].

(** [CONSTRAINT\s+([^\s]+)] *)
Definition constraint_name_re : regex :=
  rseq [RLit (txt "CONSTRAINT"); RPlus CSpace; RGroup 1 (RPlus (CNot CSpace))].

(** [FOREIGN\s+KEY\s*\(([^)]+)\)] *)
Definition foreign_key_cols_re : regex :=
  rseq [RLit (txt "FOREIGN"); RPlus CSpace; RLit (txt "KEY"); RStar CSpace;
        RChar (CChar "("); RGroup 1 (RPlus not_rparen); RChar (CChar ")")].

(** [REFERENCES\s+([^\s(]+)\s*\(([^)]+)\)] *)
Definition references_re : regex :=
  rseq [RLit (txt "REFERENCES"); RPlus CSpace;
        RGroup 1 (RPlus (CNot (CUnion CSpace (CChar "("))));
        RStar CSpace;
        RChar (CChar "("); RGroup 2 (RPlus not_rparen); RChar (CChar ")")].

(** [m.group(n)]; in every pattern above each group that is read takes
    part in every match. *)
Definition group_text (n : nat) (m : rmatch_obj) : str :=
  default [] (group n m).

(** [[col.strip().strip(quotes) for col in s.split(',')]] *)
Definition column_list (s : str) : list str :=
  map (fun col => strip_quotes (strip col)) (split_char "," s).

(** The raw records the parser returns (Python dicts with fixed keys). *)
Record column_def := ColumnDef {
  col_name : str;
  col_type : str;
  col_constraints : option str;
  col_is_primary_key : bool
}.

Record foreign_key_def := ForeignKeyDef {
  fk_name : str;
  fk_columns : list str;
  fk_ref_table : str;
  fk_ref_columns : list str
}.

Record table_def := TableDef {
  tbl_name : str;
  tbl_columns : list column_def;
  tbl_primary_key : list str;
  tbl_foreign_keys : list foreign_key_def
}.

(** Truth value of a string: not empty. *)
Definition truthy (s : str) : bool :=
  match s with [] => false | _ :: _ => true end.

(** [_split_by_comma]: [parts], [current] and [paren_depth] are the loop's
    variables; the depth is a Python integer and may go below zero. *)
Fixpoint split_loop (text : str) (parts : list str) (current : str)
    (paren_depth : Z) : list str :=
  match text with
  | [] => if truthy current then parts ++ [current] else parts
  | char :: text' =>
      if Ascii.eqb char "(" then
        split_loop text' parts (current ++ [char]) (paren_depth + 1)
      else if Ascii.eqb char ")" then
        split_loop text' parts (current ++ [char]) (paren_depth - 1)
      else if Ascii.eqb char "," && (paren_depth =? 0)%Z then
        split_loop text' (parts ++ [current]) [] paren_depth
      else
        split_loop text' parts (current ++ [char]) paren_depth
  end.

Definition split_by_comma (text : str) : list str := split_loop text [] [] 0.

(** [_parse_column_definition] *)
Definition parse_column_definition (col_def : str) : option column_def :=
  match split_ws 2 col_def with
  | p0 :: p1 :: rest =>
      let name := strip_quotes p0 in
      let type :=
        match re_match true type_re p1 with
        | Some m => upper (m_text m)
        | None => upper p1
        end in
      match rest with
      | p2 :: _ =>
          let constraints_str := strip p2 in
          let found := bool_decide (is_Some (re_search true primary_key_re constraints_str)) in
          let constraints_str :=
            if found
            then strip (re_sub true primary_key_re [] constraints_str)
            else constraints_str in
          Some (ColumnDef name type
                  (if truthy constraints_str then Some constraints_str else None)
                  found)
      | [] => Some (ColumnDef name type None false)
      end
  | _ => None
  end.

(** [_parse_foreign_key] *)
Definition parse_foreign_key (fk_def : str) : option foreign_key_def :=
  let name : option str :=
    match re_search true constraint_name_re fk_def with
    | Some name_match => Some (strip_quotes (group_text 1 name_match))
    | None => None
    end in
  match re_search true foreign_key_cols_re fk_def with
  | None => None
  | Some fk_cols_match =>
      let columns := column_list (group_text 1 fk_cols_match) in
      match re_search true references_re fk_def with
      | None => None
      | Some ref_match =>
          let ref_table := strip_quotes (group_text 1 ref_match) in
          let ref_columns := column_list (group_text 2 ref_match) in
          let name :=
            match name with
            | Some (c :: n) => c :: n
            | _ => txt "fk_" ++ ref_table ++ txt "_" ++ join (txt "_") columns
            end in
          Some (ForeignKeyDef name columns ref_table ref_columns)
      end
  end.

(** The token classes of the segmenter that the parser tells apart. *)
Inductive token_type := DDL | Keyword | Name | Whitespace | Punctuation | OtherToken.

Record token := Token { ttype : token_type; value : str }.

Definition is_ttype (a b : token_type) : bool :=
  match a, b with
  | DDL, DDL | Keyword, Keyword | Name, Name | Whitespace, Whitespace
  | Punctuation, Punctuation | OtherToken, OtherToken => true
  | _, _ => false
  end.

Definition is_whitespace (t : token) : bool := is_ttype (ttype t) Whitespace.

(** The loop that looks for the table name; [None] is Python's [None]. *)
Fixpoint find_table_name (tokens : list token) (in_table_name : bool) : option str :=
  match tokens with
  | [] => None
  | token :: tokens' =>
      if is_ttype (ttype token) DDL && Text.eqb (upper (value token)) (txt "CREATE") then
        find_table_name tokens' in_table_name
      else if is_ttype (ttype token) Keyword && Text.eqb (upper (value token)) (txt "TABLE") then
        find_table_name tokens' true
      else if in_table_name && is_ttype (ttype token) Name && negb (is_whitespace token) then
        Some (strip_quotes (value token))
      else find_table_name tokens' in_table_name
  end.

(** [str(stmt)] *)
Definition stmt_str (tokens : list token) : str := concat (map value tokens).

(** The three lists a statement's fragments are collected in. *)
Record collected := Collected {
  columns : list column_def;
  primary_key : list str;
  foreign_keys : list foreign_key_def
}.

Definition add_foreign_key (st : collected) (part : str) : collected :=
  match parse_foreign_key part with
  | Some fk_def => Collected (columns st) (primary_key st) (foreign_keys st ++ [fk_def])
  | None => st
  end.

(** One turn of the loop over the fragments. *)
Definition process_part (st : collected) (part : str) : collected :=
  let part := strip part in
  if bool_decide (is_Some (re_match true primary_key_re part)) then
    match re_search true primary_key_cols_re part with
    | Some pk_match =>
        Collected (columns st)
                  (primary_key st ++ column_list (group_text 1 pk_match))
                  (foreign_keys st)
    | None => st
    end
  else if bool_decide (is_Some (re_match true foreign_key_re part)) then
    add_foreign_key st part
  else if bool_decide (is_Some (re_match true constraint_re part)) then
    add_foreign_key st part
  else
    match parse_column_definition part with
    | Some col_def =>
        Collected (columns st ++ [col_def])
                  (if col_is_primary_key col_def
                   then primary_key st ++ [col_name col_def]
                   else primary_key st)
                  (foreign_keys st)
    | None => st
    end.

(** The text between the parentheses, [paren_match.group(1)]. *)
Definition definitions (text : str) : option str :=
  group_text 1 <$> re_search false paren_re text.

Definition collect (text : str) : collected :=
  match definitions text with
  | Some defs => fold_left process_part (split_by_comma defs) (Collected [] [] [])
  | None => Collected [] [] []
  end.

(** [_parse_create_table] *)
Definition parse_create_table (stmt : list token) : option table_def :=
  let table_name := find_table_name stmt false in
  let st := collect (stmt_str stmt) in
  match table_name with
  | Some (c :: n) =>
      Some (TableDef (c :: n) (columns st) (primary_key st) (foreign_keys st))
  | _ => None
  end.

(** A statement of the segmenter: its kind ([get_type()]) and its tokens. *)
Record statement := Statement { get_type : str; tokens : list token }.

(** [parse_sql_string], after the segmenter: the list under ['tables'].
    The kind of each statement, which the function also prints, is not
    part of the result. *)
Fixpoint parse_statements (statements : list statement) : list table_def :=
  match statements with
  | [] => []
  | stmt :: rest =>
      if Text.eqb (get_type stmt) (txt "CREATE") then
        match parse_create_table (tokens stmt) with
        | Some table_def => table_def :: parse_statements rest
        | None => parse_statements rest
        end
      else parse_statements rest
  end.

End SqlParser.

(* ===================================================================== *)
(** * Python values, exceptions and the raw dictionaries *)
(* ===================================================================== *)

Module Py.

(** The values a loaded mapping is made of; dictionary keys are strings.
    A dictionary is the list of its items, the first binding of a key
    being the one that counts. *)
#[warnings="-register-all"] Inductive pyval :=
| PNone
| PBool (b : bool)
| PInt (z : Z)
| PStr (s : str)
| PList (l : list pyval)
| PDict (d : list (str * pyval)).

(** An f-string: literal text and formatted values. *)
Inductive piece :=
| Lit (s : string)
| Fmt (v : pyval)
| FmtNat (n : nat).

Definition message := list piece.

Inductive exn :=
| SchemaValidationError (msg : message)
| KeyError (key : pyval)
| TypeError
| AttributeError.

Inductive result (A : Type) :=
| Ok (a : A)
| Raise (e : exn).
Arguments Ok {A} a.
Arguments Raise {A} e.

#[global] Instance result_ret : MRet result := fun A a => Ok a.
#[global] Instance result_bind : MBind result := fun A B f m =>
  match m with
  | Ok a => f a
  | Raise e => Raise e
  end.

Definition raise_error {A} (msg : message) : result A :=
  Raise (SchemaValidationError msg).

Fixpoint mapM {A B} (f : A -> result B) (l : list A) : result (list B) :=
  match l with
  | [] => Ok []
  | a :: l' => b ← f a; bs ← mapM f l'; Ok (b :: bs)
  end.

Fixpoint dict_get (key : str) (d : list (str * pyval)) : option pyval :=
  match d with
  | [] => None
  | (k, v) :: d' => if Text.eqb k key then Some v else dict_get key d'
  end.

(** [v[key]] for a string key. *)
Definition item (v : pyval) (key : string) : result pyval :=
  match v with
  | PDict d =>
      match dict_get (txt key) d with
      | Some x => Ok x
      | None => Raise (KeyError (PStr (txt key)))
      end
  | _ => Raise TypeError
  end.

(** [v.get(key, default)] *)
Definition get (v : pyval) (key : string) (default : pyval) : result pyval :=
  match v with
  | PDict d => Ok (match dict_get (txt key) d with Some x => x | None => default end)
  | _ => Raise AttributeError
  end.

(** What a [for] loop over [v] goes through. *)
Definition iter (v : pyval) : result (list pyval) :=
  match v with
  | PList l => Ok l
  | PDict d => Ok (map (fun kv => PStr kv.1) d)
  | PStr s => Ok (map (fun c => PStr [c]) s)
  | _ => Raise TypeError
  end.

(** [isinstance(v, str) and v] *)
Definition nonempty_str (v : pyval) : bool :=
  match v with
  | PStr (_ :: _) => true
  | _ => false
  end.

(** [isinstance(v, list) and v] *)
Definition nonempty_list (v : pyval) : bool :=
  match v with
  | PList (_ :: _) => true
  | _ => false
  end.

(** [v in s] for a set of strings: lists and dictionaries cannot be
    hashed, and nothing but a string equals a string. *)
Definition in_set (v : pyval) (s : gset str) : result bool :=
  match v with
  | PStr x => Ok (bool_decide (x ∈ s))
  | PList _ | PDict _ => Raise TypeError
  | _ => Ok false
  end.

(** [str(v)], for the values whose text does not go through [repr]. *)
Definition py_str (v : pyval) : option str :=
  match v with
  | PNone => Some (txt "None")
  | PBool true => Some (txt "True")
  | PBool false => Some (txt "False")
  | PInt z => Some (txt (NilZero.string_of_int (Z.to_int z)))
  | PStr s => Some s
  | PList _ | PDict _ => None
  end.

Definition render_piece (p : piece) : option str :=
  match p with
  | Lit s => Some (txt s)
  | Fmt v => py_str v
  | FmtNat n => Some (txt (NilZero.string_of_uint (Nat.to_uint n)))
  end.

(** The text of a message, when every formatted value has one. *)
Fixpoint render (msg : message) : option str :=
  match msg with
  | [] => Some []
  | p :: msg' =>
      match render_piece p, render msg' with
      | Some a, Some b => Some (a ++ b)
      | _, _ => None
      end
  end.

(** The message of an exception holds [sub]. *)
Definition message_contains (sub : string) (e : exn) : bool :=
  match e with
  | SchemaValidationError msg =>
      match render msg with
      | Some t => Text.contains (txt sub) t
      | None => false
      end
  | _ => false
  end.

End Py.

(** The parser's result as the dictionaries it is in Python. *)
Module Raw.
Import SqlParser Py.

Definition opt_str (o : option str) : pyval :=
  match o with
  | Some s => PStr s
  | None => PNone
  end.

Definition str_list (l : list str) : pyval := PList (map PStr l).

Definition column_to_py (c : column_def) : pyval :=
  PDict [(txt "name", PStr (col_name c));
         (txt "type", PStr (col_type c));
         (txt "constraints", opt_str (col_constraints c));
         (txt "is_primary_key", PBool (col_is_primary_key c))].

Definition foreign_key_to_py (f : foreign_key_def) : pyval :=
  PDict [(txt "name", PStr (fk_name f));
         (txt "columns", str_list (fk_columns f));
         (txt "ref_table", PStr (fk_ref_table f));
         (txt "ref_columns", str_list (fk_ref_columns f))].

Definition table_to_py (t : table_def) : pyval :=
  PDict [(txt "name", PStr (tbl_name t));
         (txt "columns", PList (map column_to_py (tbl_columns t)));
         (txt "primary_key", str_list (tbl_primary_key t));
         (txt "foreign_keys", PList (map foreign_key_to_py (tbl_foreign_keys t)))].

(** [{'tables': tables}] *)
Definition parsed_to_py (tables : list table_def) : pyval :=
  PDict [(txt "tables", PList (map table_to_py tables))].

End Raw.

(* ===================================================================== *)
(** * ast_builder.py *)
(* ===================================================================== *)

Module AstBuilder.
Import Py.

(** The dataclasses of [models/schema.py]; a dataclass checks no types, so
    a field holds whatever value it is given. *)
Record Column := MkColumn {
  column_name : pyval;
  column_type : pyval;
  column_constraints : pyval
}.

Record ForeignKey := MkForeignKey {
  foreign_key_name : pyval;
  foreign_key_columns : pyval;
  foreign_key_ref_table : pyval;
  foreign_key_ref_columns : pyval
}.

Record Table := MkTable {
  table_name : pyval;
  table_columns : list Column;
  table_primary_key : pyval;
  table_foreign_keys : list ForeignKey
}.

Record Schema := MkSchema { schema_tables : list Table }.

Definition build_column (col_dict : pyval) : result Column :=
  name ← item col_dict "name";
  type ← item col_dict "type";
  constraints ← get col_dict "constraints" PNone;
  Ok (MkColumn name type constraints).

Definition build_foreign_key (fk_dict : pyval) : result ForeignKey :=
  name ← item fk_dict "name";
  columns ← item fk_dict "columns";
  ref_table ← item fk_dict "ref_table";
  ref_columns ← item fk_dict "ref_columns";
  Ok (MkForeignKey name columns ref_table ref_columns).

(** [ASTBuilder._build_table] *)
Definition build_table (table_dict : pyval) : result Table :=
  cols ← get table_dict "columns" (PList []);
  col_dicts ← iter cols;
  columns ← mapM build_column col_dicts;
  fks ← get table_dict "foreign_keys" (PList []);
  fk_dicts ← iter fks;
  foreign_keys ← mapM build_foreign_key fk_dicts;
  name ← item table_dict "name";
  primary_key ← get table_dict "primary_key" (PList []);
  Ok (MkTable name columns primary_key foreign_keys).

(** [ASTBuilder.build] *)
Definition build (parsed_sql : pyval) : result Schema :=
  tables ← get parsed_sql "tables" (PList []);
  table_dicts ← iter tables;
  tables ← mapM build_table table_dicts;
  Ok (MkSchema tables).

End AstBuilder.

(* ===================================================================== *)
(** * validators.py *)
(* ===================================================================== *)

Module Validators.
Import Py.

(** [_validate_column] *)
Definition validate_column (column : pyval) (table_name : pyval) (index : nat)
    : result unit :=
  match column with
  | PDict d =>
      match dict_get (txt "name") d with
      | None =>
          raise_error [Lit "Column at index "; FmtNat index; Lit " in table '";
                       Fmt table_name; Lit "' must have 'name' field"]
      | Some name =>
          match dict_get (txt "type") d with
          | None =>
              raise_error [Lit "Column '"; Fmt name; Lit "' in table '";
                           Fmt table_name; Lit "' must have 'type' field"]
          | Some type =>
              if negb (nonempty_str name) then
                raise_error [Lit "Column name at index "; FmtNat index;
                             Lit " in table '"; Fmt table_name;
                             Lit "' must be a non-empty string"]
              else if negb (nonempty_str type) then
                raise_error [Lit "Column '"; Fmt name; Lit "' type in table '";
                             Fmt table_name; Lit "' must be a non-empty string"]
              else
                match dict_get (txt "constraints") d with
                | None | Some PNone | Some (PStr _) => Ok ()
                | Some _ =>
                    raise_error [Lit "Column '"; Fmt name;
                                 Lit "' constraints in table '"; Fmt table_name;
                                 Lit "' must be a string"]
                end
          end
      end
  | _ =>
      raise_error [Lit "Column at index "; FmtNat index; Lit " in table '";
                   Fmt table_name; Lit "' must be a dictionary"]
  end.

(** The loop over the columns of [_validate_table]; [column_names] is the
    set of the names seen.  A validated column's name is a string, so the
    [TypeError] of the last case is never raised. *)
Fixpoint validate_columns (columns : list pyval) (table_name : pyval)
    (col_idx : nat) (column_names : gset str) : result (gset str) :=
  match columns with
  | [] => Ok column_names
  | column :: columns' =>
      _ ← validate_column column table_name col_idx;
      name ← item column "name";
      match name with
      | PStr n =>
          if bool_decide (n ∈ column_names) then
            raise_error [Lit "Duplicate column name '"; Fmt name;
                         Lit "' in table '"; Fmt table_name; Lit "'"]
          else
            validate_columns columns' table_name (S col_idx) ({[n]} ∪ column_names)
      | _ => Raise TypeError
      end
  end.

(** The loop over the primary key of [_validate_table]. *)
Fixpoint validate_primary_key (primary_key : list pyval) (table_name : pyval)
    (column_names : gset str) : result unit :=
  match primary_key with
  | [] => Ok ()
  | pk_col :: primary_key' =>
      found ← in_set pk_col column_names;
      if negb found then
        raise_error [Lit "Primary key column '"; Fmt pk_col;
                     Lit "' not found in table '"; Fmt table_name; Lit "'"]
      else validate_primary_key primary_key' table_name column_names
  end.

(** [_validate_table] *)
Definition validate_table (table : pyval) (index : nat) : result unit :=
  match table with
  | PDict d =>
      match dict_get (txt "name") d with
      | None =>
          raise_error [Lit "Table at index "; FmtNat index;
                       Lit " must have 'name' field"]
      | Some name =>
          match dict_get (txt "columns") d with
          | None =>
              raise_error [Lit "Table '"; Fmt name; Lit "' must have 'columns' field"]
          | Some columns =>
              match dict_get (txt "primary_key") d with
              | None =>
                  raise_error [Lit "Table '"; Fmt name;
                               Lit "' must have 'primary_key' field"]
              | Some primary_key =>
                  if negb (nonempty_str name) then
                    raise_error [Lit "Table name at index "; FmtNat index;
                                 Lit " must be a non-empty string"]
                  else
                    match columns with
                    | PList [] =>
                        raise_error [Lit "Table '"; Fmt name;
                                     Lit "' must have at least one column"]
                    | PList cols =>
                        column_names ← validate_columns cols name 0 ∅;
                        match primary_key with
                        | PList pk => validate_primary_key pk name column_names
                        | _ =>
                            raise_error [Lit "Table '"; Fmt name;
                                         Lit "' primary_key must be a list"]
                        end
                    | _ =>
                        raise_error [Lit "Table '"; Fmt name;
                                     Lit "' columns must be a list"]
                    end
              end
          end
      end
  | _ =>
      raise_error [Lit "Table at index "; FmtNat index; Lit " must be a dictionary"]
  end.

Definition required_fields : list string :=
  ["name"; "columns"; "ref_table"; "ref_columns"]%string.

(** The loops of [_validate_foreign_key] over the local and the referenced
    columns; [msg] is the message for a column that is not known. *)
Fixpoint validate_fk_columns (cols : list pyval) (known : gset str)
    (msg : pyval -> message) : result unit :=
  match cols with
  | [] => Ok ()
  | col :: cols' =>
      found ← in_set col known;
      if negb found then raise_error (msg col)
      else validate_fk_columns cols' known msg
  end.

(** [table_columns[name]] *)
Definition columns_of (table_columns : gmap str (gset str)) (name : pyval)
    : result (gset str) :=
  match name with
  | PStr n =>
      match table_columns !! n with
      | Some s => Ok s
      | None => Raise (KeyError name)
      end
  | PList _ | PDict _ => Raise TypeError
  | _ => Raise (KeyError name)
  end.

Definition list_len (v : pyval) : nat :=
  match v with
  | PList l => length l
  | _ => 0
  end.

Definition list_items (v : pyval) : list pyval :=
  match v with
  | PList l => l
  | _ => []
  end.

(** [_validate_foreign_key] *)
Definition validate_foreign_key (fk : pyval) (table : pyval) (index : nat)
    (table_names : gset str) (table_columns : gmap str (gset str))
    : result unit :=
  table_name ← item table "name";
  match fk with
  | PDict d =>
      match List.find (fun field => negb (bool_decide (is_Some (dict_get (txt field) d))))
                      required_fields with
      | Some field =>
          raise_error [Lit "Foreign key at index "; FmtNat index; Lit " in table '";
                       Fmt table_name; Lit "' must have '"; Lit field; Lit "' field"]
      | None =>
          name ← item fk "name";
          columns ← item fk "columns";
          ref_table ← item fk "ref_table";
          ref_columns ← item fk "ref_columns";
          if negb (nonempty_str name) then
            raise_error [Lit "Foreign key name at index "; FmtNat index;
                         Lit " in table '"; Fmt table_name;
                         Lit "' must be a non-empty string"]
          else if negb (nonempty_list columns) then
            raise_error [Lit "Foreign key '"; Fmt name; Lit "' columns in table '";
                         Fmt table_name; Lit "' must be a non-empty list"]
          else
            own ← columns_of table_columns table_name;
            _ ← validate_fk_columns (list_items columns) own (fun col =>
                  [Lit "Foreign key '"; Fmt name;
                   Lit "' references non-existent column '"; Fmt col;
                   Lit "' in table '"; Fmt table_name; Lit "'"]);
            if negb (nonempty_str ref_table) then
              raise_error [Lit "Foreign key '"; Fmt name; Lit "' ref_table in table '";
                           Fmt table_name; Lit "' must be a non-empty string"]
            else
              known ← in_set ref_table table_names;
              if negb known then
                raise_error [Lit "Foreign key '"; Fmt name; Lit "' in table '";
                             Fmt table_name; Lit "' references non-existent table '";
                             Fmt ref_table; Lit "'"]
              else if negb (nonempty_list ref_columns) then
                raise_error [Lit "Foreign key '"; Fmt name;
                             Lit "' ref_columns in table '"; Fmt table_name;
                             Lit "' must be a non-empty list"]
              else
                theirs ← columns_of table_columns ref_table;
                _ ← validate_fk_columns (list_items ref_columns) theirs (fun col =>
                      [Lit "Foreign key '"; Fmt name; Lit "' in table '";
                       Fmt table_name; Lit "' references non-existent column '";
                       Fmt col; Lit "' in table '"; Fmt ref_table; Lit "'"]);
                if negb (Nat.eqb (list_len columns) (list_len ref_columns)) then
                  raise_error [Lit "Foreign key '"; Fmt name; Lit "' in table '";
                               Fmt table_name;
                               Lit "' has mismatched column counts: ";
                               FmtNat (list_len columns); Lit " columns but ";
                               FmtNat (list_len ref_columns); Lit " ref_columns"]
                else Ok ()
      end
  | _ =>
      raise_error [Lit "Foreign key at index "; FmtNat index; Lit " in table '";
                   Fmt table_name; Lit "' must be a dictionary"]
  end.

Fixpoint validate_fk_list (fks : list pyval) (table : pyval) (fk_idx : nat)
    (table_names : gset str) (table_columns : gmap str (gset str))
    : result unit :=
  match fks with
  | [] => Ok ()
  | fk :: fks' =>
      _ ← validate_foreign_key fk table fk_idx table_names table_columns;
      validate_fk_list fks' table (S fk_idx) table_names table_columns
  end.

(** [_validate_foreign_keys]; the first pass has checked that the table
    is a dictionary. *)
Definition validate_foreign_keys (table : pyval)
    (table_names : gset str) (table_columns : gmap str (gset str))
    : result unit :=
  match table with
  | PDict d =>
      match dict_get (txt "foreign_keys") d with
      | None => Ok ()
      | Some (PList fks) => validate_fk_list fks table 0 table_names table_columns
      | Some _ =>
          name ← item table "name";
          raise_error [Lit "Table '"; Fmt name; Lit "' foreign_keys must be a list"]
      end
  | _ => Raise TypeError
  end.

(** [{col['name'] for col in columns}] *)
Fixpoint column_name_set (columns : list pyval) : result (gset str) :=
  match columns with
  | [] => Ok ∅
  | col :: columns' =>
      name ← item col "name";
      rest ← column_name_set columns';
      match name with
      | PStr n => Ok ({[n]} ∪ rest)
      | _ => Raise TypeError
      end
  end.

(** The first loop of [validate_schema]. *)
Fixpoint first_pass (tables : list pyval) (i : nat)
    (table_names : gset str) (table_columns : gmap str (gset str))
    : result (gset str * gmap str (gset str)) :=
  match tables with
  | [] => Ok (table_names, table_columns)
  | table :: tables' =>
      _ ← validate_table table i;
      name ← item table "name";
      columns ← item table "columns";
      col_dicts ← iter columns;
      cols ← column_name_set col_dicts;
      match name with
      | PStr n =>
          first_pass tables' (S i) ({[n]} ∪ table_names) (<[n := cols]> table_columns)
      | _ => Raise TypeError
      end
  end.

(** The second loop of [validate_schema]. *)
Fixpoint second_pass (tables : list pyval)
    (table_names : gset str) (table_columns : gmap str (gset str))
    : result unit :=
  match tables with
  | [] => Ok ()
  | table :: tables' =>
      _ ← validate_foreign_keys table table_names table_columns;
      second_pass tables' table_names table_columns
  end.

(** [validate_schema] *)
Definition validate_schema (schema : pyval) : result bool :=
  match schema with
  | PDict d =>
      match dict_get (txt "tables") d with
      | None => raise_error [Lit "Schema must have 'tables' key"]
      | Some (PList tables) =>
          '(table_names, table_columns) ← first_pass tables 0 ∅ ∅;
          _ ← second_pass tables table_names table_columns;
          Ok true
      | Some _ => raise_error [Lit "'tables' must be a list"]
      end
  | _ => raise_error [Lit "Schema must be a dictionary"]
  end.

End Validators.

(* ===================================================================== *)
(** * The specification's notions *)
(* ===================================================================== *)

Module Spec.
Import Text Re SqlParser Py.

(** ** Parenthesis depth and the top-level commas *)

Definition delta (c : ascii) : Z :=
  if Ascii.eqb c "(" then 1 else if Ascii.eqb c ")" then (-1) else 0.

(** Every character with the nesting depth in front of it. *)
Fixpoint annotate (depth : Z) (s : str) : list (ascii * Z) :=
  match s with
  | [] => []
  | c :: s' => (c, depth) :: annotate (depth + delta c) s'
  end.

Definition top_level_comma (cd : ascii * Z) : bool :=
  Ascii.eqb cd.1 "," && (cd.2 =? 0)%Z.

(** The pieces between the elements that satisfy [p]: one more piece than
    there are such elements. *)
Fixpoint split_where {A} (p : A -> bool) (l : list A) : list (list A) :=
  match l with
  | [] => [[]]
  | a :: l' =>
      if p a then [] :: split_where p l'
      else match split_where p l' with
           | x :: xs => (a :: x) :: xs
           | [] => [[a]]
           end
  end.

(** The substrings delimited by the commas at depth zero. *)
Definition top_level_pieces (s : str) : list str :=
  map (map fst) (split_where top_level_comma (annotate 0 s)).

(** The same without the last substring when that one is empty. *)
Fixpoint drop_empty_last (l : list str) : list str :=
  match l with
  | [] => []
  | [x] => if truthy x then [x] else []
  | x :: l' => x :: drop_empty_last l'
  end.

Definition count_char (c : ascii) (s : str) : Z :=
  Z.of_nat (length (filter (fun x => x = c) s)).

(** ** The table body *)

(** The text behind the first [c]. *)
Fixpoint after_first (c : ascii) (s : str) : option str :=
  match s with
  | [] => None
  | x :: s' => if Ascii.eqb x c then Some s' else after_first c s'
  end.

(** The text in front of the last [c], and the text behind it. *)
Fixpoint split_last (c : ascii) (s : str) : option (str * str) :=
  match s with
  | [] => None
  | x :: s' =>
      match split_last c s' with
      | Some (a, b) => Some (x :: a, b)
      | None => if Ascii.eqb x c then Some ([], s') else None
      end
  end.

(** From the first open parenthesis to the last close parenthesis. *)
Definition greedy_body (text : str) : option str :=
  s ← after_first "(" text; fst <$> split_last ")" s.

(** The text up to the close parenthesis that matches an open one [depth]
    levels up, and the text behind that parenthesis. *)
Fixpoint close_at (depth : nat) (s : str) : option (str * str) :=
  match s with
  | [] => None
  | x :: s' =>
      if Ascii.eqb x ")" then
        match depth with
        | 0 => Some ([], s')
        | S d => (fun '(a, b) => (x :: a, b)) <$> close_at d s'
        end
      else
        (fun '(a, b) => (x :: a, b)) <$>
          close_at (if Ascii.eqb x "(" then S depth else depth) s'
  end.

(** From the first open parenthesis to the close parenthesis matching it. *)
Definition matching_span (text : str) : option (str * str) :=
  s ← after_first "(" text; close_at 0 s.

Definition matching_body (text : str) : option str := fst <$> matching_span text.

(** The text has an open parenthesis with a close parenthesis behind it. *)
Definition has_parentheses (text : str) : bool :=
  match after_first "(" text with
  | Some s => bool_decide (")"%char ∈ s)
  | None => false
  end.

(** ** The fragments of a statement and the primary key *)

Definition starts_with (r : regex) (frag : str) : bool :=
  bool_decide (is_Some (re_match true r frag)).

(** The trimmed fragments of the table body. *)
Definition fragments (text : str) : list str :=
  match definitions text with
  | Some defs => map strip (split_by_comma defs)
  | None => []
  end.

(** The fragment is handed to the foreign-key clause parser. *)
Definition foreign_key_fragment (frag : str) : bool :=
  negb (starts_with primary_key_re frag) &&
  (starts_with foreign_key_re frag || starts_with constraint_re frag).

(** What one turn of the loop appends to the primary key, as a function
    of the trimmed fragment. *)
Definition primary_key_of_fragment (frag : str) : list str :=
  if starts_with primary_key_re frag then
    match re_search true primary_key_cols_re frag with
    | Some m => column_list (group_text 1 m)
    | None => []
    end
  else if starts_with foreign_key_re frag || starts_with constraint_re frag then []
  else
    match parse_column_definition frag with
    | Some c => if col_is_primary_key c then [col_name c] else []
    | None => []
    end.

(** ** Removing the phrase PRIMARY KEY *)

(** No match of [r] starts inside [pre] when [pre] is followed by [rest]. *)
Definition none_starts_in (r : regex) (pre rest : str) : Prop :=
  forall a b m post, pre = a ++ b -> b <> [] -> b ++ rest = m ++ post ->
    ~ lang true r m.


(** ** The keys the builder reads *)

Definition has_key (key : string) (v : pyval) : bool :=
  match v with
  | PDict d => bool_decide (is_Some (dict_get (txt key) d))
  | _ => false
  end.

Definition is_dict (v : pyval) : bool :=
  match v with PDict _ => true | _ => false end.

Definition is_dict_list (v : pyval) : bool :=
  match v with PList l => forallb is_dict l | _ => false end.

Definition field (key : string) (v : pyval) : pyval :=
  match v with
  | PDict d => default (PList []) (dict_get (txt key) d)
  | _ => PList []
  end.

(** A raw record has the parser's shape: a dictionary whose tables are
    dictionaries with lists of dictionaries as columns and foreign keys. *)
Definition raw_shape (raw : pyval) : bool :=
  is_dict raw && is_dict_list (field "tables" raw) &&
  forallb (fun t => is_dict_list (field "columns" t) &&
                    is_dict_list (field "foreign_keys" t))
          (Validators.list_items (field "tables" raw)).

(** The keys the specification names: the table's name and every
    column's name and type. *)
Definition stated_keys_present (raw : pyval) : bool :=
  forallb (fun t =>
             has_key "name" t &&
             forallb (fun c => has_key "name" c && has_key "type" c)
                     (Validators.list_items (field "columns" t)))
          (Validators.list_items (field "tables" raw)).

(** The keys of the foreign-key entries, which the builder reads too. *)
Definition foreign_key_keys_present (raw : pyval) : bool :=
  forallb (fun t =>
             forallb (fun f => has_key "name" f && has_key "columns" f &&
                               has_key "ref_table" f && has_key "ref_columns" f)
                     (Validators.list_items (field "foreign_keys" t)))
          (Validators.list_items (field "tables" raw)).

(** ** The validator *)

(** The lists of local and of referenced columns differ in length. *)
Definition arity_mismatch (fk : pyval) : bool :=
  match fk with
  | PDict d =>
      match dict_get (txt "columns") d, dict_get (txt "ref_columns") d with
      | Some (PList cs), Some (PList rs) => negb (Nat.eqb (length cs) (length rs))
      | _, _ => false
      end
  | _ => false
  end.

(** The foreign-key entries of a schema mapping. *)
Definition schema_foreign_keys (schema : pyval) : list pyval :=
  concat (map (fun t => Validators.list_items (field "foreign_keys" t))
              (Validators.list_items (field "tables" schema))).


(** ** Auxiliary notions *)

(** A match at the start of the text. *)
Definition starts (ic : bool) (r : regex) (s : str) : Prop :=
  exists m rest, s = m ++ rest /\ lang ic r m.

(** The pieces of a text that begins at depth [d]. *)
Definition pieces_from (d : Z) (s : str) : list str :=
  map (map fst) (split_where top_level_comma (annotate d s)).

(** The result is not a [KeyError]. *)
Definition no_key_error {A} (r : result A) : Prop :=
  forall k, r <> Raise (KeyError k).

(** The keys the builder reads in one table. *)
Definition table_keys (t : pyval) : bool :=
  has_key "name" t &&
  forallb (fun c => has_key "name" c && has_key "type" c)
          (Validators.list_items (field "columns" t)) &&
  forallb (fun f => has_key "name" f && has_key "columns" f &&
                    has_key "ref_table" f && has_key "ref_columns" f)
          (Validators.list_items (field "foreign_keys" t)).

End Spec.

(* ===================================================================== *)
(** * Concrete inputs *)
(* ===================================================================== *)

Module Examples.
Import Text SqlParser Py.
Local Open Scope string_scope.

Definition pstr (x : string) : pyval := PStr (txt x).
Definition dict (l : list (string * pyval)) : pyval :=
  PDict (map (fun kv => (txt kv.1, kv.2)) l).
Definition column (name type : string) : pyval :=
  dict [("name", pstr name); ("type", pstr type)].

(** An earlier table with a foreign key to a table that does not exist, a
    later table with two columns of one name. *)
Definition orders_then_items : list (str * pyval) :=
  [(txt "tables", PList [
     dict [("name", pstr "orders");
           ("columns", PList [column "id" "INTEGER"]);
           ("primary_key", PList [pstr "id"]);
           ("foreign_keys", PList [
              dict [("name", pstr "fk_user"); ("columns", PList [pstr "id"]);
                    ("ref_table", pstr "users"); ("ref_columns", PList [pstr "id"])]])];
     dict [("name", pstr "items");
           ("columns", PList [column "id" "INTEGER"; column "id" "TEXT"]);
           ("primary_key", PList [])]])].

(** A table whose foreign key has one column, two referenced columns and,
    among these, one that the referenced table does not have. *)
Definition dangling_and_mismatched : pyval :=
  dict [("tables", PList [
     dict [("name", pstr "t");
           ("columns", PList [column "a" "INT"]);
           ("primary_key", PList []);
           ("foreign_keys", PList [
              dict [("name", pstr "fk"); ("columns", PList [pstr "a"]);
                    ("ref_table", pstr "t");
                    ("ref_columns", PList [pstr "a"; pstr "zz"])]])]])].

(** A raw record with every key the specification names, and a
    foreign-key entry that has a name only. *)
Definition nameless_reference : pyval :=
  dict [("tables", PList [
     dict [("name", pstr "t");
           ("columns", PList [column "a" "INT"]);
           ("primary_key", PList []);
           ("foreign_keys", PList [dict [("name", pstr "fk")]])]])].

Definition complete_record : pyval :=
  dict [("tables", PList [
     dict [("name", pstr "t");
           ("columns", PList [column "a" "INT"]);
           ("primary_key", PList [])]])].

Definition create_table (name rest : string) : list token :=
  [Token DDL (txt "CREATE"); Token Whitespace (txt " ");
   Token Keyword (txt "TABLE"); Token Whitespace (txt " ");
   Token Name (txt name); Token OtherToken (txt rest)].

Definition with_options : str := txt "CREATE TABLE t (a INT) WITH (x)".

Definition three_keys : list token :=
  create_table "t"
    " (a INT, b INT, PRIMARY KEY (a), PRIMARY KEY (b, a), c INT PRIMARY KEY)".

Definition unnamed_reference : str := txt "FOREIGN KEY (c) REFERENCES other(d)".

Definition unequal_reference : str := txt "FOREIGN KEY (a) REFERENCES t(x, y)".

Definition no_references : str := txt "FOREIGN KEY (a)".


Definition empty_backticks : list token := create_table "``" " (id INTEGER)".

Definition no_body : list token := create_table "t" ";".

End Examples.

(* ===================================================================== *)
(** * yaml_converter.py *)
(* ===================================================================== *)

Module YamlConverter.
Import Py AstBuilder.

(** The truth value of a Python value, as [if v:] takes it. *)
Definition truth (v : pyval) : bool :=
  match v with
  | PNone => false
  | PBool b => b
  | PInt z => negb (z =? 0)%Z
  | PStr s => match s with [] => false | _ :: _ => true end
  | PList l => match l with [] => false | _ :: _ => true end
  | PDict d => match d with [] => false | _ :: _ => true end
  end.

(** The dictionary of one column: the constraints are entered only when
    they are true. *)
Definition column_to_dict (col : Column) : pyval :=
  PDict ([(txt "name", column_name col); (txt "type", column_type col)] ++
         (if truth (column_constraints col)
          then [(txt "constraints", column_constraints col)]
          else [])).

Definition foreign_key_to_dict (fk : ForeignKey) : pyval :=
  PDict [(txt "name", foreign_key_name fk);
         (txt "columns", foreign_key_columns fk);
         (txt "ref_table", foreign_key_ref_table fk);
         (txt "ref_columns", foreign_key_ref_columns fk)].

(** The dictionary of one table: the foreign keys are entered only when
    there are some. *)
Definition table_to_dict (table : Table) : pyval :=
  PDict ([(txt "name", table_name table);
          (txt "columns", PList (map column_to_dict (table_columns table)));
          (txt "primary_key", table_primary_key table)] ++
         match table_foreign_keys table with
         | [] => []
         | fks => [(txt "foreign_keys", PList (map foreign_key_to_dict fks))]
         end).

(** [schema_to_dict] *)
Definition schema_to_dict (schema : Schema) : pyval :=
  PDict [(txt "tables", PList (map table_to_dict (schema_tables schema)))].

End YamlConverter.

(* ===================================================================== *)
(** * Notions for the properties of the pipeline *)
(* ===================================================================== *)

Module Pipeline.
Import Text SqlParser Py Raw AstBuilder YamlConverter.

(** The first and the last character of [s] are not in [p]. *)
Definition clean_edges (p : ascii -> bool) (s : str) : bool :=
  match s with [] => true | x :: _ => negb (p x) end &&
  match rev s with [] => true | y :: _ => negb (p y) end.

(** No quote character at either end. *)
Definition unquoted (s : str) : bool := clean_edges (mem_char quote_chars) s.

(** No white space at either end. *)
Definition trimmed (s : str) : bool := clean_edges is_space s.

(** No lower-case letter. *)
Definition uppercased (s : str) : bool := forallb (fun x => negb (is_lower x)) s.

Definition no_parenthesis (s : str) : bool :=
  forallb (fun x => negb (Ascii.eqb x "(") && negb (Ascii.eqb x ")")) s.

Definition is_create (stmt : statement) : bool :=
  Text.eqb (get_type stmt) (txt "CREATE").

(** The dataclasses the builder makes from the parser's records. *)
Definition column_of_def (c : column_def) : Column :=
  MkColumn (PStr (col_name c)) (PStr (col_type c)) (opt_str (col_constraints c)).

Definition foreign_key_of_def (f : foreign_key_def) : ForeignKey :=
  MkForeignKey (PStr (fk_name f)) (str_list (fk_columns f))
               (PStr (fk_ref_table f)) (str_list (fk_ref_columns f)).

Definition table_of_def (t : table_def) : Table :=
  MkTable (PStr (tbl_name t)) (map column_of_def (tbl_columns t))
          (str_list (tbl_primary_key t))
          (map foreign_key_of_def (tbl_foreign_keys t)).

Definition schema_of_defs (tables : list table_def) : Schema :=
  MkSchema (map table_of_def tables).

(** A column, a table and a schema with the constraints that are not true
    set to [None]. *)
Definition rebuilt_column (c : Column) : Column :=
  MkColumn (column_name c) (column_type c)
           (if truth (column_constraints c) then column_constraints c else PNone).

Definition rebuilt_table (t : Table) : Table :=
  MkTable (table_name t) (map rebuilt_column (table_columns t))
          (table_primary_key t) (table_foreign_keys t).

Definition without_false_constraints (schema : Schema) : Schema :=
  MkSchema (map rebuilt_table (schema_tables schema)).

(** Every column's constraints are [None] or true. *)
Definition constraints_kept (schema : Schema) : bool :=
  forallb (fun t =>
    forallb (fun c => match column_constraints c with
                      | PNone => true
                      | v => truth v
                      end) (table_columns t))
    (schema_tables schema).

(** What [_validate_column] asks of a column: a dictionary with a name and
    a type that are strings and not empty, and with constraints that are
    absent, [None] or a string.  [n] is the name. *)
Definition column_named (col : pyval) (n : str) : Prop :=
  exists d ty,
    col = PDict d /\ dict_get (txt "name") d = Some (PStr n) /\ n <> [] /\
    dict_get (txt "type") d = Some (PStr ty) /\ ty <> [] /\
    match dict_get (txt "constraints") d with
    | None | Some PNone | Some (PStr _) => True
    | Some _ => False
    end.

(** What [_validate_table] asks of a table: a name that is a string and
    not empty, a list of columns that is not empty and whose names differ,
    and a primary key that lists names of these columns. *)
Definition well_formed_table (table : pyval) : Prop :=
  exists d name cols pk names,
    table = PDict d /\
    dict_get (txt "name") d = Some (PStr name) /\ name <> [] /\
    dict_get (txt "columns") d = Some (PList cols) /\ cols <> [] /\
    dict_get (txt "primary_key") d = Some (PList pk) /\
    Forall2 column_named cols names /\ NoDup names /\
    Forall (fun p => exists n, p = PStr n /\ n ∈ names) pk.

(** Some table of the list has the name [tn] and a column whose name is
    the string [v]. *)
Definition has_column (tables : list pyval) (tn : str) (v : pyval) : Prop :=
  exists t cols col c,
    t ∈ tables /\ item t "name" = Ok (PStr tn) /\
    item t "columns" = Ok (PList cols) /\ col ∈ cols /\
    item col "name" = Ok (PStr c) /\ v = PStr c.

(** What an accepted schema guarantees of one foreign key of the table
    with the name [owner]. *)
Definition resolved_foreign_key (tables : list pyval) (owner : str) (fk : pyval)
    : Prop :=
  exists d name rt cs rs,
    fk = PDict d /\
    dict_get (txt "name") d = Some (PStr name) /\ name <> [] /\
    dict_get (txt "columns") d = Some (PList cs) /\ cs <> [] /\
    dict_get (txt "ref_table") d = Some (PStr rt) /\
    dict_get (txt "ref_columns") d = Some (PList rs) /\
    length cs = length rs /\
    (exists t, t ∈ tables /\ item t "name" = Ok (PStr rt)) /\
    Forall (has_column tables owner) cs /\
    Forall (has_column tables rt) rs.

(** The exported dictionaries of a parsed column and of a parsed table. *)
Definition exported_column (c : column_def) : pyval :=
  column_to_dict (column_of_def c).

Definition exported_table (t : table_def) : pyval :=
  table_to_dict (table_of_def t).

(** What holds of the three lists after the fragments [seen]. *)
Definition collected_from (seen : list str) (st : collected) : Prop :=
  (forall c, c ∈ columns st ->
     exists frag, frag ∈ seen /\ parse_column_definition frag = Some c) /\
  (forall fk, fk ∈ foreign_keys st ->
     exists frag, frag ∈ seen /\ parse_foreign_key frag = Some fk) /\
  (forall c, c ∈ columns st -> col_is_primary_key c = true ->
     col_name c ∈ primary_key st) /\
  length (columns st) + length (foreign_keys st) <= length seen.

End Pipeline.

Module MoreExamples.
Import Text SqlParser Py AstBuilder.

Definition quoted_column : str := txt "`price` decimal(10,2) NOT NULL".

Definition named_reference : str :=
  txt "CONSTRAINT `fk_o` FOREIGN KEY (`a`, b) REFERENCES [p] (x, y)".

Definition users_table : pyval :=
  Examples.dict [("name", Examples.pstr "users");
                 ("columns", PList [Examples.column "id" "INTEGER";
                                    Examples.column "name" "TEXT"]);
                 ("primary_key", PList [Examples.pstr "id"])]%string.

Definition user_reference : pyval :=
  Examples.dict [("name", Examples.pstr "fk_user");
                 ("columns", PList [Examples.pstr "user_id"]);
                 ("ref_table", Examples.pstr "users");
                 ("ref_columns", PList [Examples.pstr "id"])]%string.

Definition orders_table : pyval :=
  Examples.dict [("name", Examples.pstr "orders");
                 ("columns", PList [Examples.column "id" "INTEGER";
                                    Examples.column "user_id" "INTEGER"]);
                 ("primary_key", PList [Examples.pstr "id"]);
                 ("foreign_keys", PList [user_reference])]%string.

Definition orders_schema : pyval :=
  Examples.dict [("tables", PList [users_table; orders_table])]%string.

Definition users_schema_object : Schema :=
  MkSchema [MkTable (Examples.pstr "users")
              [MkColumn (Examples.pstr "id") (Examples.pstr "INTEGER") PNone;
               MkColumn (Examples.pstr "name") (Examples.pstr "TEXT")
                        (Examples.pstr "NOT NULL")]
              (PList [Examples.pstr "id"]) []].

Definition two_statements : list statement :=
  [Statement (txt "CREATE") (Examples.create_table "a" " (x INT)");
   Statement (txt "INSERT") [Token OtherToken (txt "INSERT INTO a VALUES (1)")];
   Statement (txt "CREATE") (Examples.create_table "b" " (y INT PRIMARY KEY)")].

End MoreExamples.

(* ===================================================================== *)
(** * The validator's checks in document order *)
(* ===================================================================== *)

Module Order.
Import Text Py Validators Spec.

(** A check passes ([None]) or fails with an error. *)
Definition check := option exn.

Definition need (holds : bool) (msg : message) : check :=
  if holds then None else Some (SchemaValidationError msg).

(** The error of the first check that fails. *)
Fixpoint first_failure (checks : list check) : option exn :=
  match checks with
  | [] => None
  | Some e :: _ => Some e
  | None :: checks' => first_failure checks'
  end.

(** Success with [a] when no check fails, the first failure otherwise. *)
Definition outcome {A} (a : A) (checks : list check) : result A :=
  match first_failure checks with
  | Some e => Raise e
  | None => Ok a
  end.

Definition is_list (v : pyval) : bool :=
  match v with PList _ => true | _ => false end.

Definition string_or_none (v : pyval) : bool :=
  match v with PNone | PStr _ => true | _ => false end.

Definition text_of (v : pyval) : str :=
  match v with PStr s => s | _ => [] end.

(** The value names one of [known]; a list or a dictionary cannot be looked
    up in a set, which is a [TypeError]. *)
Definition need_known (v : pyval) (known : list str) (msg : message) : check :=
  match v with
  | PStr x => need (bool_decide (x ∈ known)) msg
  | PList _ | PDict _ => Some TypeError
  | _ => Some (SchemaValidationError msg)
  end.

Definition column_names (cols : list pyval) : list str :=
  map (fun col => text_of (field "name" col)) cols.

(** ** First pass *)

(** The checks of one column, [earlier] being the columns in front of it:
    its fields first, then its name against the names in front. *)
Definition column_checks (tn : pyval) (earlier : list pyval) (col : pyval)
    : list check :=
  let j := length earlier in
  let name := field "name" col in
  [ need (is_dict col)
      [Lit "Column at index "; FmtNat j; Lit " in table '"; Fmt tn;
       Lit "' must be a dictionary"];
    need (has_key "name" col)
      [Lit "Column at index "; FmtNat j; Lit " in table '"; Fmt tn;
       Lit "' must have 'name' field"];
    need (has_key "type" col)
      [Lit "Column '"; Fmt name; Lit "' in table '"; Fmt tn;
       Lit "' must have 'type' field"];
    need (nonempty_str name)
      [Lit "Column name at index "; FmtNat j; Lit " in table '"; Fmt tn;
       Lit "' must be a non-empty string"];
    need (nonempty_str (field "type" col))
      [Lit "Column '"; Fmt name; Lit "' type in table '"; Fmt tn;
       Lit "' must be a non-empty string"];
    need (negb (has_key "constraints" col) ||
          string_or_none (field "constraints" col))
      [Lit "Column '"; Fmt name; Lit "' constraints in table '"; Fmt tn;
       Lit "' must be a string"];
    need (negb (bool_decide (text_of name ∈ column_names earlier)))
      [Lit "Duplicate column name '"; Fmt name; Lit "' in table '"; Fmt tn;
       Lit "'"] ].

(** The columns in order. *)
Fixpoint columns_checks (tn : pyval) (earlier cols : list pyval) : list check :=
  match cols with
  | [] => []
  | col :: cols' =>
      column_checks tn earlier col ++ columns_checks tn (earlier ++ [col]) cols'
  end.

(** The checks of the table at index [i]: the required keys, each column in
    order, the primary-key list in order. *)
Definition table_checks (i : nat) (table : pyval) : list check :=
  let name := field "name" table in
  let cols := list_items (field "columns" table) in
  [ need (is_dict table)
      [Lit "Table at index "; FmtNat i; Lit " must be a dictionary"];
    need (has_key "name" table)
      [Lit "Table at index "; FmtNat i; Lit " must have 'name' field"];
    need (has_key "columns" table)
      [Lit "Table '"; Fmt name; Lit "' must have 'columns' field"];
    need (has_key "primary_key" table)
      [Lit "Table '"; Fmt name; Lit "' must have 'primary_key' field"];
    need (nonempty_str name)
      [Lit "Table name at index "; FmtNat i; Lit " must be a non-empty string"];
    need (is_list (field "columns" table))
      [Lit "Table '"; Fmt name; Lit "' columns must be a list"];
    need (nonempty_list (field "columns" table))
      [Lit "Table '"; Fmt name; Lit "' must have at least one column"] ]
  ++ columns_checks name [] cols
  ++ need (is_list (field "primary_key" table))
       [Lit "Table '"; Fmt name; Lit "' primary_key must be a list"]
     :: map (fun pk_col =>
               need_known pk_col (column_names cols)
                 [Lit "Primary key column '"; Fmt pk_col;
                  Lit "' not found in table '"; Fmt name; Lit "'"])
            (list_items (field "primary_key" table)).

(** The tables in order, [i] being the index of the first. *)
Fixpoint first_pass_checks (i : nat) (tables : list pyval) : list check :=
  match tables with
  | [] => []
  | table :: tables' => table_checks i table ++ first_pass_checks (S i) tables'
  end.

(** ** Second pass *)

Definition table_names (tables : list pyval) : list str :=
  map (fun table => text_of (field "name" table)) tables.

(** The columns on record for the name [n]: those of the last table of
    that name. *)
Fixpoint recorded_columns (tables : list pyval) (n : str) : option (list str) :=
  match tables with
  | [] => None
  | table :: tables' =>
      match recorded_columns tables' n with
      | Some cols => Some cols
      | None =>
          if Text.eqb (text_of (field "name" table)) n
          then Some (column_names (list_items (field "columns" table)))
          else None
      end
  end.

Definition columns_named (tables : list pyval) (n : str) : list str :=
  default [] (recorded_columns tables n).

(** The checks of a foreign key that come before the two counts are
    compared. *)
Definition reference_checks (tables : list pyval) (table : pyval) (f : nat)
    (fk : pyval) : list check :=
  let tn := field "name" table in
  let name := field "name" fk in
  let ref_table := field "ref_table" fk in
  let missing (key : string) :=
    [Lit "Foreign key at index "; FmtNat f; Lit " in table '"; Fmt tn;
     Lit "' must have '"; Lit key; Lit "' field"] in
  [ need (is_dict fk)
      [Lit "Foreign key at index "; FmtNat f; Lit " in table '"; Fmt tn;
       Lit "' must be a dictionary"];
    need (has_key "name" fk) (missing "name");
    need (has_key "columns" fk) (missing "columns");
    need (has_key "ref_table" fk) (missing "ref_table");
    need (has_key "ref_columns" fk) (missing "ref_columns");
    need (nonempty_str name)
      [Lit "Foreign key name at index "; FmtNat f; Lit " in table '"; Fmt tn;
       Lit "' must be a non-empty string"];
    need (nonempty_list (field "columns" fk))
      [Lit "Foreign key '"; Fmt name; Lit "' columns in table '"; Fmt tn;
       Lit "' must be a non-empty list"] ]
  ++ map (fun col =>
            need_known col (columns_named tables (text_of tn))
              [Lit "Foreign key '"; Fmt name;
               Lit "' references non-existent column '"; Fmt col;
               Lit "' in table '"; Fmt tn; Lit "'"])
         (list_items (field "columns" fk))
  ++ [ need (nonempty_str ref_table)
         [Lit "Foreign key '"; Fmt name; Lit "' ref_table in table '"; Fmt tn;
          Lit "' must be a non-empty string"];
       need (bool_decide (text_of ref_table ∈ table_names tables))
         [Lit "Foreign key '"; Fmt name; Lit "' in table '"; Fmt tn;
          Lit "' references non-existent table '"; Fmt ref_table; Lit "'"];
       need (nonempty_list (field "ref_columns" fk))
         [Lit "Foreign key '"; Fmt name; Lit "' ref_columns in table '"; Fmt tn;
          Lit "' must be a non-empty list"] ]
  ++ map (fun col =>
            need_known col (columns_named tables (text_of ref_table))
              [Lit "Foreign key '"; Fmt name; Lit "' in table '"; Fmt tn;
               Lit "' references non-existent column '"; Fmt col;
               Lit "' in table '"; Fmt ref_table; Lit "'"])
         (list_items (field "ref_columns" fk)).

(** The error of a foreign key whose two lists differ in length. *)
Definition arity_error (table fk : pyval) : exn :=
  SchemaValidationError
    [Lit "Foreign key '"; Fmt (field "name" fk); Lit "' in table '";
     Fmt (field "name" table); Lit "' has mismatched column counts: ";
     FmtNat (list_len (field "columns" fk)); Lit " columns but ";
     FmtNat (list_len (field "ref_columns" fk)); Lit " ref_columns"].

Definition arity_check (table fk : pyval) : check :=
  if Nat.eqb (list_len (field "columns" fk)) (list_len (field "ref_columns" fk))
  then None else Some (arity_error table fk).

(** The checks of the foreign key at index [f] of [table]. *)
Definition foreign_key_checks (tables : list pyval) (table : pyval) (f : nat)
    (fk : pyval) : list check :=
  reference_checks tables table f fk ++ [arity_check table fk].

Fixpoint foreign_keys_checks (tables : list pyval) (table : pyval) (f : nat)
    (fks : list pyval) : list check :=
  match fks with
  | [] => []
  | fk :: fks' =>
      foreign_key_checks tables table f fk ++
      foreign_keys_checks tables table (S f) fks'
  end.

(** The foreign keys of one table, when it has the key at all. *)
Definition table_foreign_key_checks (tables : list pyval) (table : pyval)
    : list check :=
  if has_key "foreign_keys" table then
    need (is_list (field "foreign_keys" table))
      [Lit "Table '"; Fmt (field "name" table); Lit "' foreign_keys must be a list"]
    :: foreign_keys_checks tables table 0 (list_items (field "foreign_keys" table))
  else [].

Definition second_pass_checks (tables owners : list pyval) : list check :=
  concat (map (table_foreign_key_checks tables) owners).

(** ** The whole schema *)

(** Every check of the validator in document order: the top-level keys,
    then the first pass over all the tables, then the foreign keys of all
    the tables. *)
Definition document_order (schema : pyval) : list check :=
  let tables := list_items (field "tables" schema) in
  [ need (is_dict schema) [Lit "Schema must be a dictionary"];
    need (has_key "tables" schema) [Lit "Schema must have 'tables' key"];
    need (is_list (field "tables" schema)) [Lit "'tables' must be a list"] ]
  ++ first_pass_checks 0 tables
  ++ second_pass_checks tables tables.

(** What the first loop has on record behind [tables]. *)
Definition recorded (tables : list pyval) (table_columns : gmap str (gset str))
    : gmap str (gset str) :=
  fold_left (fun m table =>
               <[text_of (field "name" table) :=
                   list_to_set (column_names (list_items (field "columns" table)))]> m)
            tables table_columns.

End Order.

Module OrderExamples.
Import Text SqlParser Py Examples MoreExamples.
Local Open Scope string_scope.

(** Two foreign keys of the orders table: one that resolves, and one with
    two columns against one referenced column, all of which exist. *)
Definition two_to_one : pyval :=
  dict [("name", pstr "fk_pair");
        ("columns", PList [pstr "id"; pstr "user_id"]);
        ("ref_table", pstr "users");
        ("ref_columns", PList [pstr "id"])].

Definition orders_with_pair : pyval :=
  dict [("name", pstr "orders");
        ("columns", PList [column "id" "INTEGER"; column "user_id" "INTEGER"]);
        ("primary_key", PList [pstr "id"]);
        ("foreign_keys", PList [user_reference; two_to_one])].

Definition pair_schema : list (str * pyval) :=
  [(txt "tables", PList [users_table; orders_with_pair])].

End OrderExamples.

(* ===================================================================== *)
(** * Clauses and names, as the specification words them *)
(* ===================================================================== *)

Module Clauses.
Import Text Re SqlParser Spec Pipeline.

(** The characters that quote a name: backtick, double quote (code 34) and
    the two square brackets. *)
Definition quote_character (c : ascii) : bool :=
  Ascii.eqb c "`" || Ascii.eqb c "034" || Ascii.eqb c "[" || Ascii.eqb c "]".

Definition not_space (c : ascii) : bool := negb (is_space c).

(** [t] is [s] without the characters of [p] at its two ends. *)
Definition edges_removed (p : ascii -> bool) (s t : str) : Prop :=
  exists l r,
    s = l ++ t ++ r /\ forallb p l = true /\ forallb p r = true /\
    clean_edges p t = true.

(** The text does not go on with a character of [p]. *)
Definition stops (p : ascii -> bool) (s : str) : Prop :=
  match s with
  | [] => True
  | x :: _ => p x = false
  end.

(** A word: characters that are no white space, and at least one. *)
Definition word (w : str) : Prop := w <> [] /\ forallb not_space w = true.

(** A gap: white space, and at least one character of it. *)
Definition gap (s : str) : Prop := s <> [] /\ forallb is_space s = true.

(** ** The name of a foreign key *)

(** The name the parser makes up. *)
Definition synthesized_name (fk : foreign_key_def) : str :=
  txt "fk_" ++ fk_ref_table fk ++ txt "_" ++ join (txt "_") (fk_columns fk).

(** A constraint with a name: the word CONSTRAINT, a name, and FOREIGN KEY
    behind the name. *)
Definition named_constraint_re : regex :=
  rseq [RLit (txt "CONSTRAINT"); RPlus CSpace; RGroup 1 (RPlus (CNot CSpace));
        RPlus CSpace; RLit (txt "FOREIGN"); RPlus CSpace; RLit (txt "KEY")].

(** [tok] is the word behind the first CONSTRAINT (in any case) that has
    white space and a word behind it. *)
Definition first_constraint_word (fk_def tok : str) : Prop :=
  exists pre kw ws post,
    fk_def = pre ++ kw ++ ws ++ tok ++ post /\
    lit_eq true (txt "CONSTRAINT") kw = true /\
    gap ws /\ word tok /\ stops not_space post /\
    none_starts_in constraint_name_re pre (kw ++ ws ++ tok ++ post).

(** ** The primary key *)

(** The items of a list written with commas. *)
Definition comma_separated (text : str) (items : list str) : Prop :=
  text = join [","%char] items /\ items <> [] /\
  Forall (fun item => ","%char ∉ item) items.

(** The name an item stands for: the item without the white space at its
    ends and then without the quote characters at its ends. *)
Definition item_name (item name : str) : Prop :=
  exists t, edges_removed is_space item t /\ edges_removed quote_character t name.

Definition listed_names (text : str) (names : list str) : Prop :=
  exists items, comma_separated text items /\ Forall2 item_name items names.

(** [inner] is the first parenthesised list of the fragment that stands
    behind the phrase PRIMARY KEY: it begins behind the open parenthesis
    and ends in front of the first close parenthesis. *)
Definition key_list (frag inner : str) : Prop :=
  exists pre ph ws post,
    frag = pre ++ ph ++ ws ++ "("%char :: inner ++ ")"%char :: post /\
    lang true primary_key_re ph /\ forallb is_space ws = true /\
    inner <> [] /\ (")"%char ∉ inner) /\
    none_starts_in primary_key_cols_re pre
      (ph ++ ws ++ "("%char :: inner ++ ")"%char :: post).

(** The fragment is a column definition with the phrase PRIMARY KEY behind
    its second word; [w0] is its first word. *)
Definition flagged_column (frag w0 : str) : Prop :=
  exists s0 s1 w1 s2 rest,
    frag = s0 ++ w0 ++ s1 ++ w1 ++ s2 ++ rest /\
    forallb is_space s0 = true /\ word w0 /\ gap s1 /\ word w1 /\ gap s2 /\
    occurs true primary_key_re rest.

(** The fragment begins with none of PRIMARY KEY, FOREIGN KEY, CONSTRAINT. *)
Definition column_fragment (frag : str) : Prop :=
  ~ starts true primary_key_re frag /\ ~ starts true foreign_key_re frag /\
  ~ starts true constraint_re frag.

(** What a fragment adds to the primary key. *)
Inductive adds_to_primary_key (frag : str) : list str -> Prop :=
| adds_key_list inner names :
    starts true primary_key_re frag ->
    key_list frag inner -> listed_names inner names ->
    adds_to_primary_key frag names
| adds_no_list :
    starts true primary_key_re frag ->
    ~ occurs true primary_key_cols_re frag ->
    adds_to_primary_key frag []
| adds_other_clause :
    ~ starts true primary_key_re frag ->
    starts true foreign_key_re frag \/ starts true constraint_re frag ->
    adds_to_primary_key frag []
| adds_flagged_column w0 name :
    column_fragment frag -> flagged_column frag w0 ->
    edges_removed quote_character w0 name ->
    adds_to_primary_key frag [name]
| adds_plain_column :
    column_fragment frag -> (forall w0, ~ flagged_column frag w0) ->
    adds_to_primary_key frag [].

(** The column list of a clause as the specification reads it: the items
    between the commas at depth zero of the text from the clause's open
    parenthesis to the matching close parenthesis, trimmed and without
    their quote characters. *)
Definition stated_key_columns (frag : str) : list str :=
  match matching_body frag with
  | Some body => map (fun item => strip_quotes (strip item)) (top_level_pieces body)
  | None => []
  end.

End Clauses.

Module ClauseExamples.
Import Text SqlParser Examples.

(** The keyword CONSTRAINT without a name behind it. *)
Definition unnamed_constraint : str :=
  txt "CONSTRAINT FOREIGN KEY (a) REFERENCES t(b)".

Definition quoted_constraint : str :=
  txt "CONSTRAINT `fk_1` FOREIGN KEY (a) REFERENCES t(b)".

Definition empty_constraint_name : str :=
  txt "CONSTRAINT `` FOREIGN KEY (a, b) REFERENCES t(x, y)".

Definition two_column_reference : str :=
  txt "FOREIGN KEY (`a`, b) REFERENCES t(x, y)".


(** A key part with a prefix length. *)
Definition prefix_key : list token :=
  create_table "t" " (a VARCHAR(20), b INT, PRIMARY KEY (a(10), b))".

Definition quoted_keys : list token :=
  create_table "t"
    " (`a` INT, b INT, PRIMARY KEY (`a`), PRIMARY KEY ([b] , `a`), [c] INT PRIMARY KEY)".

End ClauseExamples.

(* ===================================================================== *)
(** * Facts about the matcher, the parser, the builder and the validator *)
(* ===================================================================== *)

Module ReFacts.
Import Text Re Spec.

#[local] Arguments cmatch : simpl never.

Section Matcher.
Context {R : Type}.
Implicit Types (k : str -> str -> option R) (p : ascii -> bool).

Lemma star_greedy_sound p s k res :
  star_greedy p s k = Some res ->
  exists m rest, s = m ++ rest /\ forallb p m = true /\ k m rest = Some res.
Proof.
  revert k. induction s as [|c s IH]; intros k H; simpl in H.
  - exists [], []. auto.
  - destruct (p c) eqn:Hc.
    + destruct (star_greedy p s _) eqn:Hs.
      * inversion H; subst. apply IH in Hs as (m & rest & -> & Hm & Hk).
        exists (c :: m), rest. simpl. rewrite Hc, Hm. auto.
      * exists [], (c :: s). auto.
    + exists [], (c :: s). auto.
Qed.

Lemma star_greedy_complete p s k :
  star_greedy p s k = None ->
  forall m rest, s = m ++ rest -> forallb p m = true -> k m rest = None.
Proof.
  revert k. induction s as [|c s IH]; intros k H m rest Hs Hm; simpl in H.
  - symmetry in Hs. apply app_eq_nil in Hs as [-> ->]. exact H.
  - destruct m as [|x m]; simpl in Hs.
    + subst rest. destruct (p c); [destruct (star_greedy p s _)|]; congruence.
    + inversion Hs; subst. simpl in Hm. apply andb_true_iff in Hm as [Hx Hm].
      rewrite Hx in H. destruct (star_greedy p _ _) eqn:E; [congruence|].
      exact (IH _ E m rest eq_refl Hm).
Qed.

Lemma plus_greedy_sound p s k res :
  plus_greedy p s k = Some res ->
  exists m rest, s = m ++ rest /\ m <> [] /\ forallb p m = true /\ k m rest = Some res.
Proof.
  destruct s as [|c s]; simpl; [congruence|].
  destruct (p c) eqn:Hc; [|congruence]. intros H.
  apply star_greedy_sound in H as (m & rest & -> & Hm & Hk).
  exists (c :: m), rest. simpl. rewrite Hc, Hm. auto.
Qed.

Lemma plus_greedy_complete p s k :
  plus_greedy p s k = None ->
  forall m rest, s = m ++ rest -> m <> [] -> forallb p m = true -> k m rest = None.
Proof.
  intros H m rest Hs Hne Hm. destruct m as [|x m]; [congruence|].
  simpl in Hs. subst s. simpl in H, Hm. apply andb_true_iff in Hm as [Hx Hm].
  rewrite Hx in H. exact (star_greedy_complete _ _ _ H m rest eq_refl Hm).
Qed.

End Matcher.

Lemma lit_prefix_Some ic l s m rest :
  lit_prefix ic l s = Some (m, rest) -> s = m ++ rest /\ lit_eq ic l m = true.
Proof.
  revert s m. induction l as [|a l IH]; intros s m H; simpl in H.
  - inversion H; subst. auto.
  - destruct s as [|b s]; [discriminate|].
    destruct (cmatch ic (CChar a) b) eqn:Hc; [|discriminate].
    destruct (lit_prefix ic l s) as [[m' r']|] eqn:E; [|discriminate].
    inversion H; subst. apply IH in E as [-> E]. simpl. rewrite Hc, E. auto.
Qed.

Lemma lit_prefix_app ic l m rest :
  lit_eq ic l m = true -> lit_prefix ic l (m ++ rest) = Some (m, rest).
Proof.
  revert m. induction l as [|a l IH]; intros [|b m] H; simpl in *; try congruence.
  apply andb_true_iff in H as [Hc H]. rewrite Hc, (IH _ H). reflexivity.
Qed.

Section Engine.
Context {R : Type}.
Implicit Types (k : str -> captures -> str -> option R).

Lemma rmatch_sound ic r : forall s caps k res,
  rmatch ic r s caps k = Some res ->
  exists m caps' rest, s = m ++ rest /\ lang ic r m /\ k m caps' rest = Some res.
Proof.
  induction r as [|l|c|c|c|r1 IH1 r2 IH2|n r IH|r IH]; intros s caps k res H; simpl in H.
  - exists [], caps, s. simpl. auto.
  - destruct (lit_prefix ic l s) as [[m rest]|] eqn:E; [|congruence].
    apply lit_prefix_Some in E as [-> E]. exists m, caps, rest. auto.
  - destruct s as [|x s]; [congruence|].
    destruct (cmatch ic c x) eqn:Hc; [|congruence].
    exists [x], caps, s. simpl. eauto.
  - apply star_greedy_sound in H as (m & rest & -> & Hm & Hk).
    exists m, caps, rest. auto.
  - apply plus_greedy_sound in H as (m & rest & -> & Hne & Hm & Hk).
    exists m, caps, rest. simpl. auto.
  - apply IH1 in H as (m1 & c1 & rest1 & -> & L1 & H).
    apply IH2 in H as (m2 & c2 & rest2 & -> & L2 & H).
    exists (m1 ++ m2), c2, rest2. rewrite <- app_assoc. simpl. eauto 10.
  - apply IH in H as (m & c' & rest & -> & L & H).
    exists m, ((n, m) :: c'), rest. auto.
  - destruct (rmatch ic r s caps k) eqn:E.
    + inversion H; subst. apply IH in E as (m & c' & rest & -> & L & Hk).
      exists m, c', rest. simpl. auto.
    + exists [], caps, s. simpl. auto.
Qed.

Lemma rmatch_complete ic r : forall s caps k,
  rmatch ic r s caps k = None ->
  forall m rest, s = m ++ rest -> lang ic r m -> exists caps', k m caps' rest = None.
Proof.
  induction r as [|l|c|c|c|r1 IH1 r2 IH2|n r IH|r IH];
    intros s caps k H m rest Hs L; simpl in H, L.
  - subst. simpl. eauto.
  - subst s. rewrite (lit_prefix_app _ _ _ _ L) in H. eauto.
  - destruct L as (x & -> & Hc). subst s. simpl in H. rewrite Hc in H. eauto.
  - exists caps. exact (star_greedy_complete _ _ _ H m rest Hs L).
  - destruct L as [Hne L]. exists caps.
    exact (plus_greedy_complete _ _ _ H m rest Hs Hne L).
  - destruct L as (m1 & m2 & -> & L1 & L2). rewrite <- app_assoc in Hs.
    destruct (IH1 _ _ _ H m1 (m2 ++ rest) Hs L1) as [c1 H1].
    destruct (IH2 _ _ _ H1 m2 rest eq_refl L2) as [c2 H2]. eauto.
  - destruct (IH _ _ _ H m rest Hs L) as [c' H']. eauto.
  - destruct (rmatch ic r s caps k) eqn:E; [congruence|].
    destruct L as [-> | L].
    + simpl in Hs. subst. eauto.
    + exact (IH _ _ _ E m rest Hs L).
Qed.

End Engine.

Lemma re_match_Some ic r s mo :
  re_match ic r s = Some mo ->
  m_pre mo = [] /\ s = m_text mo ++ m_post mo /\ lang ic r (m_text mo).
Proof.
  unfold re_match. intros H.
  apply rmatch_sound in H as (m & c & rest & -> & L & H).
  inversion H; subst. simpl. auto.
Qed.

Lemma re_match_None ic r s : re_match ic r s = None <-> ~ starts ic r s.
Proof.
  split.
  - intros H (m & rest & Hs & L).
    destruct (rmatch_complete _ _ _ _ _ H m rest Hs L) as [c Hc]. discriminate.
  - intros H. destruct (re_match ic r s) eqn:E; [|reflexivity].
    exfalso. apply H. apply re_match_Some in E as (_ & E & L).
    exists (m_text r0), (m_post r0). auto.
Qed.

Lemma re_search_Some ic r s mo :
  re_search ic r s = Some mo ->
  s = m_pre mo ++ m_text mo ++ m_post mo /\ lang ic r (m_text mo) /\
  (forall a b, m_pre mo = a ++ b -> b <> [] ->
     ~ starts ic r (b ++ m_text mo ++ m_post mo)).
Proof.
  revert mo. induction s as [|c s IH]; intros mo H; simpl in H.
  - destruct (re_match ic r []) eqn:E; [|discriminate].
    inversion H; subst. apply re_match_Some in E as (Hp & Hs & L).
    rewrite Hp. simpl. split; [auto|split; [auto|]].
    intros a b Hab Hb. symmetry in Hab. apply app_eq_nil in Hab as [_ ->]. congruence.
  - destruct (re_match ic r (c :: s)) eqn:E.
    + inversion H; subst. apply re_match_Some in E as (Hp & Hs & L).
      rewrite Hp. simpl. split; [auto|split; [auto|]].
      intros a b Hab Hb. symmetry in Hab. apply app_eq_nil in Hab as [_ ->]. congruence.
    + destruct (re_search ic r s) as [mo'|] eqn:E'; [|discriminate].
      simpl in H. inversion H; subst. clear H.
      destruct (IH _ eq_refl) as (Hs & L & Hleft). simpl.
      split; [congruence|split; [auto|]].
      intros a b Hab Hb. destruct a as [|x a]; simpl in Hab.
      * subst b. simpl. rewrite <- Hs. apply re_match_None. exact E.
      * inversion Hab; subst. eapply Hleft; eauto.
Qed.

Lemma re_search_None ic r s : re_search ic r s = None <-> ~ occurs ic r s.
Proof.
  split.
  - induction s as [|c s IH]; simpl; intros H (pre & m & post & Hs & L).
    + destruct (re_match ic r []) eqn:E; [discriminate|].
      apply re_match_None in E. apply E.
      symmetry in Hs. apply app_eq_nil in Hs as [-> Hs].
      exists m, post. auto.
    + destruct (re_match ic r (c :: s)) eqn:E; [discriminate|].
      destruct (re_search ic r s) eqn:E'; [discriminate|].
      destruct pre as [|x pre]; simpl in Hs.
      * apply re_match_None in E. apply E. exists m, post. auto.
      * inversion Hs; subst. apply IH; [reflexivity|]. exists pre, m, post. auto.
  - intros H. destruct (re_search ic r s) eqn:E; [|reflexivity].
    exfalso. apply H. apply re_search_Some in E as (Hs & L & _).
    exists (m_pre r0), (m_text r0), (m_post r0). auto.
Qed.

Lemma re_search_is_Some ic r s : is_Some (re_search ic r s) <-> occurs ic r s.
Proof.
  rewrite <- not_eq_None_Some. rewrite re_search_None.
  split; [|tauto]. intros H. destruct (re_search ic r s) eqn:E.
  - apply re_search_Some in E as (Hs & L & _). eexists _, _, _. eauto.
  - apply re_search_None in E. tauto.
Qed.

End ReFacts.

Module SplitFacts.
Import Text Re SqlParser Spec.

Lemma split_where_cons {A} (p : A -> bool) l : exists x xs, split_where p l = x :: xs.
Proof.
  destruct l as [|a l]; simpl; [eauto|].
  destruct (p a); [eauto|]. destruct (split_where p l); eauto.
Qed.

Lemma pieces_from_cons d s : exists x xs, pieces_from d s = x :: xs.
Proof.
  unfold pieces_from. destruct (split_where_cons top_level_comma (annotate d s)) as (x & xs & ->).
  simpl. eauto.
Qed.

Lemma pieces_from_step d c s :
  pieces_from d (c :: s) =
  if Ascii.eqb c "," && (d =? 0)%Z then [] :: pieces_from (d + delta c) s
  else match pieces_from (d + delta c) s with
       | x :: xs => (c :: x) :: xs
       | [] => [[c]]
       end.
Proof.
  unfold pieces_from. simpl. unfold top_level_comma at 1. simpl.
  destruct (Ascii.eqb c "," && (d =? 0)%Z); [reflexivity|].
  destruct (split_where top_level_comma _); reflexivity.
Qed.

Lemma drop_empty_last_cons x y l :
  drop_empty_last (x :: y :: l) = x :: drop_empty_last (y :: l).
Proof. reflexivity. Qed.

Lemma split_loop_pieces text : forall parts current d p ps,
  pieces_from d text = p :: ps ->
  split_loop text parts current d = parts ++ drop_empty_last ((current ++ p) :: ps).
Proof.
  induction text as [|c text IH]; intros parts current d p ps Hp.
  - unfold pieces_from in Hp. simpl in Hp. inversion Hp; subst.
    simpl. rewrite app_nil_r. destruct current; simpl; [by rewrite app_nil_r|done].
  - rewrite pieces_from_step in Hp.
    destruct (pieces_from_cons (d + delta c) text) as (x & xs & Hx).
    cbn [split_loop]. unfold delta in *.
    destruct (Ascii.eqb c "(") eqn:Eo.
    + apply Ascii.eqb_eq in Eo. subst c. simpl in Hp. rewrite Hx in Hp.
      inversion Hp; subst. rewrite (IH _ _ _ _ _ Hx). by rewrite <- app_assoc.
    + destruct (Ascii.eqb c ")") eqn:Ec.
      * apply Ascii.eqb_eq in Ec. subst c. simpl in Hp. rewrite Hx in Hp.
        inversion Hp; subst.
        replace (d - 1)%Z with (d + -1)%Z by lia.
        rewrite (IH _ _ _ _ _ Hx). by rewrite <- app_assoc.
      * replace (d + 0)%Z with d in * by lia.
        destruct (Ascii.eqb c "," && (d =? 0)%Z).
        -- rewrite Hx in Hp. inversion Hp; subst. rewrite (IH _ _ _ _ _ Hx).
           rewrite app_nil_r. cbn [app]. rewrite drop_empty_last_cons.
           by rewrite <- app_assoc.
        -- rewrite Hx in Hp. inversion Hp; subst. rewrite (IH _ _ _ _ _ Hx).
           by rewrite <- app_assoc.
Qed.

Lemma split_by_comma_pieces s :
  split_by_comma s = drop_empty_last (top_level_pieces s).
Proof.
  unfold split_by_comma, top_level_pieces.
  destruct (pieces_from_cons 0 s) as (x & xs & Hx).
  rewrite (split_loop_pieces s [] [] 0 x xs Hx). unfold pieces_from in Hx.
  rewrite Hx. reflexivity.
Qed.

(** Joining the pieces with the elements they were cut at gives the list back. *)
Lemma join_pieces s : forall d, join [","%char] (pieces_from d s) = s.
Proof.
  induction s as [|c s IH]; intros d; [reflexivity|].
  rewrite pieces_from_step. specialize (IH (d + delta c)%Z).
  destruct (pieces_from_cons (d + delta c) s) as (x & xs & Hx). rewrite Hx in *.
  destruct (Ascii.eqb c "," && (d =? 0)%Z) eqn:E.
  - apply andb_true_iff in E as [E _]. apply Ascii.eqb_eq in E. subst c.
    change (join [","%char] ([] :: x :: xs)) with ([] ++ [","%char] ++ join [","%char] (x :: xs)).
    rewrite IH. reflexivity.
  - destruct xs as [|y xs]; simpl in *; [by rewrite IH|].
    by rewrite <- IH.
Qed.

End SplitFacts.

Module BodyFacts.
Import Text Re SqlParser Spec ReFacts.

Lemma star_any_split_last {R} (p : ascii -> bool) (g : str -> str -> R) s :
  (forall c, p c = true) ->
  forall k : str -> str -> option R,
  (forall m, k m [] = None) ->
  (forall m x r, k m (x :: r) = if Ascii.eqb x ")" then Some (g m r) else None) ->
  star_greedy p s k =
  match split_last ")" s with
  | Some (a, b) => Some (g a b)
  | None => None
  end.
Proof.
  intros Hp. revert g. induction s as [|c s IH]; intros g k Hnil Hcons; simpl.
  - apply Hnil.
  - rewrite Hp.
    rewrite (IH (fun m r => g (c :: m) r) (fun m rest => k (c :: m) rest));
      [|intros; apply Hnil|intros; apply Hcons].
    destruct (split_last ")" s) as [[a b]|]; [reflexivity|].
    rewrite Hcons. destruct (Ascii.eqb c ")"); reflexivity.
Qed.

Lemma re_match_paren s :
  re_match false paren_re s =
  match s with
  | c :: s' =>
      if Ascii.eqb c "(" then
        match split_last ")" s' with
        | Some (a, b) => Some (MatchObj [] ([c] ++ a ++ [")"%char]) [(1, a)] b)
        | None => None
        end
      else None
  | [] => None
  end.
Proof.
  destruct s as [|c s]; [reflexivity|].
  unfold re_match, paren_re. simpl.
  destruct (Ascii.eqb c "("); [|reflexivity].
  rewrite (star_any_split_last _ (fun a b => MatchObj [] ([c] ++ a ++ [")"%char]) [(1, a)] b)).
  - reflexivity.
  - reflexivity.
  - reflexivity.
  - intros m x r. destruct (Ascii.eqb x ")") eqn:E; [|reflexivity].
    apply Ascii.eqb_eq in E. subst x. reflexivity.
Qed.

Lemma split_last_None_tail c x s : split_last c (x :: s) = None -> split_last c s = None.
Proof. simpl. destruct (split_last c s) as [[a b]|]; [discriminate|reflexivity]. Qed.

Lemma search_paren_None s : split_last ")" s = None -> re_search false paren_re s = None.
Proof.
  induction s as [|c s IH]; intros H.
  - reflexivity.
  - pose proof (split_last_None_tail _ _ _ H) as Ht.
    cbn [re_search]. rewrite re_match_paren, Ht, (IH Ht).
    destruct (Ascii.eqb c "("); reflexivity.
Qed.

Lemma definitions_greedy text : definitions text = greedy_body text.
Proof.
  unfold definitions, greedy_body. induction text as [|c text IH].
  - reflexivity.
  - cbn [re_search after_first]. rewrite re_match_paren.
    destruct (Ascii.eqb c "(") eqn:E.
    + destruct (split_last ")" text) as [[a b]|] eqn:Es.
      * simpl. rewrite Es. reflexivity.
      * rewrite (search_paren_None _ Es). simpl. rewrite Es. reflexivity.
    + destruct (re_search false paren_re text) as [mo|]; simpl in *; exact IH.
Qed.

Lemma close_at_app s : forall d b rest,
  close_at d s = Some (b, rest) -> s = b ++ ")"%char :: rest.
Proof.
  induction s as [|x s IH]; intros d b rest H; simpl in H; [discriminate|].
  destruct (Ascii.eqb x ")") eqn:E.
  - apply Ascii.eqb_eq in E. subst x. destruct d as [|d].
    + inversion H; subst. reflexivity.
    + destruct (close_at d s) as [[a b']|] eqn:Ec; [|discriminate].
      simpl in H. inversion H; subst. by rewrite (IH _ _ _ Ec).
  - destruct (close_at _ s) as [[a b']|] eqn:Ec; [|discriminate].
    simpl in H. inversion H; subst. by rewrite (IH _ _ _ Ec).
Qed.

Lemma split_last_not_in c s : c ∉ s -> split_last c s = None.
Proof.
  induction s as [|x s IH]; intros H; [reflexivity|].
  apply not_elem_of_cons in H as [Hx H].
  simpl. rewrite (IH H).
  destruct (Ascii.eqb x c) eqn:E; [|reflexivity].
  apply Ascii.eqb_eq in E. congruence.
Qed.

Lemma split_last_app c b rest :
  c ∉ rest -> split_last c (b ++ c :: rest) = Some (b, rest).
Proof.
  intros H. induction b as [|x b IH]; simpl.
  - rewrite (split_last_not_in _ _ H). by rewrite Ascii.eqb_refl.
  - by rewrite IH.
Qed.

Lemma split_last_in c s : c ∈ s -> is_Some (split_last c s).
Proof.
  induction s as [|x s IH]; intros H; [by apply elem_of_nil in H|].
  simpl. destruct (split_last c s) as [[a b]|] eqn:E; [eauto|].
  destruct (Ascii.eqb x c) eqn:Ex; [eauto|].
  apply Ascii.eqb_neq in Ex. apply elem_of_cons in H as [H|H]; [congruence|].
  apply IH in H. destruct H. discriminate.
Qed.

Lemma definitions_is_Some text :
  is_Some (definitions text) <-> has_parentheses text = true.
Proof.
  rewrite definitions_greedy. unfold greedy_body, has_parentheses.
  destruct (after_first "(" text) as [s|]; simpl.
  - rewrite bool_decide_eq_true. split.
    + intros [b Hb]. destruct (decide (")"%char ∈ s)) as [|Hn]; [done|].
      rewrite (split_last_not_in _ _ Hn) in Hb. discriminate.
    + intros Hin. destruct (split_last_in _ _ Hin) as [[a b] ->]. simpl. eauto.
  - split; [intros [? ?]; discriminate|discriminate].
Qed.

Lemma definitions_matching text body rest :
  matching_span text = Some (body, rest) -> ")"%char ∉ rest ->
  definitions text = Some body.
Proof.
  rewrite definitions_greedy. unfold matching_span, greedy_body.
  destruct (after_first "(" text) as [s|]; simpl; [|discriminate].
  intros Hc Hn. apply close_at_app in Hc. subst s.
  by rewrite (split_last_app _ _ _ Hn).
Qed.

End BodyFacts.

Module ParserFacts.
Import Text Re SqlParser Spec ReFacts.

(** *** The loop over the fragments *)

Lemma add_foreign_key_primary_key st part :
  primary_key (add_foreign_key st part) = primary_key st.
Proof. unfold add_foreign_key. destruct (parse_foreign_key part); reflexivity. Qed.

Lemma process_part_primary_key st part :
  primary_key (process_part st part) =
  primary_key st ++ primary_key_of_fragment (strip part).
Proof.
  unfold process_part, primary_key_of_fragment, starts_with.
  destruct (bool_decide (is_Some (re_match true primary_key_re (strip part)))).
  - destruct (re_search true primary_key_cols_re (strip part));
      simpl; [reflexivity|by rewrite app_nil_r].
  - destruct (bool_decide (is_Some (re_match true foreign_key_re (strip part)))).
    + simpl. by rewrite add_foreign_key_primary_key, app_nil_r.
    + destruct (bool_decide (is_Some (re_match true constraint_re (strip part)))).
      * simpl. by rewrite add_foreign_key_primary_key, app_nil_r.
      * simpl. destruct (parse_column_definition (strip part)) as [c|]; simpl.
        -- destruct (col_is_primary_key c); [reflexivity|by rewrite app_nil_r].
        -- by rewrite app_nil_r.
Qed.

Lemma fold_process_primary_key parts : forall st,
  primary_key (fold_left process_part parts st) =
  primary_key st ++ concat (map primary_key_of_fragment (map strip parts)).
Proof.
  induction parts as [|p parts IH]; intros st; simpl.
  - by rewrite app_nil_r.
  - rewrite IH, process_part_primary_key. by rewrite <- app_assoc.
Qed.

Lemma collect_primary_key text :
  primary_key (collect text) = concat (map primary_key_of_fragment (fragments text)).
Proof.
  unfold collect, fragments. destruct (definitions text); [|reflexivity].
  by rewrite fold_process_primary_key.
Qed.

Lemma process_part_skip st part :
  foreign_key_fragment (strip part) = true ->
  parse_foreign_key (strip part) = None ->
  process_part st part = st.
Proof.
  unfold foreign_key_fragment, starts_with, process_part, add_foreign_key.
  intros Hf Hp. rewrite Hp.
  destruct (bool_decide (is_Some (re_match true primary_key_re (strip part))));
    [discriminate|].
  simpl in Hf.
  destruct (bool_decide (is_Some (re_match true foreign_key_re (strip part))));
    [reflexivity|].
  destruct (bool_decide (is_Some (re_match true constraint_re (strip part))));
    [reflexivity|discriminate].
Qed.

Lemma parse_foreign_key_None fk_def :
  parse_foreign_key fk_def = None <->
  ~ occurs true foreign_key_cols_re fk_def \/ ~ occurs true references_re fk_def.
Proof.
  unfold parse_foreign_key. rewrite <- !re_search_None.
  destruct (re_search true foreign_key_cols_re fk_def);
    destruct (re_search true references_re fk_def); split; intros H;
    try tauto; try discriminate; destruct H; discriminate.
Qed.

End ParserFacts.

Module TextFacts.
Import Text.

Lemma drop_while_head p s c t : drop_while p s = c :: t -> p c = false.
Proof.
  induction s as [|x s IH]; simpl; [discriminate|].
  destruct (p x) eqn:E; [exact IH|]. intros H. inversion H; subst. exact E.
Qed.

Lemma drop_while_suffix p s : exists a, s = a ++ drop_while p s.
Proof.
  induction s as [|x s [a IH]]; simpl; [by exists []|].
  destruct (p x); [|by exists []]. exists (x :: a). simpl. by rewrite <- IH.
Qed.

Lemma drop_while_app_stop p pre x rest :
  p x = false -> drop_while p (pre ++ x :: rest) = drop_while p pre ++ x :: rest.
Proof.
  intros Hx. induction pre as [|c pre IH]; simpl.
  - by rewrite Hx.
  - destruct (p c); [exact IH|reflexivity].
Qed.

Lemma strip_by_sub p s : exists a b, s = a ++ strip_by p s ++ b.
Proof.
  unfold strip_by, rstrip_by, lstrip_by.
  destruct (drop_while_suffix p s) as [a Ha].
  destruct (drop_while_suffix p (rev (drop_while p s))) as [b Hb].
  exists a, (rev b). rewrite <- rev_app_distr, <- Hb, rev_involutive. exact Ha.
Qed.

(** A piece that begins and ends with characters that are not stripped is
    kept whole. *)
Lemma strip_by_keeps p pre x mid y post :
  p x = false -> p y = false ->
  exists pre' post',
    strip_by p (pre ++ (x :: mid ++ [y]) ++ post) = pre' ++ (x :: mid ++ [y]) ++ post'.
Proof.
  intros Hx Hy. unfold strip_by, rstrip_by, lstrip_by.
  exists (drop_while p pre), (rev (drop_while p (rev post))).
  cbn [app]. rewrite (drop_while_app_stop p pre x _ Hx).
  rewrite !rev_app_distr. cbn [rev]. rewrite !rev_app_distr. cbn [rev app].
  rewrite <- !app_assoc. cbn [app].
  rewrite (drop_while_app_stop p (rev post) y _ Hy).
  rewrite !rev_app_distr. cbn [rev]. rewrite !rev_app_distr, ?rev_involutive.
  cbn [rev app]. rewrite <- !app_assoc, ?rev_involutive. reflexivity.
Qed.



Lemma space_lower x : is_space x = true -> lower_char x = x.
Proof.
  destruct x as [[] [] [] [] [] [] [] []]; vm_compute; congruence.
Qed.

End TextFacts.

Module PhraseFacts.
Import Text Re SqlParser Spec ReFacts TextFacts.

#[local] Arguments cmatch : simpl never.

Lemma cmatch_not_space a x :
  cmatch true (CChar a) x = true -> is_space (lower_char a) = false ->
  is_space x = false.
Proof.
  unfold cmatch. intros H Ha. apply Ascii.eqb_eq in H.
  destruct (is_space x) eqn:E; [|reflexivity].
  rewrite (space_lower _ E) in H. congruence.
Qed.

(** The phrase begins with a letter and ends with a letter. *)
Lemma primary_key_phrase_edges m :
  lang true primary_key_re m ->
  exists x mid y, m = x :: mid ++ [y] /\ is_space x = false /\ is_space y = false.
Proof.
  intros (m1 & m2 & -> & L1 & m3 & m4 & -> & [_ _] & L4). simpl in L1, L4.
  destruct m1 as [|x m1]; [discriminate|].
  apply andb_true_iff in L1 as [Hx _].
  destruct m4 as [|k [|e [|y [|? ?]]]]; simpl in L4;
    rewrite ?andb_false_r, ?andb_true_r in L4; try discriminate.
  apply andb_true_iff in L4 as [_ L4]. apply andb_true_iff in L4 as [_ Hy].
  exists x, (m1 ++ m3 ++ [k; e]), y.
  split; [|split].
  - cbn [app]. f_equal. rewrite <- !app_assoc. reflexivity.
  - eapply cmatch_not_space; [exact Hx|reflexivity].
  - eapply cmatch_not_space; [exact Hy|reflexivity].
Qed.

Lemma primary_key_phrase_nonempty m : lang true primary_key_re m -> m <> [].
Proof. intros H. apply primary_key_phrase_edges in H as (x & mid & y & -> & _). done. Qed.

Lemma occurs_strip s :
  occurs true primary_key_re (strip s) <-> occurs true primary_key_re s.
Proof.
  split.
  - intros (pre & m & post & Hs & L).
    destruct (strip_by_sub is_space s) as (a & b & Hab).
    exists (a ++ pre), m, (post ++ b). split; [|exact L].
    etrans; [exact Hab|]. unfold strip in Hs. rewrite Hs. by rewrite <- !app_assoc.
  - intros (pre & m & post & -> & L).
    destruct (primary_key_phrase_edges _ L) as (x & mid & y & -> & Hx & Hy).
    destruct (strip_by_keeps is_space pre x mid y post Hx Hy) as (pre' & post' & H).
    exists pre', (x :: mid ++ [y]), post'. split; [exact H|exact L].
Qed.




End PhraseFacts.

Module ValidatorFacts.
Import Text Py Validators Spec.

Lemma bind_Ok {A B} (m : result A) (f : A -> result B) b :
  (a ← m; f a) = Ok b -> exists a, m = Ok a /\ f a = Ok b.
Proof. destruct m; simpl; [eauto|discriminate]. Qed.

Lemma validate_column_Ok column tn i :
  validate_column column tn i = Ok () ->
  exists n, item column "name" = Ok (PStr n).
Proof.
  unfold validate_column, item. destruct column as [| | | | |d]; try discriminate.
  destruct (dict_get (txt "name") d) as [name|] eqn:En; [|discriminate].
  destruct (dict_get (txt "type") d); [|discriminate].
  destruct name as [| | |[|c n]| |]; simpl; try discriminate. eauto.
Qed.

Lemma validate_columns_Ok columns tn : forall i seen names,
  validate_columns columns tn i seen = Ok names ->
  exists cs, column_name_set columns = Ok cs.
Proof.
  induction columns as [|c columns IH]; intros i seen names H; simpl in *; [eauto|].
  apply bind_Ok in H as ([] & Hc & H).
  apply validate_column_Ok in Hc as [n Hn]. rewrite Hn in *. simpl in *.
  destruct (bool_decide (n ∈ seen)); [discriminate|].
  apply IH in H as [cs ->]. simpl. eauto.
Qed.

(** A table that passes [_validate_table] has a string as its name and a
    list of named columns: the first loop cannot fail behind it. *)
Lemma validate_table_Ok table i :
  validate_table table i = Ok () ->
  exists n cols cs,
    item table "name" = Ok (PStr n) /\
    item table "columns" = Ok (PList cols) /\
    column_name_set cols = Ok cs.
Proof.
  unfold validate_table, item. destruct table as [| | | | |d]; try discriminate.
  destruct (dict_get (txt "name") d) as [name|]; [|discriminate].
  destruct (dict_get (txt "columns") d) as [columns|]; [|discriminate].
  destruct (dict_get (txt "primary_key") d) as [pk|]; [|discriminate].
  destruct name as [| | |[|c n]| |]; simpl; try discriminate.
  destruct columns as [| | | |[|col cols]|]; try discriminate.
  intros H. apply bind_Ok in H as (names & Hc & _).
  apply validate_columns_Ok in Hc as [cs Hcs]. eauto 10.
Qed.

Lemma first_pass_step table tables i names cols :
  validate_table table i = Ok () ->
  exists n cs,
    item table "name" = Ok (PStr n) /\
    first_pass (table :: tables) i names cols =
    first_pass tables (S i) ({[n]} ∪ names) (<[n := cs]> cols).
Proof.
  intros H. destruct (validate_table_Ok _ _ H) as (n & cl & cs & Hn & Hc & Hs).
  exists n, cs. split; [exact Hn|].
  cbn [first_pass]. rewrite H, Hn, Hc. simpl. rewrite Hs. reflexivity.
Qed.

(** The names the first loop records are those of all the tables. *)
Lemma first_pass_names tables : forall i names cols names' cols',
  first_pass tables i names cols = Ok (names', cols') ->
  forall n, n ∈ names' <->
    n ∈ names \/ exists t, t ∈ tables /\ item t "name" = Ok (PStr n).
Proof.
  induction tables as [|t tables IH]; intros i names cols names' cols' H n.
  - simpl in H. inversion H; subst. split; [auto|].
    intros [?|(t & Ht & _)]; [done|]. by apply elem_of_nil in Ht.
  - assert (Ht : validate_table t i = Ok ()).
    { simpl in H. destruct (validate_table t i) as [[]|]; [done|discriminate]. }
    destruct (first_pass_step t tables i names cols Ht) as (m & cs & Hm & E).
    rewrite E in H. rewrite (IH _ _ _ _ _ H n). split.
    + intros [Hn|(t' & Ht' & Hn)].
      * apply elem_of_union in Hn as [Hn|Hn]; [|auto].
        apply elem_of_singleton in Hn. subst. right. exists t. split; [left|done].
      * right. exists t'. split; [by right|done].
    + intros [Hn|(t' & Ht' & Hn)].
      * left. apply elem_of_union. by right.
      * apply elem_of_cons in Ht' as [->|Ht'].
        -- left. rewrite Hm in Hn. inversion Hn. apply elem_of_union. left.
           by apply elem_of_singleton.
        -- right. eauto.
Qed.

Lemma validate_schema_Ok_true schema b : validate_schema schema = Ok b -> b = true.
Proof.
  unfold validate_schema. destruct schema as [| | | | |d]; try discriminate.
  destruct (dict_get (txt "tables") d) as [[| | | |tables|]|]; try discriminate.
  destruct (first_pass tables 0 ∅ ∅) as [[names cols]|]; [|discriminate].
  simpl. destruct (second_pass tables names cols); simpl; congruence.
Qed.

Lemma second_pass_Ok tables names cols :
  second_pass tables names cols = Ok () ->
  forall t, t ∈ tables -> validate_foreign_keys t names cols = Ok ().
Proof.
  induction tables as [|x tables IH]; intros H t Ht; [by apply elem_of_nil in Ht|].
  simpl in H. destruct (validate_foreign_keys x names cols) as [[]|] eqn:E; [|discriminate].
  apply elem_of_cons in Ht as [->|Ht]; [exact E|]. by apply IH.
Qed.

Lemma validate_fk_list_Ok fks table : forall i names cols,
  validate_fk_list fks table i names cols = Ok () ->
  forall fk, fk ∈ fks -> exists j, validate_foreign_key fk table j names cols = Ok ().
Proof.
  induction fks as [|x fks IH]; intros i names cols H fk Hfk; [by apply elem_of_nil in Hfk|].
  simpl in H. destruct (validate_foreign_key x table i names cols) as [[]|] eqn:E; [|discriminate].
  apply elem_of_cons in Hfk as [->|Hfk]; [eauto|]. by eapply IH.
Qed.

(** A foreign key that passes has as many columns as referenced columns. *)
Lemma validate_foreign_key_Ok_arity fk table i names cols :
  validate_foreign_key fk table i names cols = Ok () ->
  arity_mismatch fk = false.
Proof.
  unfold validate_foreign_key, arity_mismatch. intros H.
  apply bind_Ok in H as (tn & _ & H).
  destruct fk as [| | | | |d]; try discriminate.
  destruct (find _ required_fields); [discriminate|].
  unfold item in H.
  destruct (dict_get (txt "name") d) as [name|]; [|discriminate].
  destruct (dict_get (txt "columns") d) as [columns|]; [|discriminate].
  destruct (dict_get (txt "ref_table") d) as [ref_table|]; [|discriminate].
  destruct (dict_get (txt "ref_columns") d) as [ref_columns|]; [|discriminate].
  simpl in H.
  destruct (nonempty_str name); [|discriminate]. simpl in H.
  destruct (nonempty_list columns) eqn:Ec; [|discriminate]. simpl in H.
  apply bind_Ok in H as (own & _ & H). apply bind_Ok in H as ([] & _ & H).
  destruct (nonempty_str ref_table); [|discriminate]. simpl in H.
  apply bind_Ok in H as (known & _ & H).
  destruct known; [|discriminate]. simpl in H.
  destruct (nonempty_list ref_columns) eqn:Er; [|discriminate]. simpl in H.
  apply bind_Ok in H as (theirs & _ & H). apply bind_Ok in H as ([] & _ & H).
  destruct columns as [| | | |cs|]; try discriminate.
  destruct ref_columns as [| | | |rs|]; try discriminate.
  simpl in H. destruct (Nat.eqb (length cs) (length rs)); [reflexivity|discriminate].
Qed.

End ValidatorFacts.

Module BuilderFacts.
Import Text Py AstBuilder Validators Spec.

Lemma bind_no_key_error {A B} (m : result A) (f : A -> result B) :
  no_key_error m -> (forall a, m = Ok a -> no_key_error (f a)) ->
  no_key_error (a ← m; f a).
Proof.
  intros Hm Hf k. destruct m as [a|e]; simpl.
  - by apply Hf.
  - intros E. apply (Hm k). congruence.
Qed.

Lemma bind_assoc {A B C} (m : result A) (f : A -> result B) (g : B -> result C) :
  (m ≫= f) ≫= g = m ≫= (fun a => f a ≫= g).
Proof. destruct m; reflexivity. Qed.

Lemma Ok_no_key_error {A} (r : result A) : (exists a, r = Ok a) -> no_key_error r.
Proof. intros [a ->] k. discriminate. Qed.

Lemma mapM_no_key_error {A B} (f : A -> result B) l :
  (forall x, x ∈ l -> no_key_error (f x)) -> no_key_error (mapM f l).
Proof.
  induction l as [|a l IH]; intros H; simpl; [intros k; discriminate|].
  apply bind_no_key_error; [apply H; left|]. intros b _.
  apply bind_no_key_error; [apply IH; intros x Hx; apply H; by right|].
  intros bs _ k. discriminate.
Qed.

Lemma mapM_Ok {A B} (f : A -> result B) l :
  (forall x, x ∈ l -> exists b, f x = Ok b) -> exists bs, mapM f l = Ok bs.
Proof.
  induction l as [|a l IH]; intros H; simpl; [eauto|].
  destruct (H a) as [b ->]; [left|]. simpl.
  destruct IH as [bs ->]; [intros x Hx; apply H; by right|]. simpl. eauto.
Qed.

Lemma has_key_item key v :
  has_key key v = true -> exists x, item v key = Ok x /\ is_dict v = true.
Proof.
  destruct v as [| | | | |d]; try discriminate. simpl.
  intros H. apply bool_decide_eq_true in H as [x ->]. eauto.
Qed.

Lemma build_column_Ok c :
  has_key "name" c && has_key "type" c = true -> exists col, build_column c = Ok col.
Proof.
  intros H. apply andb_true_iff in H as [Hn Ht].
  apply has_key_item in Hn as (n & Hn & Hd). apply has_key_item in Ht as (t & Ht & _).
  unfold build_column. rewrite Hn, Ht. simpl.
  destruct c; try discriminate. simpl. eauto.
Qed.

Lemma build_foreign_key_Ok f :
  has_key "name" f && has_key "columns" f && has_key "ref_table" f &&
  has_key "ref_columns" f = true ->
  exists fk, build_foreign_key f = Ok fk.
Proof.
  intros H. repeat (apply andb_true_iff in H as [H ?]).
  apply has_key_item in H as (n & Hn & _).
  repeat match goal with
         | X : has_key _ _ = true |- _ => apply has_key_item in X as (? & ? & _)
         end.
  unfold build_foreign_key.
  repeat match goal with X : item _ _ = Ok _ |- _ => rewrite X; clear X end.
  simpl. eauto.
Qed.

(** Going through the entries of [v] with a builder that needs a
    dictionary: only an entry of a list can lack a key. *)
Lemma entries_no_key_error {B} (f : pyval -> result B) (ok : pyval -> bool) v :
  (forall x, ok x = true -> no_key_error (f x)) ->
  (forall s, no_key_error (f (PStr s))) ->
  forallb ok (list_items v) = true ->
  no_key_error (l ← iter v; mapM f l).
Proof.
  intros Hok Hstr Hall.
  destruct v as [| | |s|l|d]; simpl; try (intros k; discriminate).
  - apply mapM_no_key_error. intros x Hx.
    apply list_elem_of_fmap in Hx as (c & -> & _). apply Hstr.
  - simpl in Hall. rewrite forallb_forall in Hall.
    apply mapM_no_key_error. intros x Hx. apply Hok, Hall. by apply list_elem_of_In.
  - apply mapM_no_key_error. intros x Hx.
    apply list_elem_of_fmap in Hx as (c & -> & _). apply Hstr.
Qed.

Lemma entries_Ok {B} (f : pyval -> result B) (ok : pyval -> bool) v :
  (forall x, ok x = true -> exists b, f x = Ok b) ->
  is_dict_list v = true ->
  forallb ok (list_items v) = true ->
  exists bs, (l ← iter v; mapM f l) = Ok bs.
Proof.
  intros Hok Hs Hall. destruct v as [| | | |l|]; try discriminate. simpl in *.
  rewrite forallb_forall in Hall. apply mapM_Ok.
  intros x Hx. apply Hok, Hall. by apply list_elem_of_In.
Qed.

Lemma build_table_unfold d :
  build_table (PDict d) =
  (columns ← (l ← iter (field "columns" (PDict d)); mapM build_column l);
   foreign_keys ← (l ← iter (field "foreign_keys" (PDict d)); mapM build_foreign_key l);
   name ← item (PDict d) "name";
   Ok (MkTable name columns (field "primary_key" (PDict d)) foreign_keys)).
Proof.
  unfold build_table, build, get, field, mbind, result_bind, from_option, id.
  cbv beta iota.
  repeat match goal with
         | |- context [match ?x with Ok _ => _ | Raise _ => _ end] =>
             destruct x; try reflexivity
         end.
Qed.

Lemma build_column_str s : no_key_error (build_column (PStr s)).
Proof. intros k. discriminate. Qed.

Lemma build_foreign_key_str s : no_key_error (build_foreign_key (PStr s)).
Proof. intros k. discriminate. Qed.

Lemma build_table_str s : no_key_error (build_table (PStr s)).
Proof. intros k. discriminate. Qed.

Lemma build_table_no_key_error t :
  table_keys t = true -> no_key_error (build_table t).
Proof.
  unfold table_keys. intros H.
  apply andb_true_iff in H as [H Hf]. apply andb_true_iff in H as [Hn Hc].
  destruct t as [| | | | |d]; try discriminate.
  rewrite build_table_unfold.
  apply bind_no_key_error.
  { eapply entries_no_key_error; [|apply build_column_str|exact Hc].
    intros x Hx. by apply Ok_no_key_error, build_column_Ok. }
  intros cols _. apply bind_no_key_error.
  { eapply entries_no_key_error; [|apply build_foreign_key_str|exact Hf].
    intros x Hx. by apply Ok_no_key_error, build_foreign_key_Ok. }
  intros fks _. apply has_key_item in Hn as (n & -> & _). intros k. discriminate.
Qed.

Lemma build_table_Ok t :
  table_keys t = true ->
  is_dict_list (field "columns" t) && is_dict_list (field "foreign_keys" t) = true ->
  exists tbl, build_table t = Ok tbl.
Proof.
  unfold table_keys. intros H Hs.
  apply andb_true_iff in H as [H Hf]. apply andb_true_iff in H as [Hn Hc].
  apply andb_true_iff in Hs as [Hsc Hsf].
  destruct t as [| | | | |d]; try discriminate.
  rewrite build_table_unfold.
  destruct (entries_Ok build_column _ _ build_column_Ok Hsc Hc) as [cols ->].
  destruct (entries_Ok build_foreign_key _ _ build_foreign_key_Ok Hsf Hf) as [fks ->].
  apply has_key_item in Hn as (n & -> & _). simpl. eauto.
Qed.

Lemma keys_split raw :
  stated_keys_present raw && foreign_key_keys_present raw = true ->
  forallb table_keys (list_items (field "tables" raw)) = true.
Proof.
  unfold stated_keys_present, foreign_key_keys_present, table_keys.
  intros H. apply andb_true_iff in H as [H1 H2].
  rewrite forallb_forall in *. intros t Ht.
  specialize (H1 t Ht). specialize (H2 t Ht). simpl in *.
  by rewrite H1, H2.
Qed.

Lemma build_unfold d :
  build (PDict d) =
  (tables ← (l ← iter (field "tables" (PDict d)); mapM build_table l);
   Ok (MkSchema tables)).
Proof.
  unfold build_table, build, get, field, mbind, result_bind, from_option, id.
  cbv beta iota.
  repeat match goal with
         | |- context [match ?x with Ok _ => _ | Raise _ => _ end] =>
             destruct x; try reflexivity
         end.
Qed.

Lemma build_no_key_error raw :
  stated_keys_present raw && foreign_key_keys_present raw = true ->
  no_key_error (build raw).
Proof.
  intros H. apply keys_split in H.
  destruct raw as [| | | | |d]; try (intros k; discriminate).
  rewrite build_unfold. apply bind_no_key_error; [|intros ? _ k; discriminate].
  eapply entries_no_key_error; [|apply build_table_str|exact H].
  intros t Ht. by apply build_table_no_key_error.
Qed.

Lemma build_Ok raw :
  raw_shape raw = true ->
  stated_keys_present raw && foreign_key_keys_present raw = true ->
  exists schema, build raw = Ok schema.
Proof.
  intros Hs H. apply keys_split in H. unfold raw_shape in Hs.
  apply andb_true_iff in Hs as [Hs Hall]. apply andb_true_iff in Hs as [Hd Hl].
  destruct raw as [| | | | |d]; try discriminate.
  rewrite build_unfold.
  destruct (entries_Ok build_table
              (fun t => table_keys t && (is_dict_list (field "columns" t) &&
                                         is_dict_list (field "foreign_keys" t)))
              (field "tables" (PDict d))) as [ts ->].
  - intros t Ht. apply andb_true_iff in Ht as [Hk Hsh]. by apply build_table_Ok.
  - exact Hl.
  - rewrite forallb_forall in *. intros t Ht.
    by rewrite (H t Ht), (Hall t Ht).
  - simpl. eauto.
Qed.

End BuilderFacts.

Module MessageFacts.
Import Text Py Validators Spec ValidatorFacts.

#[local] Arguments txt : simpl never.

Lemma is_prefix_app sub t b : is_prefix sub t = true -> is_prefix sub (t ++ b) = true.
Proof.
  revert t. induction sub as [|a sub IH]; intros [|c t] H; simpl in *; try done.
  apply andb_true_iff in H as [-> H]. simpl. by apply IH.
Qed.

Lemma contains_app_l sub t b : contains sub t = true -> contains sub (t ++ b) = true.
Proof.
  induction t as [|c t IH]; simpl; intros H.
  - rewrite orb_false_r in H. destruct sub; [|discriminate]. by destruct b.
  - apply orb_true_iff in H as [H|H].
    + change (c :: t ++ b) with ((c :: t) ++ b). by rewrite (is_prefix_app _ _ _ H).
    + rewrite (IH H). apply orb_true_r.
Qed.

Lemma contains_app_r sub a t : contains sub t = true -> contains sub (a ++ t) = true.
Proof.
  intros H. induction a as [|c a IH]; [exact H|].
  simpl. rewrite IH. apply orb_true_r.
Qed.

Lemma elem_of_concat {A} (x : A) (ls : list (list A)) :
  x ∈ concat ls -> exists l, x ∈ l /\ l ∈ ls.
Proof.
  induction ls as [|l ls IH]; simpl; intros H; [by apply elem_of_nil in H|].
  apply elem_of_app in H as [H|H].
  - exists l. split; [done|left].
  - destruct (IH H) as (l' & ? & ?). exists l'. split; [done|by right].
Qed.

(** The foreign keys of a schema that passes all have equal arities. *)
Lemma validate_schema_Ok_arity schema b fk :
  validate_schema schema = Ok b ->
  fk ∈ schema_foreign_keys schema -> arity_mismatch fk = false.
Proof.
  unfold validate_schema, schema_foreign_keys, field. intros H Hfk.
  destruct schema as [| | | | |d]; try discriminate.
  destruct (dict_get (txt "tables") d) as [[| | | |tables|]|]; try discriminate.
  simpl in Hfk.
  apply bind_Ok in H as ([names cols] & _ & H).
  apply bind_Ok in H as ([] & H & _).
  apply elem_of_concat in Hfk as (l & Hfk & Hl).
  apply list_elem_of_fmap in Hl as (t & -> & Ht).
  pose proof (second_pass_Ok _ _ _ H t Ht) as Hv.
  unfold validate_foreign_keys in Hv.
  destruct t as [| | | | |dt]; try discriminate. simpl in Hfk.
  destruct (dict_get (txt "foreign_keys") dt) as [[| | | |fks|]|];
    simpl in Hfk, Hv; try (by apply elem_of_nil in Hfk).
  all: try (destruct (dict_get (txt "name") dt); discriminate).
  destruct (validate_fk_list_Ok _ _ _ _ _ Hv fk Hfk) as [j Hj].
  by eapply validate_foreign_key_Ok_arity.
Qed.

End MessageFacts.

Module DepthFacts.
Import Text SqlParser Spec.

Lemma count_char_cons c x s :
  count_char c (x :: s) = ((if Ascii.eqb x c then 1 else 0) + count_char c s)%Z.
Proof.
  unfold count_char. rewrite filter_cons.
  destruct (Ascii.eqb x c) eqn:E.
  - apply Ascii.eqb_eq in E. subst. rewrite decide_True by done. simpl length. lia.
  - apply Ascii.eqb_neq in E. rewrite decide_False by done. lia.
Qed.

Lemma delta_count x :
  delta x = ((if Ascii.eqb x "(" then 1 else 0) - (if Ascii.eqb x ")" then 1 else 0))%Z.
Proof.
  unfold delta. destruct (Ascii.eqb x "(") eqn:E; [|by destruct (Ascii.eqb x ")")].
  apply Ascii.eqb_eq in E. subst. reflexivity.
Qed.

Lemma annotate_depths s : forall d,
  annotate d s =
  zip s (map (fun i => (d + count_char "(" (take i s) - count_char ")" (take i s))%Z)
             (seq 0 (length s))).
Proof.
  induction s as [|x s IH]; intros d; [reflexivity|].
  cbn [annotate length seq map zip zip_with]. f_equal.
  - f_equal. unfold count_char. simpl. lia.
  - rewrite IH. f_equal. rewrite <- seq_shift, map_map.
    apply map_ext. intros i. cbn [take]. rewrite !count_char_cons, delta_count. lia.
Qed.

End DepthFacts.

Module EdgeFacts.
Import Text Re SqlParser Spec Pipeline TextFacts ReFacts.

Lemma rstrip_by_prefix p s : exists b, s = rstrip_by p s ++ b.
Proof.
  unfold rstrip_by. destruct (drop_while_suffix p (rev s)) as [a Ha].
  exists (rev a). rewrite <- rev_app_distr, <- Ha. by rewrite rev_involutive.
Qed.

Lemma clean_edges_strip_by p s : clean_edges p (strip_by p s) = true.
Proof.
  unfold clean_edges, strip_by. apply andb_true_iff. split.
  - destruct (rstrip_by p (lstrip_by p s)) as [|x t] eqn:E; [reflexivity|].
    destruct (rstrip_by_prefix p (lstrip_by p s)) as [b Hb]. rewrite E in Hb.
    unfold lstrip_by in Hb. simpl in Hb.
    by rewrite (drop_while_head _ _ _ _ Hb).
  - unfold rstrip_by. rewrite rev_involutive.
    destruct (drop_while p (rev (lstrip_by p s))) as [|y t] eqn:E; [reflexivity|].
    by rewrite (drop_while_head _ _ _ _ E).
Qed.

Lemma unquoted_strip_quotes s : unquoted (strip_quotes s) = true.
Proof. apply clean_edges_strip_by. Qed.

Lemma trimmed_strip s : trimmed (strip s) = true.
Proof. apply clean_edges_strip_by. Qed.

Lemma upper_form_not_lower c :
  forallb (fun x => negb (is_lower x)) (upper_form c) = true.
Proof. destruct c as [[] [] [] [] [] [] [] []]; vm_compute; reflexivity. Qed.

Lemma uppercased_upper s : uppercased (upper s) = true.
Proof.
  unfold uppercased, upper. induction s as [|c s IH]; [reflexivity|].
  cbn [flat_map]. by rewrite forallb_app, upper_form_not_lower, IH.
Qed.

Lemma upper_nonempty s : s <> [] -> upper s <> [].
Proof.
  destruct s as [|c s]; [done|]. intros _. unfold upper. cbn [flat_map].
  unfold upper_form. by destruct (Nat.eqb (nat_of_ascii c) 223).
Qed.

Lemma span_head p c s : p c = true -> exists a b, span p (c :: s) = (c :: a, b).
Proof. intros H. simpl. rewrite H. destruct (span p s). eauto. Qed.

(** The words that [split] cuts off are not empty. *)
Lemma split_ws_second n s p0 p1 rest :
  split_ws (S (S n)) s = p0 :: p1 :: rest -> p0 <> [] /\ p1 <> [].
Proof.
  cbn [split_ws]. destruct (drop_while is_space s) as [|c s1] eqn:E; [discriminate|].
  pose proof (drop_while_head _ _ _ _ E) as Hc.
  destruct (span_head (fun x => negb (is_space x)) c s1) as (a & b & Hs);
    [by rewrite Hc|].
  rewrite Hs. destruct (drop_while is_space b) as [|c1 s2] eqn:E1; [discriminate|].
  pose proof (drop_while_head _ _ _ _ E1) as Hc1.
  destruct (span_head (fun x => negb (is_space x)) c1 s2) as (a1 & b1 & Hs1);
    [by rewrite Hc1|].
  rewrite Hs1. intros H. inversion H; subst. done.
Qed.

Lemma split_char_cons sep s : exists x xs, split_char sep s = x :: xs.
Proof.
  destruct s as [|c s]; simpl; [eauto|].
  destruct (Ascii.eqb c sep); [eauto|]. destruct (split_char sep s); eauto.
Qed.

Lemma column_list_facts s :
  column_list s <> [] /\ forallb unquoted (column_list s) = true.
Proof.
  unfold column_list. split.
  - destruct (split_char_cons "," s) as (x & xs & ->). done.
  - induction (split_char "," s) as [|x xs IH]; [reflexivity|].
    simpl. by rewrite unquoted_strip_quotes, IH.
Qed.

Lemma type_match_nonempty p1 m : re_match true type_re p1 = Some m -> m_text m <> [].
Proof.
  intros H. apply re_match_Some in H as (_ & _ & L).
  destruct L as (m1 & m2 & -> & [Hne _] & _). by destruct m1.
Qed.

End EdgeFacts.

Module OrderFacts.
Import Text Py Validators Spec Order ValidatorFacts.

#[local] Arguments txt : simpl never.

Lemma first_failure_app a b :
  first_failure (a ++ b) =
  match first_failure a with
  | Some e => Some e
  | None => first_failure b
  end.
Proof.
  induction a as [|[e|] a IH]; simpl; [reflexivity|reflexivity|exact IH].
Qed.

Lemma outcome_app {A} (x : A) a b :
  outcome x (a ++ b) =
  match first_failure a with
  | Some e => Raise e
  | None => outcome x b
  end.
Proof. unfold outcome. rewrite first_failure_app. by destruct (first_failure a). Qed.

Lemma has_key_dict key d :
  has_key key (PDict d) =
  match dict_get (txt key) d with Some _ => true | None => false end.
Proof. unfold has_key. by destruct (dict_get (txt key) d). Qed.

Lemma field_dict key d :
  field key (PDict d) = default (PList []) (dict_get (txt key) d).
Proof. reflexivity. Qed.

Lemma column_names_app a b : column_names (a ++ b) = column_names a ++ column_names b.
Proof. apply map_app. Qed.

Lemma names_snoc (l : list str) (n : str) :
  ({[n]} ∪ list_to_set l : gset str) = list_to_set (l ++ [n]).
Proof.
  rewrite list_to_set_app_L. simpl. rewrite union_empty_r_L. apply union_comm_L.
Qed.

(** *** The columns *)

Lemma validate_columns_step col cols tn earlier :
  validate_columns (col :: cols) tn (length earlier)
                   (list_to_set (column_names earlier)) =
  match first_failure (column_checks tn earlier col) with
  | Some e => Raise e
  | None =>
      validate_columns cols tn (S (length earlier))
                       (list_to_set (column_names (earlier ++ [col])))
  end.
Proof.
  cbn [validate_columns]. unfold validate_column, column_checks.
  destruct col as [| | | | |d]; try reflexivity.
  rewrite column_names_app.
  change (column_names [PDict d]) with [text_of (field "name" (PDict d))].
  rewrite !has_key_dict, !field_dict. unfold item.
  destruct (dict_get (txt "name") d) as [name|]; [|reflexivity].
  destruct (dict_get (txt "type") d) as [type|]; [|reflexivity].
  destruct name as [| | |[|c n]| |]; try reflexivity.
  destruct type as [| | |[|c' ty]| |]; try reflexivity.
  assert (Hd : forall k : result (gset str),
             (if bool_decide (c :: n ∈ (list_to_set (column_names earlier) : gset str))
              then raise_error [Lit "Duplicate column name '"; Fmt (PStr (c :: n));
                                Lit "' in table '"; Fmt tn; Lit "'"]
              else k) =
             match first_failure
                     [need (negb (bool_decide (c :: n ∈ column_names earlier)))
                        [Lit "Duplicate column name '"; Fmt (PStr (c :: n));
                         Lit "' in table '"; Fmt tn; Lit "'"]] with
             | Some e => Raise e
             | None => k
             end).
  { intros k.
    rewrite (bool_decide_ext (c :: n ∈ (list_to_set (column_names earlier) : gset str))
                             (c :: n ∈ column_names earlier))
      by apply elem_of_list_to_set.
    by destruct (bool_decide (c :: n ∈ column_names earlier)). }
  cbn [default text_of]. rewrite <- names_snoc.
  destruct (dict_get (txt "constraints") d) as [[| | | | |]|];
    try reflexivity; cbn; apply Hd.
Qed.

Lemma validate_columns_checks tn cols : forall earlier,
  validate_columns cols tn (length earlier) (list_to_set (column_names earlier)) =
  outcome (list_to_set (column_names (earlier ++ cols)))
          (columns_checks tn earlier cols).
Proof.
  induction cols as [|col cols IH]; intros earlier.
  - by rewrite app_nil_r.
  - rewrite validate_columns_step. cbn [columns_checks]. rewrite outcome_app.
    destruct (first_failure (column_checks tn earlier col)); [reflexivity|].
    specialize (IH (earlier ++ [col])).
    rewrite length_app, Nat.add_1_r, <- app_assoc in IH. exact IH.
Qed.

(** A column that passes its checks has a string as its name. *)
Lemma column_checks_name tn earlier col :
  first_failure (column_checks tn earlier col) = None ->
  item col "name" = Ok (PStr (text_of (field "name" col))).
Proof.
  unfold column_checks, item. destruct col as [| | | | |d]; try discriminate.
  rewrite !has_key_dict, !field_dict.
  destruct (dict_get (txt "name") d) as [name|]; [|discriminate].
  destruct (dict_get (txt "type") d) as [type|]; [|discriminate].
  destruct name as [| | |[|c n]| |]; try discriminate. reflexivity.
Qed.

Lemma columns_checks_name_set tn cols : forall earlier,
  first_failure (columns_checks tn earlier cols) = None ->
  column_name_set cols = Ok (list_to_set (column_names cols)).
Proof.
  induction cols as [|col cols IH]; intros earlier H; [reflexivity|].
  cbn [columns_checks] in H. rewrite first_failure_app in H.
  destruct (first_failure (column_checks tn earlier col)) eqn:E; [discriminate|].
  cbn [column_name_set]. rewrite (column_checks_name _ _ _ E).
  cbn [mbind result_bind]. rewrite (IH _ H). reflexivity.
Qed.

(** *** The primary key *)

Lemma validate_primary_key_checks tn names pk :
  validate_primary_key pk tn (list_to_set names) =
  outcome () (map (fun pk_col =>
                     need_known pk_col names
                       [Lit "Primary key column '"; Fmt pk_col;
                        Lit "' not found in table '"; Fmt tn; Lit "'"]) pk).
Proof.
  induction pk as [|v pk IH]; [reflexivity|].
  cbn [validate_primary_key map]. unfold outcome in *. cbn [first_failure].
  destruct v as [| | |x| |]; try reflexivity.
  cbn [in_set mbind result_bind need_known].
  rewrite (bool_decide_ext (x ∈ (list_to_set names : gset str)) (x ∈ names))
    by apply elem_of_list_to_set.
  destruct (bool_decide (x ∈ names)); cbn; [exact IH|reflexivity].
Qed.

(** *** One table *)

Lemma validate_table_checks table i :
  validate_table table i = outcome () (table_checks i table).
Proof.
  unfold validate_table, table_checks.
  destruct table as [| | | | |d]; try reflexivity.
  rewrite !has_key_dict, !field_dict.
  destruct (dict_get (txt "name") d) as [name|]; [|reflexivity].
  destruct (dict_get (txt "columns") d) as [columns|]; [|reflexivity].
  destruct (dict_get (txt "primary_key") d) as [primary_key|]; [|reflexivity].
  destruct name as [| | |[|c n]| |]; try reflexivity.
  destruct columns as [| | | |[|col cols]|]; try reflexivity.
  cbn [default from_option id list_items].
  pose proof (validate_columns_checks (PStr (c :: n)) (col :: cols) []) as Hc.
  cbn [length app column_names map list_to_set] in Hc.
  change (validate_columns (col :: cols) (PStr (c :: n)) 0 ∅ =
          outcome (list_to_set (column_names (col :: cols)))
                  (columns_checks (PStr (c :: n)) [] (col :: cols))) in Hc.
  rewrite Hc. unfold outcome at 1 2.
  rewrite (first_failure_app [_; _; _; _; _; _; _]).
  cbn [first_failure need nonempty_str nonempty_list is_list is_dict negb].
  rewrite first_failure_app.
  destruct (first_failure (columns_checks (PStr (c :: n)) [] (col :: cols)));
    [reflexivity|].
  cbn [mbind result_bind first_failure].
  destruct primary_key as [| | | |pk|]; try reflexivity.
  cbn [need is_list list_items]. apply validate_primary_key_checks.
Qed.

Lemma item_field v key x : item v key = Ok x -> field key v = x.
Proof.
  unfold item, field. destruct v as [| | | | |d]; try discriminate.
  destruct (dict_get (txt key) d); [|discriminate]. simpl. congruence.
Qed.

(** A table that passes its checks has a string as its name, a list as its
    columns, and every column has a string as its name. *)
Lemma table_checks_record i table :
  first_failure (table_checks i table) = None ->
  item table "name" = Ok (PStr (text_of (field "name" table))) /\
  item table "columns" = Ok (PList (list_items (field "columns" table))) /\
  column_name_set (list_items (field "columns" table)) =
    Ok (list_to_set (column_names (list_items (field "columns" table)))).
Proof.
  unfold table_checks, item.
  destruct table as [| | | | |d]; try discriminate.
  rewrite !has_key_dict, !field_dict.
  destruct (dict_get (txt "name") d) as [name|]; [|discriminate].
  destruct (dict_get (txt "columns") d) as [columns|]; [|discriminate].
  destruct (dict_get (txt "primary_key") d) as [primary_key|]; [|discriminate].
  destruct name as [| | |[|c n]| |]; try discriminate.
  destruct columns as [| | | |[|col cols]|]; try discriminate.
  cbn [default from_option id list_items text_of].
  rewrite (first_failure_app [_; _; _; _; _; _; _]).
  cbn [first_failure need nonempty_str nonempty_list is_list is_dict negb].
  rewrite first_failure_app.
  destruct (first_failure (columns_checks (PStr (c :: n)) [] (col :: cols))) eqn:E;
    [discriminate|].
  intros _. split; [reflexivity|]. split; [reflexivity|].
  exact (columns_checks_name_set _ _ _ E).
Qed.

(** *** The first pass *)

Lemma recorded_cons table tables table_columns :
  recorded (table :: tables) table_columns =
  recorded tables
    (<[text_of (field "name" table) :=
         list_to_set (column_names (list_items (field "columns" table)))]>
       table_columns).
Proof. reflexivity. Qed.

Lemma first_pass_checked tables : forall i names cols,
  first_pass tables i names cols =
  match first_failure (first_pass_checks i tables) with
  | Some e => Raise e
  | None => Ok (list_to_set (table_names tables) ∪ names, recorded tables cols)
  end.
Proof.
  induction tables as [|table tables IH]; intros i names cols.
  - cbn. by rewrite union_empty_l_L.
  - cbn [first_pass first_pass_checks]. rewrite validate_table_checks.
    unfold outcome. rewrite first_failure_app.
    destruct (first_failure (table_checks i table)) eqn:E; [reflexivity|].
    destruct (table_checks_record _ _ E) as (Hn & Hc & Hs).
    cbn [mbind result_bind]. rewrite Hn, Hc. cbn [mbind result_bind iter].
    rewrite Hs. cbn [mbind result_bind]. rewrite IH, recorded_cons.
    destruct (first_failure (first_pass_checks (S i) tables)); [reflexivity|].
    do 2 f_equal. cbn [table_names map list_to_set].
    by rewrite (assoc_L (∪)), (comm_L (∪) _ {[_]}).
Qed.

Lemma recorded_lookup tables : forall table_columns n,
  recorded tables table_columns !! n =
  match recorded_columns tables n with
  | Some cs => Some (list_to_set cs)
  | None => table_columns !! n
  end.
Proof.
  induction tables as [|table tables IH]; intros table_columns n; [reflexivity|].
  rewrite recorded_cons, IH. cbn [recorded_columns].
  destruct (recorded_columns tables n); [reflexivity|].
  unfold Text.eqb.
  destruct (decide (text_of (field "name" table) = n)) as [->|Hne].
  - rewrite bool_decide_eq_true_2 by done. by rewrite lookup_insert_eq.
  - rewrite bool_decide_eq_false_2 by done. by rewrite lookup_insert_ne.
Qed.

Lemma recorded_columns_named tables n :
  n ∈ table_names tables <-> is_Some (recorded_columns tables n).
Proof.
  induction tables as [|table tables IH]; cbn [table_names map recorded_columns].
  - split; [intros H; by apply elem_of_nil in H|intros [? ?]; discriminate].
  - rewrite elem_of_cons. fold (table_names tables). rewrite IH.
    destruct (recorded_columns tables n); [split; eauto|].
    unfold Text.eqb.
    destruct (decide (text_of (field "name" table) = n)) as [->|Hne].
    + rewrite bool_decide_eq_true_2 by done. split; eauto.
    + rewrite bool_decide_eq_false_2 by done.
      split; [intros [?|[? ?]]; [congruence|discriminate]|intros [? ?]; discriminate].
Qed.

(** *** One foreign key *)

Lemma validate_fk_columns_checks l known msg :
  validate_fk_columns l (list_to_set known) msg =
  outcome () (map (fun col => need_known col known (msg col)) l).
Proof.
  induction l as [|v l IH]; [reflexivity|].
  cbn [validate_fk_columns map]. unfold outcome in *. cbn [first_failure].
  destruct v as [| | |x| |]; try reflexivity.
  cbn [in_set mbind result_bind need_known].
  rewrite (bool_decide_ext (x ∈ (list_to_set known : gset str)) (x ∈ known))
    by apply elem_of_list_to_set.
  destruct (bool_decide (x ∈ known)); cbn; [exact IH|reflexivity].
Qed.

Lemma columns_of_recorded tables table_columns n :
  (forall k, table_columns !! k = list_to_set <$> recorded_columns tables k) ->
  n ∈ table_names tables ->
  columns_of table_columns (PStr n) = Ok (list_to_set (columns_named tables n)).
Proof.
  intros Hcols Hn. unfold columns_of, columns_named. rewrite Hcols.
  apply recorded_columns_named in Hn as [cs ->]. reflexivity.
Qed.

Lemma validate_foreign_key_checks tables table f fk names table_columns tn :
  item table "name" = Ok (PStr tn) ->
  tn ∈ table_names tables ->
  names = list_to_set (table_names tables) ->
  (forall k, table_columns !! k = list_to_set <$> recorded_columns tables k) ->
  validate_foreign_key fk table f names table_columns =
  outcome () (foreign_key_checks tables table f fk).
Proof.
  intros Ht Htn -> Hcols.
  unfold validate_foreign_key, foreign_key_checks, reference_checks, arity_check,
    arity_error.
  rewrite Ht, (item_field _ _ _ Ht). cbn [mbind result_bind text_of].
  destruct fk as [| | | | |d]; try reflexivity.
  rewrite !has_key_dict, !field_dict. unfold required_fields, item. cbn [find].
  destruct (dict_get (txt "name") d) as [name|]; [|reflexivity].
  destruct (dict_get (txt "columns") d) as [columns|]; [|reflexivity].
  destruct (dict_get (txt "ref_table") d) as [ref_table|]; [|reflexivity].
  destruct (dict_get (txt "ref_columns") d) as [ref_columns|]; [|reflexivity].
  cbn [bool_decide decide_rel is_Some_dec negb mbind result_bind default from_option id].
  destruct name as [| | |[|c n]| |]; try reflexivity.
  destruct columns as [| | | |[|col cols]|]; try reflexivity.
  cbn [nonempty_str nonempty_list negb list_items].
  rewrite (columns_of_recorded _ _ _ Hcols Htn). cbn [mbind result_bind].
  rewrite validate_fk_columns_checks.
  unfold outcome. rewrite !first_failure_app.
  cbn [first_failure need is_dict].
  destruct (first_failure (map _ (col :: cols))); [reflexivity|].
  cbn [mbind result_bind].
  destruct ref_table as [| | |[|c' rt]| |]; try reflexivity.
  cbn [nonempty_str negb in_set mbind result_bind text_of first_failure need].
  rewrite (bool_decide_ext (c' :: rt ∈ (list_to_set (table_names tables) : gset str))
                           (c' :: rt ∈ table_names tables))
    by apply elem_of_list_to_set.
  destruct (bool_decide (c' :: rt ∈ table_names tables)) eqn:Hrt; [|reflexivity].
  apply bool_decide_eq_true in Hrt.
  cbn [negb first_failure need].
  destruct ref_columns as [| | | |[|rcol rcols]|]; try reflexivity.
  cbn [nonempty_list negb list_items first_failure need].
  rewrite (columns_of_recorded _ _ _ Hcols Hrt). cbn [mbind result_bind].
  rewrite validate_fk_columns_checks. unfold outcome.
  destruct (first_failure (map _ (rcol :: rcols))); [reflexivity|].
  cbn [mbind result_bind list_len first_failure].
  by destruct (Nat.eqb (length (col :: cols)) (length (rcol :: rcols))).
Qed.

(** *** The second pass *)

Section SecondPass.
Variables (tables : list pyval) (table_columns : gmap str (gset str)).
Hypothesis recorded_all :
  forall k, table_columns !! k = list_to_set <$> recorded_columns tables k.

Lemma validate_fk_list_checks table tn fks : forall f,
  item table "name" = Ok (PStr tn) ->
  tn ∈ table_names tables ->
  validate_fk_list fks table f (list_to_set (table_names tables)) table_columns =
  outcome () (foreign_keys_checks tables table f fks).
Proof using recorded_all.
  intros f Ht Htn. revert f. induction fks as [|fk fks IH]; intros f; [reflexivity|].
  cbn [validate_fk_list foreign_keys_checks].
  rewrite (validate_foreign_key_checks tables table f fk _ _ tn Ht Htn eq_refl recorded_all).
  rewrite outcome_app. unfold outcome at 1.
  destruct (first_failure (foreign_key_checks tables table f fk)); [reflexivity|].
  apply IH.
Qed.

Lemma validate_foreign_keys_checks table tn :
  item table "name" = Ok (PStr tn) ->
  tn ∈ table_names tables ->
  validate_foreign_keys table (list_to_set (table_names tables)) table_columns =
  outcome () (table_foreign_key_checks tables table).
Proof using recorded_all.
  intros Ht Htn. unfold validate_foreign_keys, table_foreign_key_checks.
  destruct table as [| | | | |d]; try discriminate.
  rewrite has_key_dict, field_dict.
  destruct (dict_get (txt "foreign_keys") d) as [fks|] eqn:Ef; [|reflexivity].
  cbn [default from_option id].
  destruct fks as [| | | |fks|];
    try (rewrite Ht, (item_field _ _ _ Ht); reflexivity).
  cbn [list_items is_list need]. unfold outcome. cbn [first_failure].
  exact (validate_fk_list_checks (PDict d) tn fks 0 Ht Htn).
Qed.

Lemma second_pass_checked owners :
  Forall (fun table => exists tn, item table "name" = Ok (PStr tn) /\
                                  tn ∈ table_names tables) owners ->
  second_pass owners (list_to_set (table_names tables)) table_columns =
  outcome () (second_pass_checks tables owners).
Proof using recorded_all.
  induction 1 as [|table owners (tn & Ht & Htn) _ IH]; [reflexivity|].
  cbn [second_pass]. unfold second_pass_checks. cbn [map concat].
  rewrite (validate_foreign_keys_checks table tn Ht Htn), outcome_app.
  unfold outcome at 1.
  destruct (first_failure (table_foreign_key_checks tables table)); [reflexivity|].
  exact IH.
Qed.

End SecondPass.

Lemma first_pass_checks_names tables : forall i,
  first_failure (first_pass_checks i tables) = None ->
  Forall (fun table =>
            item table "name" = Ok (PStr (text_of (field "name" table)))) tables.
Proof.
  induction tables as [|table tables IH]; intros i H; [constructor|].
  cbn [first_pass_checks] in H. rewrite first_failure_app in H.
  destruct (first_failure (table_checks i table)) eqn:E; [discriminate|].
  constructor; [exact (proj1 (table_checks_record _ _ E))|exact (IH _ H)].
Qed.

Lemma first_pass_checks_owners tables :
  first_failure (first_pass_checks 0 tables) = None ->
  Forall (fun table => exists tn, item table "name" = Ok (PStr tn) /\
                                  tn ∈ table_names tables) tables.
Proof.
  intros H. apply first_pass_checks_names in H.
  apply Forall_forall. intros table Hin.
  exists (text_of (field "name" table)). split.
  - by apply (proj1 (Forall_forall _ _) H).
  - unfold table_names. apply list_elem_of_fmap. by exists table.
Qed.

Lemma recorded_from_empty tables k :
  recorded tables ∅ !! k = list_to_set <$> recorded_columns tables k.
Proof.
  rewrite recorded_lookup. destruct (recorded_columns tables k); [reflexivity|].
  apply lookup_empty.
Qed.

(** *** The whole schema *)

(** The validator returns the first failure in document order. *)
Lemma validate_schema_checked schema :
  validate_schema schema = outcome true (document_order schema).
Proof.
  unfold validate_schema, document_order.
  destruct schema as [| | | | |d]; try reflexivity.
  rewrite has_key_dict, field_dict.
  destruct (dict_get (txt "tables") d) as [tables|]; [|reflexivity].
  cbn [default from_option id].
  destruct tables as [| | | |tables|]; try reflexivity.
  cbn [list_items]. rewrite first_pass_checked.
  unfold outcome. rewrite (first_failure_app [_; _; _]).
  cbn [first_failure need is_dict is_list]. rewrite first_failure_app.
  destruct (first_failure (first_pass_checks 0 tables)) eqn:E; [reflexivity|].
  cbn [mbind result_bind]. rewrite union_empty_r_L.
  rewrite (second_pass_checked tables _ (recorded_from_empty tables) tables
             (first_pass_checks_owners _ E)).
  unfold outcome.
  by destruct (first_failure (second_pass_checks tables tables)).
Qed.

Lemma first_pass_checks_app a b i :
  first_pass_checks i (a ++ b) =
  first_pass_checks i a ++ first_pass_checks (i + length a) b.
Proof.
  revert i. induction a as [|t a IH]; intros i.
  - cbn. by rewrite Nat.add_0_r.
  - cbn [app first_pass_checks length]. rewrite IH, <- app_assoc.
    by replace (S i + length a) with (i + S (length a)) by lia.
Qed.

Lemma foreign_keys_checks_app tables table a b f :
  foreign_keys_checks tables table f (a ++ b) =
  foreign_keys_checks tables table f a ++
  foreign_keys_checks tables table (f + length a) b.
Proof.
  revert f. induction a as [|t a IH]; intros f.
  - cbn. by rewrite Nat.add_0_r.
  - cbn [app foreign_keys_checks length]. rewrite IH, <- app_assoc.
    by replace (S f + length a) with (f + S (length a)) by lia.
Qed.

Lemma second_pass_checks_app tables a b :
  second_pass_checks tables (a ++ b) =
  second_pass_checks tables a ++ second_pass_checks tables b.
Proof. unfold second_pass_checks. by rewrite map_app, concat_app. Qed.

End OrderFacts.

Module ArityFacts.
Import Text Py Validators Spec Order ValidatorFacts OrderFacts MessageFacts.
#[local] Arguments txt : simpl never.

Lemma field_has_key key v x xs : field key v = PList (x :: xs) -> has_key key v = true.
Proof.
  unfold field, has_key. destruct v as [| | | | |d]; try discriminate.
  destruct (dict_get (txt key) d); [reflexivity|discriminate].
Qed.

(** The error of the count comparison names the mismatch when the names
    in it are strings. *)
Lemma arity_error_message table fk tn name :
  field "name" table = PStr tn -> field "name" fk = PStr name ->
  message_contains "mismatched column counts" (arity_error table fk) = true.
Proof.
  intros Ht Hn. unfold arity_error. rewrite Ht, Hn.
  unfold message_contains, render, render_piece, py_str.
  apply contains_app_r, contains_app_r, contains_app_r, contains_app_r, contains_app_l.
  vm_compute. reflexivity.
Qed.

Lemma reference_checks_name tables table f fk :
  first_failure (reference_checks tables table f fk) = None ->
  exists name, field "name" fk = PStr name.
Proof.
  unfold reference_checks. rewrite !first_failure_app.
  destruct fk as [| | | | |d]; try discriminate.
  rewrite !has_key_dict, !field_dict.
  destruct (dict_get (txt "name") d) as [name|]; [|discriminate].
  destruct (dict_get (txt "columns") d) as [columns|]; [|discriminate].
  destruct (dict_get (txt "ref_table") d) as [ref_table|]; [|discriminate].
  destruct (dict_get (txt "ref_columns") d) as [ref_columns|]; [|discriminate].
  destruct name as [| | |[|c n]| |]; try discriminate. eauto.
Qed.

(** The count comparison of a foreign key is the first failure when all
    the checks in front of it pass. *)
Lemma arity_first_failure d pre table post fpre fk fpost :
  dict_get (txt "tables") d = Some (PList (pre ++ table :: post)) ->
  field "foreign_keys" table = PList (fpre ++ fk :: fpost) ->
  first_failure (first_pass_checks 0 (pre ++ table :: post)) = None ->
  first_failure (second_pass_checks (pre ++ table :: post) pre) = None ->
  first_failure (foreign_keys_checks (pre ++ table :: post) table 0 fpre) = None ->
  first_failure (reference_checks (pre ++ table :: post) table (length fpre) fk) = None ->
  list_len (field "columns" fk) <> list_len (field "ref_columns" fk) ->
  validate_schema (PDict d) = Raise (arity_error table fk).
Proof.
  intros Hd Hf H1 H2 H3 H4 Hlen.
  rewrite validate_schema_checked. unfold outcome, document_order.
  rewrite has_key_dict, field_dict, Hd. cbn [default from_option id list_items].
  rewrite (first_failure_app [_; _; _]). cbn [first_failure need is_dict is_list].
  rewrite first_failure_app, H1, second_pass_checks_app, first_failure_app, H2.
  unfold second_pass_checks. cbn [map concat]. rewrite first_failure_app.
  unfold table_foreign_key_checks at 1.
  assert (Hk : has_key "foreign_keys" table = true).
  { destruct fpre; exact (field_has_key _ _ _ _ Hf). }
  rewrite Hk, Hf. cbn [need is_list first_failure list_items].
  rewrite foreign_keys_checks_app, first_failure_app, H3.
  change (0 + length fpre) with (length fpre).
  cbn [foreign_keys_checks]. rewrite first_failure_app. unfold foreign_key_checks.
  rewrite first_failure_app, H4. cbn [first_failure]. unfold arity_check.
  apply Nat.eqb_neq in Hlen. rewrite Hlen. reflexivity.
Qed.

End ArityFacts.

Module ClauseFacts.
Import Text Re SqlParser Spec Pipeline Clauses ReFacts TextFacts PhraseFacts EdgeFacts.

#[local] Arguments txt : simpl never.
#[local] Arguments cmatch : simpl never.

(** *** Stripping *)

Lemma drop_while_split p s : exists l, s = l ++ drop_while p s /\ forallb p l = true.
Proof.
  induction s as [|x s (l & Hl & Hp)]; simpl; [by exists []|].
  destruct (p x) eqn:E; [|by exists []].
  exists (x :: l). simpl. rewrite E, Hp. split; [by rewrite <- Hl|reflexivity].
Qed.

Lemma forallb_rev_true {A} (p : A -> bool) l : forallb p l = true -> forallb p (rev l) = true.
Proof.
  rewrite !forallb_forall. intros H x Hx. apply H. by apply in_rev.
Qed.

Lemma strip_by_edges p s : edges_removed p s (strip_by p s).
Proof.
  destruct (drop_while_split p s) as (l & Hl & Hpl).
  destruct (drop_while_split p (rev (drop_while p s))) as (r & Hr & Hpr).
  exists l, (rev r). split; [|split; [exact Hpl|split]].
  - unfold strip_by, rstrip_by, lstrip_by.
    rewrite <- rev_app_distr, <- Hr, rev_involutive. exact Hl.
  - by apply forallb_rev_true.
  - apply clean_edges_strip_by.
Qed.

Lemma forallb_same {A} (p q : A -> bool) l :
  (forall c, p c = q c) -> forallb p l = forallb q l.
Proof. intros H. induction l as [|x l IH]; simpl; [reflexivity|]. by rewrite H, IH. Qed.

Lemma edges_removed_ext p q s t :
  (forall c, p c = q c) -> edges_removed p s t -> edges_removed q s t.
Proof.
  intros H (l & r & Hs & Hl & Hr & Hc). exists l, r.
  split; [exact Hs|]. split; [|split].
  - rewrite <- Hl. symmetry. by apply forallb_same.
  - rewrite <- Hr. symmetry. by apply forallb_same.
  - unfold clean_edges in *. destruct t as [|x t]; [reflexivity|].
    rewrite <- H. destruct (rev (x :: t)); [exact Hc|]. by rewrite <- H.
Qed.

Lemma quote_character_mem c : mem_char quote_chars c = quote_character c.
Proof.
  unfold mem_char, quote_chars, quote_character. cbn [existsb].
  destruct (Ascii.eqb c "`"), (Ascii.eqb c "034"), (Ascii.eqb c "["),
    (Ascii.eqb c "]"); reflexivity.
Qed.

Lemma strip_quotes_edges s : edges_removed quote_character s (strip_quotes s).
Proof.
  apply (edges_removed_ext (mem_char quote_chars)); [apply quote_character_mem|].
  apply strip_by_edges.
Qed.

Lemma strip_edges s : edges_removed is_space s (strip s).
Proof. apply strip_by_edges. Qed.

(** *** The match that a search finds *)

Lemma re_search_match ic r s mo :
  re_search ic r s = Some mo ->
  re_match ic r (m_text mo ++ m_post mo) =
    Some (MatchObj [] (m_text mo) (m_groups mo) (m_post mo)).
Proof.
  revert mo. induction s as [|c s IH]; intros mo H; simpl in H.
  - destruct (re_match ic r []) as [m|] eqn:E; [|discriminate].
    inversion H; subst. destruct (re_match_Some _ _ _ _ E) as (Hp & Hs & _).
    rewrite <- Hs, E. destruct mo. simpl in *. by subst.
  - destruct (re_match ic r (c :: s)) as [m|] eqn:E.
    + inversion H; subst. destruct (re_match_Some _ _ _ _ E) as (Hp & Hs & _).
      rewrite <- Hs, E. destruct mo. simpl in *. by subst.
    + destruct (re_search ic r s) as [mo'|]; [|discriminate].
      simpl in H. inversion H; subst. simpl. by apply IH.
Qed.

Lemma none_starts_in_search ic r s mo :
  ic = true ->
  re_search ic r s = Some mo ->
  none_starts_in r (m_pre mo) (m_text mo ++ m_post mo).
Proof.
  intros -> H. apply re_search_Some in H as (_ & _ & Hleft).
  intros a b m post Hab Hb Hm L. apply (Hleft a b Hab Hb). exists m, post. auto.
Qed.

(** *** Greedy repetition in front of a continuation that always accepts *)

Section Longest.
Context {R : Type}.
Implicit Types (k : str -> str -> option R) (p : ascii -> bool).

Lemma star_greedy_total p s k :
  (forall m rest, is_Some (k m rest)) -> is_Some (star_greedy p s k).
Proof.
  revert k. induction s as [|c s IH]; intros k Hk; simpl; [apply Hk|].
  destruct (p c); [|apply Hk].
  destruct (IH (fun m rest => k (c :: m) rest)) as [res ->]; [intros; apply Hk|].
  eauto.
Qed.

Lemma star_greedy_longest p s k res :
  (forall m rest, is_Some (k m rest)) ->
  star_greedy p s k = Some res ->
  exists m rest,
    s = m ++ rest /\ forallb p m = true /\ stops p rest /\ k m rest = Some res.
Proof.
  revert k. induction s as [|c s IH]; intros k Hk H; simpl in H.
  - exists [], []. simpl. auto.
  - destruct (p c) eqn:Hc.
    + destruct (star_greedy_total p s (fun m rest => k (c :: m) rest)) as [r Hr];
        [intros; apply Hk|].
      rewrite Hr in H. inversion H; subst.
      apply IH in Hr as (m & rest & -> & Hm & Hs & Hr); [|intros; apply Hk].
      exists (c :: m), rest. simpl. rewrite Hc, Hm. auto.
    + exists [], (c :: s). simpl. auto.
Qed.

Lemma plus_greedy_longest p s k res :
  (forall m rest, is_Some (k m rest)) ->
  plus_greedy p s k = Some res ->
  exists m rest,
    s = m ++ rest /\ m <> [] /\ forallb p m = true /\ stops p rest /\
    k m rest = Some res.
Proof.
  intros Hk. destruct s as [|c s]; simpl; [discriminate|].
  destruct (p c) eqn:Hc; [|discriminate]. intros H.
  apply star_greedy_longest in H as (m & rest & -> & Hm & Hs & Hr);
    [|intros; apply Hk].
  exists (c :: m), rest. simpl. rewrite Hc, Hm. auto.
Qed.

End Longest.

(** *** The name pattern *)

Lemma cmatch_space x : cmatch true CSpace x = is_space x.
Proof. reflexivity. Qed.

Lemma cmatch_not_space_class x : cmatch true (CNot CSpace) x = not_space x.
Proof. reflexivity. Qed.

Lemma re_match_constraint_name s mo :
  re_match true constraint_name_re s = Some mo ->
  exists kw ws tok,
    m_text mo = kw ++ ws ++ tok /\ group_text 1 mo = tok /\
    lit_eq true (txt "CONSTRAINT") kw = true /\
    gap ws /\ word tok /\ stops not_space (m_post mo).
Proof.
  unfold re_match, constraint_name_re. cbn [rseq rmatch].
  destruct (lit_prefix true (txt "CONSTRAINT") s) as [[kw rest]|] eqn:El;
    [|discriminate].
  apply lit_prefix_Some in El as [-> Hkw]. intros H.
  apply plus_greedy_sound in H as (ws & rest1 & -> & Hne & Hws & H).
  apply plus_greedy_longest in H as (tok & rest2 & -> & Htne & Htok & Hstop & H);
    [|eauto].
  inversion H; subst. simpl. exists kw, ws, tok.
  split; [reflexivity|]. split; [reflexivity|]. split; [exact Hkw|].
  split; [split; [exact Hne|exact Hws]|]. split; [split; [exact Htne|exact Htok]|].
  exact Hstop.
Qed.

(** The name of a parsed foreign key. *)
Lemma parsed_foreign_key_name fk_def fk :
  parse_foreign_key fk_def = Some fk ->
  fk_name fk =
  match re_search true constraint_name_re fk_def with
  | Some mo =>
      match strip_quotes (group_text 1 mo) with
      | [] => synthesized_name fk
      | name => name
      end
  | None => synthesized_name fk
  end.
Proof.
  unfold parse_foreign_key, synthesized_name.
  destruct (re_search true foreign_key_cols_re fk_def); [|discriminate].
  destruct (re_search true references_re fk_def); [|discriminate].
  intros H. inversion H; subst; clear H. cbn [fk_name fk_ref_table fk_columns].
  destruct (re_search true constraint_name_re fk_def) as [mo|]; [|reflexivity].
  by destruct (strip_quotes (group_text 1 mo)).
Qed.

Lemma first_constraint_word_search fk_def mo :
  re_search true constraint_name_re fk_def = Some mo ->
  first_constraint_word fk_def (group_text 1 mo).
Proof.
  intros H. pose proof (re_search_match _ _ _ _ H) as Hm.
  pose proof (none_starts_in_search _ _ _ _ eq_refl H) as Hleft.
  apply re_search_Some in H as (Hs & _ & _).
  apply re_match_constraint_name in Hm as (kw & ws & tok & Ht & Hg & Hkw & Hws & Htok & Hp).
  cbn [m_text m_post] in Ht, Hp.
  change (group_text 1 mo = tok) in Hg. rewrite Hg.
  exists (m_pre mo), kw, ws, (m_post mo).
  rewrite Ht, <- !app_assoc in Hs, Hleft. auto 10.
Qed.

End ClauseFacts.

Module KeyFacts.
Import Text Re SqlParser Spec Pipeline Clauses.
Import ReFacts TextFacts PhraseFacts ParserFacts EdgeFacts ClauseFacts.

#[local] Arguments txt : simpl never.
#[local] Arguments cmatch : simpl never.

(** *** Lists written with commas *)

Lemma split_char_join sep s : join [sep] (split_char sep s) = s.
Proof.
  induction s as [|c s IH]; [reflexivity|]. cbn [split_char].
  destruct (Ascii.eqb c sep) eqn:E.
  - apply Ascii.eqb_eq in E. subst c.
    destruct (split_char_cons sep s) as (x & xs & Hx). rewrite Hx in *.
    change (join [sep] ([] :: x :: xs)) with ([] ++ [sep] ++ join [sep] (x :: xs)).
    by rewrite IH.
  - destruct (split_char sep s) as [|x [|y xs]]; simpl in *; by rewrite <- IH.
Qed.

Lemma split_char_no_sep sep s : Forall (fun item => sep ∉ item) (split_char sep s).
Proof.
  induction s as [|c s IH]; cbn [split_char].
  - constructor; [apply not_elem_of_nil|constructor].
  - destruct (Ascii.eqb c sep) eqn:E.
    + constructor; [apply not_elem_of_nil|exact IH].
    + apply Ascii.eqb_neq in E.
      destruct (split_char sep s) as [|x xs].
      * constructor; [|constructor]. apply not_elem_of_cons. split; [congruence|].
        apply not_elem_of_nil.
      * inversion IH; subst. constructor; [|assumption].
        apply not_elem_of_cons. split; [congruence|assumption].
Qed.

Lemma comma_separated_split s : comma_separated s (split_char "," s).
Proof.
  split; [symmetry; apply split_char_join|]. split; [|apply split_char_no_sep].
  destruct (split_char_cons "," s) as (x & xs & ->). done.
Qed.

Lemma listed_names_column_list s : listed_names s (column_list s).
Proof.
  exists (split_char "," s). split; [apply comma_separated_split|].
  unfold column_list. induction (split_char "," s) as [|x xs IH]; constructor.
  - exists (strip x). split; [apply strip_edges|apply strip_quotes_edges].
  - exact IH.
Qed.

(** *** The pattern of the key list *)

Lemma cmatch_open x : cmatch true (CChar "(") x = true -> x = "("%char.
Proof.
  unfold cmatch. destruct x as [[] [] [] [] [] [] [] []]; vm_compute; congruence.
Qed.

Lemma cmatch_close x : cmatch true (CChar ")") x = Ascii.eqb x ")".
Proof.
  unfold cmatch. destruct x as [[] [] [] [] [] [] [] []]; vm_compute; congruence.
Qed.

Lemma not_rparen_all s :
  forallb (cmatch true not_rparen) s = true <-> ")"%char ∉ s.
Proof.
  induction s as [|x s IH]; simpl.
  - split; [intros _; apply not_elem_of_nil|done].
  - rewrite andb_true_iff, IH, not_elem_of_cons.
    change (cmatch true not_rparen x) with (negb (cmatch true (CChar ")") x)).
    rewrite cmatch_close, negb_true_iff, Ascii.eqb_neq. split; intros [? ?]; split; congruence.
Qed.

Lemma re_match_key_list s mo :
  re_match true primary_key_cols_re s = Some mo ->
  exists ph ws inner,
    m_text mo = ph ++ ws ++ "("%char :: inner ++ [")"%char] /\
    group_text 1 mo = inner /\
    lang true primary_key_re ph /\ forallb is_space ws = true /\
    inner <> [] /\ ")"%char ∉ inner.
Proof.
  unfold re_match, primary_key_cols_re. cbn [rseq rmatch].
  destruct (lit_prefix true (txt "PRIMARY") s) as [[m1 rest]|] eqn:E1; [|discriminate].
  apply lit_prefix_Some in E1 as [-> L1]. intros H.
  apply plus_greedy_sound in H as (m2 & rest2 & -> & Hne2 & Hm2 & H).
  destruct (lit_prefix true (txt "KEY") rest2) as [[m3 rest3]|] eqn:E3; [|discriminate].
  apply lit_prefix_Some in E3 as [-> L3].
  apply star_greedy_sound in H as (ws & rest4 & -> & Hws & H).
  destruct rest4 as [|x rest4]; [discriminate|].
  destruct (cmatch true (CChar "(") x) eqn:Ex; [|discriminate].
  apply cmatch_open in Ex. subst x.
  apply plus_greedy_sound in H as (inner & rest5 & -> & Hne & Hin & H).
  destruct rest5 as [|y rest5]; [discriminate|].
  rewrite cmatch_close in H. destruct (Ascii.eqb y ")") eqn:Ey; [|discriminate].
  apply Ascii.eqb_eq in Ey. subst y. inversion H; subst; clear H.
  exists (m1 ++ m2 ++ m3), ws, inner. cbn [m_text].
  split; [by rewrite <- !app_assoc|]. split; [reflexivity|].
  split; [|split; [exact Hws|split; [exact Hne|by apply not_rparen_all]]].
  exists m1, (m2 ++ m3). split; [reflexivity|]. split; [exact L1|].
  exists m2, m3. split; [reflexivity|]. split; [split; [exact Hne2|exact Hm2]|exact L3].
Qed.

Lemma key_list_search frag mo :
  re_search true primary_key_cols_re frag = Some mo ->
  key_list frag (group_text 1 mo).
Proof.
  intros H. pose proof (re_search_match _ _ _ _ H) as Hm.
  pose proof (none_starts_in_search _ _ _ _ eq_refl H) as Hleft.
  apply re_search_Some in H as (Hs & _ & _).
  apply re_match_key_list in Hm as (ph & ws & inner & Ht & Hg & Hph & Hws & Hne & Hin).
  cbn [m_text] in Ht. change (group_text 1 mo = inner) in Hg. rewrite Hg.
  exists (m_pre mo), ph, ws, (m_post mo).
  rewrite Ht in Hs, Hleft. rewrite <- !app_assoc in Hs, Hleft.
  cbn [app] in Hs, Hleft. rewrite <- !app_assoc in Hs, Hleft. cbn [app] in Hs, Hleft.
  auto 10.
Qed.

(** *** The words of a column definition *)

Lemma drop_while_all p l rest :
  forallb p l = true -> drop_while p (l ++ rest) = drop_while p rest.
Proof.
  induction l as [|x l IH]; simpl; [done|].
  intros H. apply andb_true_iff in H as [-> H]. by apply IH.
Qed.

Lemma drop_while_stops p s : stops p s -> drop_while p s = s.
Proof. destruct s as [|x s]; simpl; [done|]. by intros ->. Qed.

Lemma span_parts p s a b :
  span p s = (a, b) -> s = a ++ b /\ forallb p a = true /\ stops p b.
Proof.
  revert a b. induction s as [|x s IH]; intros a b H; simpl in H.
  - inversion H; subst. simpl. auto.
  - destruct (p x) eqn:E.
    + destruct (span p s) as [a' b'] eqn:Es. inversion H; subst.
      destruct (IH _ _ eq_refl) as (-> & Ha & Hb). simpl. rewrite E, Ha. auto.
    + inversion H; subst. simpl. auto.
Qed.

Lemma span_app p a b : forallb p a = true -> stops p b -> span p (a ++ b) = (a, b).
Proof.
  intros Ha Hb. induction a as [|x a IH]; simpl.
  - destruct b as [|y b]; [reflexivity|]. simpl in *. by rewrite Hb.
  - simpl in Ha. apply andb_true_iff in Ha as [-> Ha]. by rewrite (IH Ha).
Qed.

Lemma word_head w : word w -> exists x t, w = x :: t /\ is_space x = false.
Proof.
  intros [Hne Hw]. destruct w as [|x t]; [done|]. exists x, t. split; [done|].
  simpl in Hw. apply andb_true_iff in Hw as [Hx _]. by apply negb_true_iff in Hx.
Qed.

Lemma gap_head s : gap s -> exists x t, s = x :: t /\ is_space x = true.
Proof.
  intros [Hne Hs]. destruct s as [|x t]; [done|]. exists x, t. split; [done|].
  simpl in Hs. by apply andb_true_iff in Hs as [Hx _].
Qed.

(** One word cut off: the white space in front, the word, and what is
    left, which does not go on with a character of the word. *)
Lemma word_cut s c s1 :
  drop_while is_space s = c :: s1 ->
  exists s0 w rest,
    s = s0 ++ w ++ rest /\ forallb is_space s0 = true /\ word w /\
    stops not_space rest /\ span not_space (c :: s1) = (w, rest).
Proof.
  intros E. destruct (drop_while_split is_space s) as (s0 & Hs & Hs0).
  rewrite E in Hs. pose proof (drop_while_head _ _ _ _ E) as Hc.
  destruct (span not_space (c :: s1)) as [w rest] eqn:Es.
  destruct (span_parts _ _ _ _ Es) as (Hw & Hall & Hstop).
  exists s0, w, rest. rewrite <- Hw. split; [exact Hs|]. split; [exact Hs0|].
  split; [|split; [exact Hstop|reflexivity]].
  split; [|exact Hall]. simpl in Es. unfold not_space at 1 in Es. rewrite Hc in Es.
  simpl in Es. destruct (span not_space s1). by inversion Es.
Qed.

Lemma split_ws_three s p0 p1 p2 tl :
  split_ws 2 s = p0 :: p1 :: p2 :: tl ->
  tl = [] /\
  exists s0 s1 s2,
    s = s0 ++ p0 ++ s1 ++ p1 ++ s2 ++ p2 /\
    forallb is_space s0 = true /\ word p0 /\ gap s1 /\ word p1 /\ gap s2.
Proof.
  cbn [split_ws].
  destruct (drop_while is_space s) as [|c r] eqn:E; [discriminate|].
  destruct (word_cut _ _ _ E) as (s0 & w0 & rest0 & Hs & Hs0 & Hw0 & Hst0 & Hsp0).
  change (fun x => negb (is_space x)) with not_space. rewrite Hsp0.
  destruct (drop_while is_space rest0) as [|c1 r1] eqn:E1; [discriminate|].
  destruct (word_cut _ _ _ E1) as (s1 & w1 & rest1 & Hs1 & Hs1s & Hw1 & Hst1 & Hsp1).
  rewrite Hsp1.
  destruct (drop_while is_space rest1) as [|c2 r2] eqn:E2; [discriminate|].
  intros H. inversion H; subst. split; [reflexivity|].
  destruct (drop_while_split is_space rest1) as (s2 & Hr1 & Hs2). rewrite E2 in Hr1.
  exists s0, s1, s2. rewrite Hr1 at 1. split; [reflexivity|].
  split; [exact Hs0|]. split; [exact Hw0|]. split; [|split; [exact Hw1|]].
  - split; [|exact Hs1s]. intros ->.
    destruct (word_head _ Hw1) as (x & t & -> & Hx). simpl in Hst0.
    unfold not_space in Hst0. by rewrite Hx in Hst0.
  - split; [|exact Hs2]. intros ->. simpl in Hr1. rewrite Hr1 in Hst1.
    simpl in Hst1. unfold not_space in Hst1.
    rewrite (drop_while_head _ _ _ _ E2) in Hst1. discriminate.
Qed.

Lemma stops_gap s rest : gap s -> stops not_space (s ++ rest).
Proof.
  intros Hs. destruct (gap_head _ Hs) as (x & t & -> & Hx). simpl.
  unfold not_space. by rewrite Hx.
Qed.

Lemma split_ws_word n s0 w rest :
  forallb is_space s0 = true -> word w -> stops not_space rest ->
  split_ws (S n) (s0 ++ w ++ rest) = w :: split_ws n rest.
Proof.
  intros Hs0 Hw Hst. cbn [split_ws].
  change (fun x => negb (is_space x)) with not_space.
  rewrite (drop_while_all _ _ _ Hs0).
  destruct (word_head _ Hw) as (x & t & -> & Hx).
  cbn [app drop_while]. rewrite Hx.
  change (x :: t ++ rest) with ((x :: t) ++ rest).
  by rewrite (span_app not_space (x :: t) rest (proj2 Hw) Hst).
Qed.

Lemma split_ws_words s0 w0 s1 w1 s2 rest c r :
  forallb is_space s0 = true -> word w0 -> gap s1 -> word w1 -> gap s2 ->
  drop_while is_space rest = c :: r ->
  split_ws 2 (s0 ++ w0 ++ s1 ++ w1 ++ s2 ++ rest) = [w0; w1; c :: r].
Proof.
  intros Hs0 Hw0 Hs1 Hw1 Hs2 Hr.
  rewrite (split_ws_word 1 s0 w0 _ Hs0 Hw0 (stops_gap _ _ Hs1)).
  rewrite (split_ws_word 0 s1 w1 _ (proj2 Hs1) Hw1 (stops_gap _ _ Hs2)).
  cbn [split_ws]. by rewrite (drop_while_all _ _ _ (proj2 Hs2)), Hr.
Qed.

Lemma drop_while_twice p s : drop_while p (drop_while p s) = drop_while p s.
Proof.
  destruct (drop_while p s) as [|c t] eqn:E; [reflexivity|].
  simpl. by rewrite (drop_while_head _ _ _ _ E).
Qed.

Lemma occurs_lstrip s :
  occurs true primary_key_re (drop_while is_space s) <-> occurs true primary_key_re s.
Proof.
  rewrite <- (occurs_strip (drop_while is_space s)), <- (occurs_strip s).
  unfold strip, strip_by, lstrip_by. by rewrite drop_while_twice.
Qed.

Lemma occurs_nonempty s : occurs true primary_key_re s -> s <> [].
Proof.
  intros (pre & m & post & -> & L) E.
  apply primary_key_phrase_nonempty in L.
  apply app_eq_nil in E as [_ E]. apply app_eq_nil in E as [E _]. done.
Qed.

(** *** A flagged column *)

Lemma flagged_column_parsed frag c :
  parse_column_definition frag = Some c -> col_is_primary_key c = true ->
  exists w0, flagged_column frag w0 /\ col_name c = strip_quotes w0.
Proof.
  unfold parse_column_definition.
  destruct (split_ws 2 frag) as [|p0 [|p1 [|p2 tl]]] eqn:E; try discriminate.
  { intros H. inversion H; subst. discriminate. }
  destruct (split_ws_three _ _ _ _ _ E) as (-> & s0 & s1 & s2 & Hf & Hs0 & Hw0 & Hs1 & Hw1 & Hs2).
  intros H. inversion H; subst; clear H. cbn [col_is_primary_key col_name].
  intros Hfound. apply bool_decide_eq_true in Hfound.
  apply re_search_is_Some in Hfound. apply (proj1 (occurs_strip p2)) in Hfound.
  exists p0. split; [|reflexivity].
  exists s0, s1, p1, s2, p2. split; [reflexivity|].
  repeat (split; [assumption|]). exact Hfound.
Qed.

Lemma flagged_column_found frag w0 :
  flagged_column frag w0 ->
  exists c, parse_column_definition frag = Some c /\
            col_is_primary_key c = true /\ col_name c = strip_quotes w0.
Proof.
  intros (s0 & s1 & w1 & s2 & rest & -> & Hs0 & Hw0 & Hs1 & Hw1 & Hs2 & Ho).
  pose proof (proj2 (occurs_lstrip rest) Ho) as Ho'.
  destruct (drop_while is_space rest) as [|x r] eqn:Er;
    [by apply occurs_nonempty in Ho'|].
  unfold parse_column_definition.
  rewrite (split_ws_words _ _ _ _ _ _ _ _ Hs0 Hw0 Hs1 Hw1 Hs2 Er).
  eexists. split; [reflexivity|]. cbn [col_is_primary_key col_name].
  split; [|reflexivity].
  apply bool_decide_eq_true, re_search_is_Some. apply (proj2 (occurs_strip _)). exact Ho'.
Qed.

(** *** What one fragment adds *)

Lemma starts_with_true r frag : starts_with r frag = true <-> starts true r frag.
Proof.
  unfold starts_with. rewrite bool_decide_eq_true. split.
  - intros [mo H]. apply re_match_Some in H as (_ & Hs & L). eexists _, _. eauto.
  - intros H. destruct (re_match true r frag) eqn:E; [eauto|].
    apply re_match_None in E. contradiction.
Qed.

Lemma starts_with_false r frag : starts_with r frag = false <-> ~ starts true r frag.
Proof. rewrite <- starts_with_true. by destruct (starts_with r frag). Qed.

Lemma fragment_adds frag : adds_to_primary_key frag (primary_key_of_fragment frag).
Proof.
  unfold primary_key_of_fragment.
  destruct (starts_with primary_key_re frag) eqn:Ep.
  { apply starts_with_true in Ep.
    destruct (re_search true primary_key_cols_re frag) as [mo|] eqn:Es.
    - apply (adds_key_list _ (group_text 1 mo)); [exact Ep| |].
      + by apply key_list_search.
      + apply listed_names_column_list.
    - apply adds_no_list; [exact Ep|]. by apply re_search_None. }
  apply starts_with_false in Ep.
  destruct (starts_with foreign_key_re frag) eqn:Ef.
  { apply adds_other_clause; [exact Ep|]. left. by apply starts_with_true. }
  destruct (starts_with constraint_re frag) eqn:Ec.
  { apply adds_other_clause; [exact Ep|]. right. by apply starts_with_true. }
  apply starts_with_false in Ef, Ec. cbn [orb].
  assert (Hcol : column_fragment frag) by (split; [|split]; assumption).
  destruct (parse_column_definition frag) as [c|] eqn:Ed.
  - destruct (col_is_primary_key c) eqn:Ek.
    + destruct (flagged_column_parsed _ _ Ed Ek) as (w0 & Hw & ->).
      apply (adds_flagged_column _ w0); [exact Hcol|exact Hw|apply strip_quotes_edges].
    + apply adds_plain_column; [exact Hcol|]. intros w0 Hw.
      destruct (flagged_column_found _ _ Hw) as (c' & Hc' & Hk & _). congruence.
  - apply adds_plain_column; [exact Hcol|]. intros w0 Hw.
    destruct (flagged_column_found _ _ Hw) as (c' & Hc' & _). congruence.
Qed.

Lemma fragments_add frags :
  Forall2 adds_to_primary_key frags (map primary_key_of_fragment frags).
Proof. induction frags; constructor; [apply fragment_adds|assumption]. Qed.

End KeyFacts.

Module KeyUnique.
Import Text Re SqlParser Spec Pipeline Clauses.
Import ReFacts TextFacts PhraseFacts ParserFacts EdgeFacts ClauseFacts KeyFacts.

#[local] Arguments txt : simpl never.
#[local] Arguments cmatch : simpl never.

(** *** What is left of a text without the characters at its ends *)

Lemma drop_while_all_nil p l : forallb p l = true -> drop_while p l = [].
Proof.
  intros H. rewrite <- (app_nil_r l). by rewrite (drop_while_all _ _ _ H).
Qed.

Lemma clean_edges_head p x t : clean_edges p (x :: t) = true -> p x = false.
Proof.
  unfold clean_edges. intros H. apply andb_true_iff in H as [H _].
  by apply negb_true_iff in H.
Qed.

Lemma clean_edges_last p t y : clean_edges p (t ++ [y]) = true -> p y = false.
Proof.
  unfold clean_edges. intros H. apply andb_true_iff in H as [_ H].
  rewrite rev_app_distr in H. simpl in H. by apply negb_true_iff in H.
Qed.

Lemma edges_removed_strip_by p s t : edges_removed p s t -> t = strip_by p s.
Proof.
  intros (l & r & -> & Hl & Hr & Hc). unfold strip_by, rstrip_by, lstrip_by.
  rewrite (drop_while_all _ _ _ Hl).
  destruct t as [|x t]; simpl.
  - by rewrite (drop_while_all_nil _ _ Hr).
  - rewrite (clean_edges_head _ _ _ Hc).
    destruct (exists_last (l:=x :: t)) as (t' & y & E); [done|].
    rewrite E in Hc. apply clean_edges_last in Hc.
    change (x :: t ++ r) with ((x :: t) ++ r). rewrite E.
    rewrite rev_app_distr, rev_app_distr. cbn [rev app].
    rewrite (drop_while_all _ _ _ (forallb_rev_true _ _ Hr)).
    cbn [drop_while]. rewrite Hc. cbn [rev]. by rewrite rev_involutive.
Qed.

Lemma item_name_strip item name : item_name item name -> name = strip_quotes (strip item).
Proof.
  intros (t & Ht & Hn). apply edges_removed_strip_by in Ht. subst t.
  apply (edges_removed_ext _ (mem_char quote_chars)) in Hn;
    [|intros c; symmetry; apply quote_character_mem].
  by apply edges_removed_strip_by in Hn.
Qed.

(** *** The items of a list are those the code cuts *)

Lemma split_char_none sep x : sep ∉ x -> split_char sep x = [x].
Proof.
  induction x as [|c x IH]; intros H; [reflexivity|].
  apply not_elem_of_cons in H as [Hc H]. cbn [split_char].
  rewrite (proj2 (Ascii.eqb_neq c sep)) by congruence. by rewrite (IH H).
Qed.

Lemma split_char_item sep x rest :
  sep ∉ x -> split_char sep (x ++ sep :: rest) = x :: split_char sep rest.
Proof.
  induction x as [|c x IH]; intros H.
  - simpl. by rewrite Ascii.eqb_refl.
  - apply not_elem_of_cons in H as [Hc H]. cbn [app split_char].
    rewrite (proj2 (Ascii.eqb_neq c sep)) by congruence. by rewrite (IH H).
Qed.

Lemma split_char_joined xs : forall x,
  Forall (fun item => ","%char ∉ item) (x :: xs) ->
  split_char "," (join [","%char] (x :: xs)) = x :: xs.
Proof.
  induction xs as [|y ys IH]; intros x H.
  - inversion H; subst. simpl. by apply split_char_none.
  - inversion H; subst.
    change (join [","%char] (x :: y :: ys)) with (x ++ ","%char :: join [","%char] (y :: ys)).
    rewrite split_char_item by assumption. by rewrite IH.
Qed.

Lemma comma_separated_unique s items :
  comma_separated s items -> items = split_char "," s.
Proof.
  intros (-> & Hne & Hall). destruct items as [|x xs]; [done|].
  symmetry. by apply split_char_joined.
Qed.

Lemma listed_names_unique s names : listed_names s names -> names = column_list s.
Proof.
  intros (items & Hi & Hn). apply comma_separated_unique in Hi. subst items.
  unfold column_list. induction Hn as [|item name items names H _ IH]; [reflexivity|].
  simpl. by rewrite <- (item_name_strip _ _ H), <- IH.
Qed.

(** *** The first key list is the one the search finds *)

Lemma lit_eq_length ic l m : lit_eq ic l m = true -> length m = length l.
Proof.
  revert m. induction l as [|a l IH]; intros [|b m] H; simpl in *; try congruence.
  apply andb_true_iff in H as [_ H]. by rewrite (IH _ H).
Qed.

Lemma lit_eq_head ic a l m :
  lit_eq ic (a :: l) m = true -> exists x t, m = x :: t /\ cmatch ic (CChar a) x = true.
Proof.
  destruct m as [|x t]; simpl; [discriminate|].
  intros H. apply andb_true_iff in H as [H _]. eauto.
Qed.

(** Two runs of characters of [p] in front of texts that do not go on with
    one are the same run. *)
Lemma run_unique p a b a' b' :
  forallb p a = true -> forallb p a' = true -> stops p b -> stops p b' ->
  a ++ b = a' ++ b' -> a = a' /\ b = b'.
Proof.
  revert a'. induction a as [|x a IH]; intros [|x' a'] Ha Ha' Hb Hb' E; simpl in *.
  - auto.
  - subst b. simpl in Hb. apply andb_true_iff in Ha' as [Hx _]. congruence.
  - subst b'. simpl in Hb'. apply andb_true_iff in Ha as [Hx _]. congruence.
  - inversion E; subst. apply andb_true_iff in Ha as [_ Ha].
    apply andb_true_iff in Ha' as [_ Ha'].
    destruct (IH a' Ha Ha' Hb Hb' H1) as [-> ->]. auto.
Qed.

Lemma not_close_all s :
  ")"%char ∉ s -> forallb (fun c => negb (Ascii.eqb c ")")) s = true.
Proof.
  induction s as [|x s IH]; intros H; [reflexivity|].
  apply not_elem_of_cons in H as [Hx H]. simpl. rewrite (IH H), andb_true_r.
  apply negb_true_iff, Ascii.eqb_neq. congruence.
Qed.

Lemma key_phrase_parts ph :
  lang true primary_key_re ph ->
  exists m1 m2 m3,
    ph = m1 ++ m2 ++ m3 /\ lit_eq true (txt "PRIMARY") m1 = true /\
    gap m2 /\ lit_eq true (txt "KEY") m3 = true.
Proof.
  intros (m1 & m' & -> & L1 & m2 & m3 & -> & L2 & L3). simpl in L1, L2, L3.
  exists m1, m2, m3. auto.
Qed.

Lemma key_stops m3 rest : lit_eq true (txt "KEY") m3 = true -> stops is_space (m3 ++ rest).
Proof.
  intros H. apply lit_eq_head in H as (x & t & -> & Hx). simpl.
  eapply cmatch_not_space; [exact Hx|reflexivity].
Qed.

(** The list of one fragment: every decomposition names the same one. *)
Lemma key_list_parts ph ws inner post ph' ws' inner' post' :
  lang true primary_key_re ph -> forallb is_space ws = true -> ")"%char ∉ inner ->
  lang true primary_key_re ph' -> forallb is_space ws' = true -> ")"%char ∉ inner' ->
  ph ++ ws ++ "("%char :: inner ++ ")"%char :: post =
  ph' ++ ws' ++ "("%char :: inner' ++ ")"%char :: post' ->
  inner = inner'.
Proof.
  intros Hph Hws Hin Hph' Hws' Hin' E.
  apply key_phrase_parts in Hph as (m1 & m2 & m3 & -> & L1 & G2 & L3).
  apply key_phrase_parts in Hph' as (n1 & n2 & n3 & -> & K1 & F2 & K3).
  rewrite <- !app_assoc in E.
  apply app_inj_1 in E as [_ E];
    [|by rewrite (lit_eq_length _ _ _ L1), (lit_eq_length _ _ _ K1)].
  apply (run_unique is_space) in E as [_ E];
    [|exact (proj2 G2)|exact (proj2 F2)|by apply key_stops|by apply key_stops].
  apply app_inj_1 in E as [_ E];
    [|by rewrite (lit_eq_length _ _ _ L3), (lit_eq_length _ _ _ K3)].
  apply (run_unique is_space) in E as [_ E];
    [|exact Hws|exact Hws'|reflexivity|reflexivity].
  inversion E as [E'].
  apply (run_unique (fun c => negb (Ascii.eqb c ")"))) in E' as [E' _];
    [exact E'|by apply not_close_all|by apply not_close_all|reflexivity|reflexivity].
Qed.

Lemma key_list_lang ph ws inner :
  lang true primary_key_re ph -> forallb is_space ws = true ->
  inner <> [] -> ")"%char ∉ inner ->
  lang true primary_key_cols_re (ph ++ ws ++ "("%char :: inner ++ [")"%char]).
Proof.
  intros Hph Hws Hne Hin.
  apply key_phrase_parts in Hph as (m1 & m2 & m3 & -> & L1 & G2 & L3).
  unfold primary_key_cols_re. cbn [rseq lang].
  exists m1, (m2 ++ m3 ++ ws ++ "("%char :: inner ++ [")"%char]).
  split; [by rewrite <- !app_assoc|]. split; [exact L1|].
  exists m2, (m3 ++ ws ++ "("%char :: inner ++ [")"%char]).
  split; [reflexivity|]. split; [exact G2|].
  exists m3, (ws ++ "("%char :: inner ++ [")"%char]).
  split; [reflexivity|]. split; [exact L3|].
  exists ws, ("("%char :: inner ++ [")"%char]).
  split; [reflexivity|]. split; [exact Hws|].
  exists ["("%char], (inner ++ [")"%char]).
  split; [reflexivity|]. split; [exists "("%char; split; reflexivity|].
  exists inner, [")"%char].
  split; [reflexivity|]. split; [split; [exact Hne|by apply not_rparen_all]|].
  exists ")"%char. split; reflexivity.
Qed.

Lemma key_list_found frag inner :
  key_list frag inner ->
  exists mo, re_search true primary_key_cols_re frag = Some mo /\
             group_text 1 mo = inner.
Proof.
  intros (pre & ph & ws & post & Hf & Hph & Hws & Hne & Hin & Hleft).
  pose proof (key_list_lang _ _ _ Hph Hws Hne Hin) as L.
  assert (Ho : occurs true primary_key_cols_re frag).
  { exists pre, (ph ++ ws ++ "("%char :: inner ++ [")"%char]), post.
    split; [|exact L]. rewrite Hf. rewrite <- !app_assoc. cbn [app].
    by rewrite <- !app_assoc. }
  apply re_search_is_Some in Ho as [mo Hmo]. exists mo. split; [exact Hmo|].
  pose proof (re_search_match _ _ _ _ Hmo) as Hm.
  destruct (re_search_Some _ _ _ _ Hmo) as (Hs & Lmo & Hl).
  apply re_match_key_list in Hm as (ph' & ws' & inner' & Ht & Hg & Hph' & Hws' & Hne' & Hin').
  cbn [m_text] in Ht. change (group_text 1 mo = inner') in Hg. rewrite Hg.
  assert (Hpre : m_pre mo = pre).
  { rewrite Hf in Hs. apply app_eq_inv in Hs as [(k & Hk & Hr)|(k & Hk & Hr)].
    - destruct k as [|x k]; [by rewrite app_nil_r in Hk|]. exfalso.
      apply (Hleft (m_pre mo) (x :: k) (m_text mo) (m_post mo) Hk); [done| |exact Lmo].
      by rewrite <- Hr.
    - destruct k as [|x k]; [by rewrite app_nil_r in Hk|]. exfalso.
      apply (Hl pre (x :: k) Hk); [done|].
      exists (ph ++ ws ++ "("%char :: inner ++ [")"%char]), post.
      split; [|exact L]. rewrite <- Hr. rewrite <- !app_assoc. cbn [app].
      by rewrite <- !app_assoc. }
  rewrite Hf, Hpre in Hs. apply app_inv_head in Hs. rewrite Ht in Hs.
  rewrite <- !app_assoc in Hs. cbn [app] in Hs. rewrite <- !app_assoc in Hs.
  cbn [app] in Hs. symmetry.
  exact (key_list_parts _ _ _ _ _ _ _ _ Hph Hws Hin Hph' Hws' Hin' Hs).
Qed.

(** *** A fragment adds one thing only *)

Lemma fragment_adds_unique frag names :
  adds_to_primary_key frag names -> names = primary_key_of_fragment frag.
Proof.
  unfold primary_key_of_fragment.
  intros [inner names' Hs Hk Hn|Hs Hn|Hs Ho|w0 name Hc Hw He|Hc Hn].
  - rewrite (proj2 (starts_with_true _ _) Hs).
    apply key_list_found in Hk as (mo & -> & <-). by apply listed_names_unique.
  - rewrite (proj2 (starts_with_true _ _) Hs).
    by rewrite (proj2 (re_search_None _ _ _) Hn).
  - rewrite (proj2 (starts_with_false _ _) Hs).
    destruct Ho as [Ho|Ho]; rewrite (proj2 (starts_with_true _ _) Ho);
      [reflexivity|by rewrite orb_true_r].
  - destruct Hc as (H1 & H2 & H3).
    rewrite (proj2 (starts_with_false _ _) H1), (proj2 (starts_with_false _ _) H2),
      (proj2 (starts_with_false _ _) H3). cbn [orb].
    destruct (flagged_column_found _ _ Hw) as (c & -> & -> & ->).
    apply (edges_removed_ext _ (mem_char quote_chars)) in He;
      [|intros x; symmetry; apply quote_character_mem].
    by rewrite (edges_removed_strip_by _ _ _ He).
  - destruct Hc as (H1 & H2 & H3).
    rewrite (proj2 (starts_with_false _ _) H1), (proj2 (starts_with_false _ _) H2),
      (proj2 (starts_with_false _ _) H3). cbn [orb].
    destruct (parse_column_definition frag) as [c|] eqn:Ed; [|reflexivity].
    destruct (col_is_primary_key c) eqn:Ek; [|reflexivity].
    destruct (flagged_column_parsed _ _ Ed Ek) as (w0 & Hw & _).
    by destruct (Hn w0).
Qed.

Lemma fragments_add_unique frags added :
  Forall2 adds_to_primary_key frags added ->
  added = map primary_key_of_fragment frags.
Proof.
  induction 1 as [|frag names frags added Hn _ IH]; [reflexivity|].
  cbn [map]. by rewrite <- (fragment_adds_unique _ _ Hn), <- IH.
Qed.

End KeyUnique.

Module NameUnique.
Import Text Re SqlParser Spec Pipeline Clauses.
Import ReFacts TextFacts PhraseFacts ParserFacts EdgeFacts ClauseFacts KeyFacts KeyUnique.

#[local] Arguments txt : simpl never.
#[local] Arguments cmatch : simpl never.

Lemma constraint_word_lang kw ws tok :
  lit_eq true (txt "CONSTRAINT") kw = true -> gap ws -> word tok ->
  lang true constraint_name_re (kw ++ ws ++ tok).
Proof.
  intros Hkw Hws Htok. unfold constraint_name_re. cbn [rseq lang].
  exists kw, (ws ++ tok). split; [reflexivity|]. split; [exact Hkw|].
  exists ws, tok. split; [reflexivity|]. split; [exact Hws|exact Htok].
Qed.

Lemma word_stops w rest : word w -> stops is_space (w ++ rest).
Proof. intros H. destruct (word_head _ H) as (x & t & -> & Hx). exact Hx. Qed.

Lemma first_constraint_word_found fk_def tok :
  first_constraint_word fk_def tok ->
  exists mo, re_search true constraint_name_re fk_def = Some mo /\
             group_text 1 mo = tok.
Proof.
  intros (pre & kw & ws & post & Hf & Hkw & Hws & Htok & Hpost & Hleft).
  pose proof (constraint_word_lang _ _ _ Hkw Hws Htok) as L.
  assert (Ho : occurs true constraint_name_re fk_def).
  { exists pre, (kw ++ ws ++ tok), post. split; [|exact L].
    rewrite Hf. by rewrite <- !app_assoc. }
  apply re_search_is_Some in Ho as [mo Hmo]. exists mo. split; [exact Hmo|].
  pose proof (re_search_match _ _ _ _ Hmo) as Hm.
  destruct (re_search_Some _ _ _ _ Hmo) as (Hs & Lmo & Hl).
  apply re_match_constraint_name in Hm
    as (kw' & ws' & tok' & Ht & Hg & Hkw' & Hws' & Htok' & Hpost').
  cbn [m_text m_post] in Ht, Hpost'. change (group_text 1 mo = tok') in Hg. rewrite Hg.
  assert (Hpre : m_pre mo = pre).
  { rewrite Hf in Hs. apply app_eq_inv in Hs as [(k & Hk & Hr)|(k & Hk & Hr)].
    - destruct k as [|x k]; [by rewrite app_nil_r in Hk|]. exfalso.
      apply (Hleft (m_pre mo) (x :: k) (m_text mo) (m_post mo) Hk); [done| |exact Lmo].
      by rewrite <- Hr.
    - destruct k as [|x k]; [by rewrite app_nil_r in Hk|]. exfalso.
      apply (Hl pre (x :: k) Hk); [done|].
      exists (kw ++ ws ++ tok), post. split; [|exact L].
      rewrite <- Hr. by rewrite <- !app_assoc. }
  rewrite Hf, Hpre in Hs. apply app_inv_head in Hs. rewrite Ht in Hs.
  rewrite <- !app_assoc in Hs.
  apply app_inj_1 in Hs as [_ Hs];
    [|by rewrite (lit_eq_length _ _ _ Hkw), (lit_eq_length _ _ _ Hkw')].
  apply (run_unique is_space) in Hs as [_ Hs];
    [|exact (proj2 Hws)|exact (proj2 Hws')|by apply word_stops|by apply word_stops].
  apply (run_unique not_space) in Hs as [Hs _];
    [by symmetry|exact (proj2 Htok)|exact (proj2 Htok')|exact Hpost|exact Hpost'].
Qed.

End NameUnique.

(* ===================================================================== *)
(** * The claims of the specification *)
(* ===================================================================== *)

Import Text Re SqlParser Py Raw AstBuilder Validators Spec Pipeline Order Clauses.
Import ReFacts SplitFacts BodyFacts ParserFacts TextFacts PhraseFacts.
Import ValidatorFacts BuilderFacts MessageFacts DepthFacts.
Import OrderFacts ArityFacts ClauseFacts KeyFacts KeyUnique NameUnique.

#[local] Arguments txt : simpl never.

(** C1.  Validation returns success or one error, the first failure among
    the checks in document order: the top-level keys; then, table by table,
    the required keys, each column in order (its fields, then its name
    against the names in front of it) and the primary-key list in order;
    and only behind the checks of all the tables the foreign keys, table by
    table.  So a table with a structural fault decides the error when the
    tables in front of it pass the first pass, whatever their foreign keys
    are. *)
Theorem validate_schema_first_error (schema : pyval) :
  validate_schema schema = outcome true (document_order schema) /\
  (forall d pre table post e,
      schema = PDict d ->
      dict_get (txt "tables") d = Some (PList (pre ++ table :: post)) ->
      first_failure (first_pass_checks 0 pre) = None ->
      first_failure (table_checks (length pre) table) = Some e ->
      validate_schema schema = Raise e).
Proof.
  split; [apply validate_schema_checked|].
  intros d pre table post e -> Hd Hpre He.
  rewrite validate_schema_checked. unfold outcome, document_order.
  rewrite has_key_dict, field_dict, Hd. cbn [default from_option id list_items].
  rewrite (first_failure_app [_; _; _]). cbn [first_failure need is_dict is_list].
  rewrite first_failure_app, first_pass_checks_app, first_failure_app, Hpre.
  change (0 + length pre) with (length pre).
  cbn [first_pass_checks]. by rewrite first_failure_app, He.
Qed.

Lemma validate_schema_first_error_witness :
  (exists e, first_failure
               (second_pass_checks
                  (list_items (field "tables" (PDict Examples.orders_then_items)))
                  (take 1 (list_items (field "tables" (PDict Examples.orders_then_items)))))
             = Some e) /\
  validate_schema (PDict Examples.orders_then_items) =
  Raise (SchemaValidationError
           [Lit "Duplicate column name '"; Fmt (PStr (txt "id"));
            Lit "' in table '"; Fmt (PStr (txt "items")); Lit "'"]).
Proof.
  split; [eexists; vm_compute; reflexivity|].
  refine (proj2 (validate_schema_first_error (PDict Examples.orders_then_items))
            Examples.orders_then_items [_] _ [] _ eq_refl eq_refl _ _);
    vm_compute; reflexivity.
Defined.

(** C2, as stated, fails: with a parenthesis behind the column list the
    body goes on to the last close parenthesis, not to the matching one. *)
Lemma definitions_not_matching :
  has_parentheses Examples.with_options = true /\
  definitions Examples.with_options = Some (txt "a INT) WITH (x") /\
  matching_body Examples.with_options = Some (txt "a INT") /\
  definitions Examples.with_options <> matching_body Examples.with_options.
Proof. vm_compute. repeat split; discriminate. Qed.

(** C2, amended.  The table body is the text between the first open
    parenthesis of the statement and the last close parenthesis behind it;
    there is a body exactly when there is such a pair; and the body is the
    text up to the matching close parenthesis when no close parenthesis
    follows that one. *)
Theorem definitions_first_to_last (text : str) :
  definitions text = greedy_body text /\
  (is_Some (definitions text) <-> has_parentheses text = true) /\
  (forall body rest,
      matching_span text = Some (body, rest) -> ")"%char ∉ rest ->
      definitions text = Some body).
Proof.
  split; [apply definitions_greedy|].
  split; [apply definitions_is_Some|apply definitions_matching].
Qed.

Lemma definitions_first_to_last_witness :
  definitions (txt "CREATE TABLE t (a DECIMAL(10,2))") = Some (txt "a DECIMAL(10,2)").
Proof.
  destruct (definitions_first_to_last (txt "CREATE TABLE t (a DECIMAL(10,2))"))
    as (_ & _ & H).
  apply (H _ []); [vm_compute; reflexivity|]. apply not_elem_of_nil.
Defined.

(** C7, as stated, fails: the text after the last top-level comma is not
    returned when it is empty. *)
Lemma split_by_comma_drops_last :
  top_level_pieces (txt "a,") = [txt "a"; []] /\
  split_by_comma (txt "a,") = [txt "a"] /\
  top_level_pieces [] = [[]] /\
  split_by_comma [] = [] /\
  split_by_comma (txt "a,") <> top_level_pieces (txt "a,").
Proof. vm_compute. repeat split; discriminate. Qed.

(** C7, amended.  The splitter returns, in order, the substrings delimited
    by the commas at parenthesis depth zero, except that the last substring
    is left out when it is empty.  The depth in front of a character is the
    number of open parentheses minus the number of close parentheses before
    it; joining the substrings with commas gives the text back, so a comma
    at another depth stays inside its substring; every text is split,
    balanced or not. *)
Theorem split_by_comma_top_level (text : str) :
  split_by_comma text = drop_empty_last (top_level_pieces text) /\
  join [","%char] (top_level_pieces text) = text /\
  annotate 0 text =
    zip text (map (fun i => (0 + count_char "(" (take i text)
                               - count_char ")" (take i text))%Z)
                  (seq 0 (length text))) /\
  split_by_comma (txt ")a,b(,c") = [txt ")a,b("; txt "c"].
Proof.
  split; [apply split_by_comma_pieces|]. split; [apply (join_pieces text 0)|].
  split; [apply annotate_depths|]. vm_compute. reflexivity.
Qed.

(** C3, as stated, fails: the key of the clause has a prefix length, the
    column list of the clause is a(10) and b, and the primary key of the
    statement is the one text that stands in front of the first close
    parenthesis. *)
Lemma key_list_cut_at_parenthesis :
  fragments (stmt_str ClauseExamples.prefix_key) =
    [txt "a VARCHAR(20)"; txt "b INT"; txt "PRIMARY KEY (a(10), b)"] /\
  stated_key_columns (txt "PRIMARY KEY (a(10), b)") = [txt "a(10)"; txt "b"] /\
  tbl_primary_key <$> parse_create_table ClauseExamples.prefix_key =
    Some [txt "a(10"] /\
  [txt "a(10"] <> stated_key_columns (txt "PRIMARY KEY (a(10), b)").
Proof. vm_compute. repeat split. discriminate. Qed.

(** C3, amended.  The primary key of a parsed statement is the
    concatenation, fragment by fragment and in order, of what each fragment
    adds, and nothing is removed.  A fragment that begins with PRIMARY KEY
    adds the names of its first parenthesised list behind that phrase, the
    list ending at the first close parenthesis: the items between its
    commas, each without the white space and then without the quote
    characters at its ends; it adds nothing when it has no such list.  A
    fragment that begins with FOREIGN KEY or CONSTRAINT adds nothing.  Any
    other fragment adds its first word, without the quote characters at
    its ends, when the phrase PRIMARY KEY stands behind its second word,
    and nothing otherwise.  What a fragment adds is determined by the
    fragment; the clause PRIMARY KEY (a, b) adds a and b in that order. *)
Theorem primary_key_concatenation (stmt : list token) (t : table_def) :
  parse_create_table stmt = Some t ->
  (exists added,
     Forall2 adds_to_primary_key (fragments (stmt_str stmt)) added /\
     tbl_primary_key t = concat added) /\
  (forall added,
     Forall2 adds_to_primary_key (fragments (stmt_str stmt)) added ->
     tbl_primary_key t = concat added) /\
  (forall names,
     adds_to_primary_key (txt "PRIMARY KEY (a, b)") names <->
     names = [txt "a"; txt "b"]).
Proof.
  intros H.
  assert (Hpk : tbl_primary_key t =
                concat (map primary_key_of_fragment (fragments (stmt_str stmt)))).
  { unfold parse_create_table in H.
    destruct (find_table_name stmt false) as [[|c n]|]; try discriminate.
    inversion H; subst. simpl. apply collect_primary_key. }
  split; [|split].
  - eexists. split; [apply fragments_add|exact Hpk].
  - intros added Ha. by rewrite Hpk, (fragments_add_unique _ _ Ha).
  - intros names. split.
    + intros Hn. by rewrite (fragment_adds_unique _ _ Hn).
    + intros ->. exact (fragment_adds (txt "PRIMARY KEY (a, b)")).
Qed.

Lemma primary_key_concatenation_witness :
  tbl_primary_key <$> parse_create_table ClauseExamples.quoted_keys =
  Some [txt "a"; txt "b"; txt "a"; txt "c"].
Proof.
  destruct (parse_create_table ClauseExamples.quoted_keys) as [t|] eqn:E;
    [|vm_compute in E; discriminate].
  change (Some (tbl_primary_key t) = Some [txt "a"; txt "b"; txt "a"; txt "c"]).
  destruct (primary_key_concatenation _ _ E) as ((added & Ha & ->) & _ & _).
  rewrite (fragments_add_unique _ _ Ha). vm_compute. reflexivity.
Defined.

(** C5, as stated, fails: the fragment has the keyword CONSTRAINT and no
    name behind it, both clauses are found, and the foreign key is named
    FOREIGN, not fk_t_a. *)
Lemma constraint_keyword_names_key :
  ~ occurs true named_constraint_re ClauseExamples.unnamed_constraint /\
  exists fk,
    parse_foreign_key ClauseExamples.unnamed_constraint = Some fk /\
    fk_name fk = txt "FOREIGN" /\
    synthesized_name fk = txt "fk_t_a" /\
    fk_name fk <> synthesized_name fk.
Proof.
  split; [apply re_search_None; vm_compute; reflexivity|].
  eexists. split; [vm_compute; reflexivity|].
  vm_compute. repeat split. discriminate.
Qed.

(** C5, amended.  A foreign key that parses gets the synthesized name, fk_,
    the referenced table, an underscore and the local columns joined by
    underscores, when the word CONSTRAINT with white space and a word
    behind it occurs nowhere in the fragment.  Otherwise the word behind
    the first such CONSTRAINT, whatever it is, is taken without the quote
    characters at its ends: it is the name unless nothing is left of it,
    and then the name is the synthesized one. *)
Theorem foreign_key_name_synthesized (fk_def : str) (fk : foreign_key_def) :
  parse_foreign_key fk_def = Some fk ->
  (~ occurs true constraint_name_re fk_def -> fk_name fk = synthesized_name fk) /\
  (occurs true constraint_name_re fk_def ->
   exists tok name,
     first_constraint_word fk_def tok /\
     edges_removed quote_character tok name) /\
  (forall tok name,
     first_constraint_word fk_def tok -> edges_removed quote_character tok name ->
     fk_name fk = match name with
                  | [] => synthesized_name fk
                  | _ => name
                  end).
Proof.
  intros H. rewrite (parsed_foreign_key_name _ _ H). split; [|split].
  - intros Hn. apply re_search_None in Hn. by rewrite Hn.
  - intros Ho. apply re_search_is_Some in Ho as [mo Hmo].
    exists (group_text 1 mo), (strip_quotes (group_text 1 mo)).
    split; [by apply first_constraint_word_search|apply strip_quotes_edges].
  - intros tok name Ht Hn.
    destruct (first_constraint_word_found _ _ Ht) as (mo & Hmo & Hg).
    rewrite Hmo, Hg.
    apply (edges_removed_ext _ (mem_char quote_chars)) in Hn;
      [|intros x; symmetry; apply quote_character_mem].
    apply edges_removed_strip_by in Hn. change (name = strip_quotes tok) in Hn.
    subst name. by destruct (strip_quotes tok).
Qed.

Lemma foreign_key_name_synthesized_witness :
  (exists fk, parse_foreign_key Examples.unnamed_reference = Some fk /\
              fk_name fk = txt "fk_other_c") /\
  (exists fk, parse_foreign_key ClauseExamples.two_column_reference = Some fk /\
              fk_name fk = txt "fk_t_a_b") /\
  (exists fk, parse_foreign_key ClauseExamples.quoted_constraint = Some fk /\
              fk_name fk = txt "fk_1") /\
  (exists fk, parse_foreign_key ClauseExamples.empty_constraint_name = Some fk /\
              fk_name fk = txt "fk_t_a_b").
Proof.
  split; [|split; [|split]].
  - destruct (parse_foreign_key Examples.unnamed_reference) as [fk|] eqn:E;
      [|vm_compute in E; discriminate].
    exists fk. split; [reflexivity|].
    rewrite (proj1 (foreign_key_name_synthesized _ _ E)).
    + vm_compute in E. inversion E; subst. vm_compute. reflexivity.
    + apply re_search_None. vm_compute. reflexivity.
  - destruct (parse_foreign_key ClauseExamples.two_column_reference) as [fk|] eqn:E;
      [|vm_compute in E; discriminate].
    exists fk. split; [reflexivity|].
    rewrite (proj1 (foreign_key_name_synthesized _ _ E)).
    + vm_compute in E. inversion E; subst. vm_compute. reflexivity.
    + apply re_search_None. vm_compute. reflexivity.
  - destruct (parse_foreign_key ClauseExamples.quoted_constraint) as [fk|] eqn:E;
      [|vm_compute in E; discriminate].
    exists fk. split; [reflexivity|].
    rewrite (proj2 (proj2 (foreign_key_name_synthesized _ _ E))
               (txt "`fk_1`") (txt "fk_1")).
    + reflexivity.
    + exists [], (txt "CONSTRAINT"), (txt " "), (txt " FOREIGN KEY (a) REFERENCES t(b)").
      split; [reflexivity|]. split; [reflexivity|].
      split; [split; [discriminate|reflexivity]|].
      split; [split; [discriminate|reflexivity]|].
      split; [reflexivity|].
      intros a b m post Hab Hb. symmetry in Hab.
      apply app_eq_nil in Hab as [_ ->]. done.
    + exists (txt "`"), (txt "`"). repeat split.
  - destruct (parse_foreign_key ClauseExamples.empty_constraint_name) as [fk|] eqn:E;
      [|vm_compute in E; discriminate].
    exists fk. split; [reflexivity|].
    rewrite (proj2 (proj2 (foreign_key_name_synthesized _ _ E)) (txt "``") []).
    + vm_compute in E. inversion E; subst. vm_compute. reflexivity.
    + exists [], (txt "CONSTRAINT"), (txt " "), (txt " FOREIGN KEY (a, b) REFERENCES t(x, y)").
      split; [reflexivity|]. split; [reflexivity|].
      split; [split; [discriminate|reflexivity]|].
      split; [split; [discriminate|reflexivity]|].
      split; [reflexivity|].
      intros a b m post Hab Hb. symmetry in Hab.
      apply app_eq_nil in Hab as [_ ->]. done.
    + exists (txt "`"), (txt "`"). repeat split.
Defined.

(** C8.  A fragment without the FOREIGN KEY column list, or without the
    REFERENCES clause, gives no foreign key; when such a fragment is one of
    those handed to the foreign-key parser, the loop over the fragments
    goes on as if the fragment were not there. *)
Theorem foreign_key_fragment_skipped (part : str) (before after : list str)
    (st : collected) :
  ~ occurs true foreign_key_cols_re (strip part) \/
  ~ occurs true references_re (strip part) ->
  parse_foreign_key (strip part) = None /\
  (foreign_key_fragment (strip part) = true ->
   process_part st part = st /\
   fold_left process_part (before ++ part :: after) st =
   fold_left process_part (before ++ after) st).
Proof.
  intros H. apply parse_foreign_key_None in H. split; [exact H|].
  intros Hf. split; [by apply process_part_skip|].
  rewrite !fold_left_app. simpl. by rewrite process_part_skip.
Qed.

Lemma foreign_key_fragment_skipped_witness :
  fold_left process_part [txt "a INT"; txt " FOREIGN KEY (a)"; txt "b INT"]
            (Collected [] [] []) =
  fold_left process_part [txt "a INT"; txt "b INT"] (Collected [] [] []).
Proof.
  refine (proj2 (proj2 (foreign_key_fragment_skipped (txt " FOREIGN KEY (a)")
                          [txt "a INT"] [txt "b INT"] (Collected [] [] []) _) _)).
  - right. apply re_search_None. vm_compute. reflexivity.
  - vm_compute. reflexivity.
Defined.



(** C10, as stated, fails: a name token is found behind TABLE, and the
    statement is dropped all the same, the name being empty once its quote
    characters are stripped. *)
Lemma empty_name_dropped :
  find_table_name Examples.empty_backticks false = Some [] /\
  is_Some (find_table_name Examples.empty_backticks false) /\
  parse_create_table Examples.empty_backticks = None.
Proof. vm_compute. repeat split. eauto. Qed.

(** C10, amended.  A statement gives no table exactly when no name token is
    found or the name found is empty once its quote characters are
    stripped, and then the statement is left out of the result.  A
    statement with a name that is not empty and without a pair of
    parentheses gives a table with that name and no columns, no primary key
    and no foreign keys, which the validator rejects for having no column. *)
Theorem parse_create_table_skipped (stmt : list token) :
  (parse_create_table stmt = None <->
     find_table_name stmt false = None \/ find_table_name stmt false = Some []) /\
  (forall rest,
     parse_create_table stmt = None ->
     parse_statements (Statement (txt "CREATE") stmt :: rest) = parse_statements rest) /\
  (forall name,
     find_table_name stmt false = Some name -> name <> [] ->
     has_parentheses (stmt_str stmt) = false ->
     parse_create_table stmt = Some (TableDef name [] [] []) /\
     (forall i,
        validate_table (table_to_py (TableDef name [] [] [])) i =
        Raise (SchemaValidationError
                 [Lit "Table '"; Fmt (PStr name);
                  Lit "' must have at least one column"])) /\
     validate_schema (parsed_to_py [TableDef name [] [] []]) =
     Raise (SchemaValidationError
              [Lit "Table '"; Fmt (PStr name);
               Lit "' must have at least one column"])).
Proof.
  split; [|split].
  - unfold parse_create_table.
    destruct (find_table_name stmt false) as [[|c n]|]; split; intros H;
      try discriminate; try tauto; destruct H; discriminate.
  - intros rest H. cbn [parse_statements get_type tokens]. by rewrite H.
  - intros name Hn Hne Hp.
    assert (Hd : definitions (stmt_str stmt) = None).
    { destruct (definitions (stmt_str stmt)) eqn:E; [|reflexivity].
      assert (is_Some (definitions (stmt_str stmt))) as Hs by (rewrite E; eauto).
      apply definitions_is_Some in Hs. congruence. }
    destruct name as [|c n]; [done|]. split; [|split].
    + unfold parse_create_table, collect. by rewrite Hn, Hd.
    + intros i. vm_compute. reflexivity.
    + vm_compute. reflexivity.
Qed.

Lemma parse_create_table_skipped_witness :
  parse_create_table Examples.no_body = Some (TableDef (txt "t") [] [] []) /\
  validate_schema (parsed_to_py [TableDef (txt "t") [] [] []]) =
  Raise (SchemaValidationError
           [Lit "Table '"; Fmt (PStr (txt "t")); Lit "' must have at least one column"]).
Proof.
  destruct (parse_create_table_skipped Examples.no_body) as (_ & _ & H).
  destruct (H (txt "t")) as (H1 & _ & H3);
    [vm_compute; reflexivity|discriminate|vm_compute; reflexivity|].
  split; [exact H1|exact H3].
Defined.

(** C4, as stated, fails: every key the specification names is there, and
    the builder fails for a key of a foreign-key entry. *)
Lemma builder_reads_foreign_key_keys :
  raw_shape Examples.nameless_reference = true /\
  stated_keys_present Examples.nameless_reference = true /\
  build Examples.nameless_reference = Raise (KeyError (PStr (txt "columns"))).
Proof. vm_compute. repeat split. Qed.

(** C4, amended.  The builder fails for a missing key only if a key it
    reads is absent: the name of a table, the name or the type of a column
    entry, or the name, columns, ref_table or ref_columns of a foreign-key
    entry; and from every raw record of the parser's shape that has all
    these keys it builds a schema. *)
Theorem builder_missing_key (raw : pyval) :
  (forall key, build raw = Raise (KeyError key) ->
     stated_keys_present raw && foreign_key_keys_present raw = false) /\
  (raw_shape raw = true ->
   stated_keys_present raw && foreign_key_keys_present raw = true ->
   exists schema, build raw = Ok schema).
Proof.
  split.
  - intros key H.
    destruct (stated_keys_present raw && foreign_key_keys_present raw) eqn:E;
      [|reflexivity].
    exfalso. exact (build_no_key_error raw E key H).
  - apply build_Ok.
Qed.

Lemma builder_missing_key_witness :
  exists schema, build Examples.complete_record = Ok schema.
Proof.
  apply (proj2 (builder_missing_key Examples.complete_record));
    vm_compute; reflexivity.
Defined.

(** C6, as stated, fails: the foreign key has one column and two referenced
    columns, and the validator's message is about a column that does not
    exist, not about the counts. *)
Lemma mismatch_reported_as_dangling :
  exists fk e,
    fk ∈ schema_foreign_keys Examples.dangling_and_mismatched /\
    arity_mismatch fk = true /\
    validate_schema Examples.dangling_and_mismatched = Raise e /\
    message_contains "mismatched column counts" e = false /\
    message_contains "references non-existent column 'zz'" e = true.
Proof.
  eexists _, _. split; [left|]. vm_compute. repeat split.
Qed.

(** C6, amended.  The foreign-key parser yields a record whenever both
    clauses are found, whatever the two column counts are.  The validator
    never accepts a schema with a foreign key whose two lists differ in
    length; the error it raises is the one of the mismatched column counts
    when every check in front of the comparison passes: the first pass over
    all the tables, the foreign keys of the tables in front, the foreign
    keys in front of it in its table, and its own required fields, name,
    columns, referenced table and referenced columns. *)
Theorem foreign_key_arity (fk_def : str) (schema fk : pyval)
    (d : list (str * pyval)) (pre post fpre fpost : list pyval) (table : pyval) :
  (occurs true foreign_key_cols_re fk_def -> occurs true references_re fk_def ->
   is_Some (parse_foreign_key fk_def)) /\
  (exists r, parse_foreign_key Examples.unequal_reference = Some r /\
             fk_columns r = [txt "a"] /\ fk_ref_columns r = [txt "x"; txt "y"]) /\
  (fk ∈ schema_foreign_keys schema -> arity_mismatch fk = true ->
   forall b, validate_schema schema <> Ok b) /\
  (dict_get (txt "tables") d = Some (PList (pre ++ table :: post)) ->
   field "foreign_keys" table = PList (fpre ++ fk :: fpost) ->
   first_failure (first_pass_checks 0 (pre ++ table :: post)) = None ->
   first_failure (second_pass_checks (pre ++ table :: post) pre) = None ->
   first_failure (foreign_keys_checks (pre ++ table :: post) table 0 fpre) = None ->
   first_failure (reference_checks (pre ++ table :: post) table (length fpre) fk) = None ->
   list_len (field "columns" fk) <> list_len (field "ref_columns" fk) ->
   validate_schema (PDict d) = Raise (arity_error table fk) /\
   message_contains "mismatched column counts" (arity_error table fk) = true).
Proof.
  split; [|split; [|split]].
  - intros H1 H2. destruct (parse_foreign_key fk_def) eqn:E; [eauto|].
    apply parse_foreign_key_None in E. tauto.
  - eexists. split; [vm_compute; reflexivity|]. split; reflexivity.
  - intros Hin Hm b Hv.
    rewrite (validate_schema_Ok_arity _ _ _ Hv Hin) in Hm. discriminate.
  - intros Hd Hf H1 H2 H3 H4 Hlen.
    split; [exact (arity_first_failure _ _ _ _ _ _ _ Hd Hf H1 H2 H3 H4 Hlen)|].
    destruct (reference_checks_name _ _ _ _ H4) as [name Hn].
    rewrite first_pass_checks_app, first_failure_app in H1.
    destruct (first_failure (first_pass_checks 0 pre)); [discriminate|].
    cbn [first_pass_checks] in H1. rewrite first_failure_app in H1.
    destruct (first_failure (table_checks (0 + length pre) table)) eqn:E;
      [discriminate|].
    destruct (table_checks_record _ _ E) as (Ht & _).
    exact (arity_error_message _ _ _ _ (item_field _ _ _ Ht) Hn).
Qed.

Lemma foreign_key_arity_witness :
  exists e,
    validate_schema (PDict OrderExamples.pair_schema) = Raise e /\
    message_contains "mismatched column counts" e = true.
Proof.
  exists (arity_error OrderExamples.orders_with_pair OrderExamples.two_to_one).
  refine (proj2 (proj2 (proj2 (foreign_key_arity [] PNone OrderExamples.two_to_one
            OrderExamples.pair_schema [MoreExamples.users_table] []
            [MoreExamples.user_reference] [] OrderExamples.orders_with_pair)))
            _ _ _ _ _ _ _);
    try (vm_compute; reflexivity). vm_compute. discriminate.
Defined.

(* ===================================================================== *)
(** * Further properties of the code *)
(* ===================================================================== *)

Import Text Re SqlParser Py Raw AstBuilder Validators Spec YamlConverter Pipeline.
Import ReFacts SplitFacts BodyFacts ParserFacts TextFacts PhraseFacts EdgeFacts.

#[local] Arguments txt : simpl never.

(** X1.  A parsed column has a type that is not empty and holds no
    lower-case letter, a name with no quote character at either end, and
    constraints that, when present, are not empty and have no white space
    at either end. *)
Theorem column_definition_normalized (col_def : str) (c : column_def) :
  parse_column_definition col_def = Some c ->
  col_type c <> [] /\ uppercased (col_type c) = true /\
  unquoted (col_name c) = true /\
  (forall t, col_constraints c = Some t -> t <> [] /\ trimmed t = true).
Proof.
  unfold parse_column_definition.
  destruct (split_ws 2 col_def) as [|p0 [|p1 rest]] eqn:Hs; try discriminate.
  destruct (split_ws_second _ _ _ _ _ Hs) as [_ Hp1].
  assert (Ht : forall ty,
             ty = match re_match true type_re p1 with
                  | Some m => upper (m_text m)
                  | None => upper p1
                  end -> ty <> [] /\ uppercased ty = true).
  { intros ty ->. destruct (re_match true type_re p1) as [m|] eqn:E.
    - split; [|apply uppercased_upper].
      apply upper_nonempty. exact (type_match_nonempty _ _ E).
    - split; [by apply upper_nonempty|apply uppercased_upper]. }
  destruct rest as [|p2 rest]; intros H; inversion H; subst; clear H;
    cbn [col_type col_name col_constraints].
  - destruct (Ht _ eq_refl) as [? ?].
    split; [done|]. split; [done|]. split; [apply unquoted_strip_quotes|].
    intros t Heq. discriminate.
  - destruct (Ht _ eq_refl) as [? ?].
    split; [done|]. split; [done|]. split; [apply unquoted_strip_quotes|].
    intros t.
    destruct (bool_decide (is_Some (re_search true primary_key_re (strip p2)))).
    + destruct (strip (re_sub true primary_key_re [] (strip p2))) as [|x u] eqn:E;
        [discriminate|].
      intros Heq. inversion Heq; subst. split; [done|].
      rewrite <- E. apply trimmed_strip.
    + destruct (strip p2) as [|x u] eqn:E; [discriminate|].
      intros Heq. inversion Heq; subst. split; [done|].
      rewrite <- E. apply trimmed_strip.
Qed.

Lemma column_definition_normalized_witness :
  exists c, parse_column_definition MoreExamples.quoted_column = Some c /\
            col_name c = txt "price" /\ col_type c = txt "DECIMAL(10,2)" /\
            uppercased (col_type c) = true /\ unquoted (col_name c) = true.
Proof.
  destruct (parse_column_definition MoreExamples.quoted_column) as [c|] eqn:E;
    [|vm_compute in E; discriminate].
  destruct (column_definition_normalized _ _ E) as (_ & Hu & Hq & _).
  exists c. vm_compute in E. inversion E; subst. repeat split; assumption.
Defined.

(** X2.  A parsed foreign key has a name that is not empty and two column
    lists that are not empty; its column names and its referenced table
    have no quote character at either end. *)
Theorem foreign_key_normalized (fk_def : str) (fk : foreign_key_def) :
  parse_foreign_key fk_def = Some fk ->
  fk_name fk <> [] /\
  fk_columns fk <> [] /\ fk_ref_columns fk <> [] /\
  forallb unquoted (fk_columns fk) = true /\
  forallb unquoted (fk_ref_columns fk) = true /\
  unquoted (fk_ref_table fk) = true.
Proof.
  unfold parse_foreign_key.
  destruct (re_search true foreign_key_cols_re fk_def) as [m1|]; [|discriminate].
  destruct (re_search true references_re fk_def) as [m2|]; [|discriminate].
  intros H. inversion H; subst; clear H.
  cbn [fk_name fk_columns fk_ref_columns fk_ref_table].
  destruct (column_list_facts (group_text 1 m1)) as [? ?].
  destruct (column_list_facts (group_text 2 m2)) as [? ?].
  split; [|repeat split; try done; apply unquoted_strip_quotes].
  destruct (re_search true constraint_name_re fk_def) as [m0|]; [|done].
  by destruct (strip_quotes (group_text 1 m0)).
Qed.

Lemma foreign_key_normalized_witness :
  exists fk, parse_foreign_key MoreExamples.named_reference = Some fk /\
             fk_name fk = txt "fk_o" /\ fk_columns fk = [txt "a"; txt "b"] /\
             fk_ref_table fk = txt "p" /\ fk_name fk <> [] /\
             forallb unquoted (fk_columns fk) = true.
Proof.
  destruct (parse_foreign_key MoreExamples.named_reference) as [fk|] eqn:E;
    [|vm_compute in E; discriminate].
  destruct (foreign_key_normalized _ _ E) as (Hn & _ & _ & Hq & _).
  exists fk. vm_compute in E. inversion E; subst. repeat split; assumption.
Defined.

Module TableFacts.
Import Text Re SqlParser Spec Pipeline TextFacts ReFacts EdgeFacts SplitFacts.

#[local] Arguments txt : simpl never.

Lemma collected_from_skip seen frag st :
  collected_from seen st -> collected_from (seen ++ [frag]) st.
Proof.
  intros (Hc & Hf & Hp & Hl). split; [|split; [|split]].
  - intros c Hin. destruct (Hc c Hin) as (f & ? & ?). exists f.
    split; [apply elem_of_app; by left|done].
  - intros fk Hin. destruct (Hf fk Hin) as (f & ? & ?). exists f.
    split; [apply elem_of_app; by left|done].
  - exact Hp.
  - rewrite length_app. simpl. lia.
Qed.

Lemma collected_from_foreign_key seen part st :
  collected_from seen st ->
  collected_from (seen ++ [part]) (add_foreign_key st part).
Proof.
  intros H. unfold add_foreign_key.
  destruct (parse_foreign_key part) as [fk|] eqn:E; [|by apply collected_from_skip].
  destruct H as (Hc & Hf & Hp & Hl). split; [|split; [|split]]; simpl.
  - intros c Hin. destruct (Hc c Hin) as (f & ? & ?). exists f.
    split; [apply elem_of_app; by left|done].
  - intros fk' Hin. apply elem_of_app in Hin as [Hin|Hin].
    + destruct (Hf fk' Hin) as (f & ? & ?). exists f.
      split; [apply elem_of_app; by left|done].
    + apply list_elem_of_singleton in Hin. subst. exists part.
      split; [apply elem_of_app; right; by apply list_elem_of_singleton|done].
  - exact Hp.
  - rewrite !length_app. simpl. lia.
Qed.

Lemma process_part_collected seen part st :
  collected_from seen st ->
  collected_from (seen ++ [strip part]) (process_part st part).
Proof.
  intros H. unfold process_part.
  destruct (bool_decide (is_Some (re_match true primary_key_re (strip part)))).
  { destruct (re_search true primary_key_cols_re (strip part));
      [|by apply collected_from_skip].
    destruct (collected_from_skip seen (strip part) st H) as (Hc & Hf & Hp & Hl).
    split; [|split; [|split]]; simpl; try done.
    intros c Hin Hpk. apply elem_of_app. left. by apply Hp. }
  destruct (bool_decide (is_Some (re_match true foreign_key_re (strip part))));
    [by apply collected_from_foreign_key|].
  destruct (bool_decide (is_Some (re_match true constraint_re (strip part))));
    [by apply collected_from_foreign_key|].
  destruct (parse_column_definition (strip part)) as [c|] eqn:E;
    [|by apply collected_from_skip].
  destruct H as (Hc & Hf & Hp & Hl). split; [|split; [|split]]; simpl.
  - intros c' Hin. apply elem_of_app in Hin as [Hin|Hin].
    + destruct (Hc c' Hin) as (f & ? & ?). exists f.
      split; [apply elem_of_app; by left|done].
    + apply list_elem_of_singleton in Hin. subst. exists (strip part).
      split; [apply elem_of_app; right; by apply list_elem_of_singleton|done].
  - intros fk Hin. destruct (Hf fk Hin) as (f & ? & ?). exists f.
    split; [apply elem_of_app; by left|done].
  - intros c' Hin Hpk. apply elem_of_app in Hin as [Hin|Hin].
    + destruct (col_is_primary_key c); [apply elem_of_app; left|]; by apply Hp.
    + apply list_elem_of_singleton in Hin. subst. rewrite Hpk.
      apply elem_of_app. right. by apply list_elem_of_singleton.
  - rewrite !length_app. simpl. lia.
Qed.

Lemma fold_process_collected parts : forall seen st,
  collected_from seen st ->
  collected_from (seen ++ map strip parts) (fold_left process_part parts st).
Proof.
  induction parts as [|p parts IH]; intros seen st H; simpl.
  - by rewrite app_nil_r.
  - replace (seen ++ strip p :: map strip parts)
      with ((seen ++ [strip p]) ++ map strip parts) by (by rewrite <- app_assoc).
    apply IH. by apply process_part_collected.
Qed.

Lemma collect_collected text : collected_from (fragments text) (collect text).
Proof.
  assert (H0 : collected_from [] (Collected [] [] [])).
  { split; [|split; [|split]]; simpl; try lia; intros x Hx; by apply elem_of_nil in Hx. }
  unfold collect, fragments. destruct (definitions text); [|exact H0].
  exact (fold_process_collected _ [] _ H0).
Qed.

Lemma find_table_name_unquoted toks : forall b n,
  find_table_name toks b = Some n -> unquoted n = true.
Proof.
  induction toks as [|t toks IH]; intros b n; simpl; [discriminate|].
  repeat match goal with
         | |- context [if ?c then _ else _] => destruct c
         end; eauto.
  intros H. inversion H. apply unquoted_strip_quotes.
Qed.

Lemma parse_statements_app a b :
  parse_statements (a ++ b) = parse_statements a ++ parse_statements b.
Proof.
  induction a as [|st a IH]; [reflexivity|].
  simpl. destruct (Text.eqb (get_type st) (txt "CREATE")); [|exact IH].
  destruct (parse_create_table (tokens st)); [|exact IH]. simpl. by rewrite IH.
Qed.

Lemma parse_statements_from a t :
  t ∈ parse_statements a ->
  exists st, st ∈ a /\ is_create st = true /\ parse_create_table (tokens st) = Some t.
Proof.
  induction a as [|st a IH]; simpl; intros H; [by apply elem_of_nil in H|].
  destruct (Text.eqb (get_type st) (txt "CREATE")) eqn:Ek.
  - destruct (parse_create_table (tokens st)) as [t'|] eqn:Ep.
    + apply elem_of_cons in H as [->|H].
      * exists st. split; [left|done].
      * destruct (IH H) as (s & ? & ?). exists s. split; [by right|done].
    + destruct (IH H) as (s & ? & ?). exists s. split; [by right|done].
  - destruct (IH H) as (s & ? & ?). exists s. split; [by right|done].
Qed.

Lemma parse_statements_length a :
  length (parse_statements a) <= length (List.filter is_create a).
Proof.
  induction a as [|st a IH]; [done|]. simpl. unfold is_create at 1.
  destruct (Text.eqb (get_type st) (txt "CREATE")); [|exact IH].
  destruct (parse_create_table (tokens st)); simpl; lia.
Qed.

(** Without parentheses every comma is at depth zero. *)
Lemma pieces_plain s :
  no_parenthesis s = true ->
  pieces_from 0 s = split_char "," s.
Proof.
  induction s as [|c s IH]; intros Hn; [reflexivity|].
  simpl in Hn. apply andb_true_iff in Hn as [Hc Hn].
  apply andb_true_iff in Hc as [Ho Hcl].
  apply negb_true_iff in Ho, Hcl.
  rewrite pieces_from_step. unfold delta. rewrite Ho, Hcl.
  replace (0 + 0)%Z with 0%Z by lia. rewrite (IH Hn). simpl.
  rewrite andb_true_r. reflexivity.
Qed.

Lemma drop_empty_last_nil l : drop_empty_last l = [] <-> l = [] \/ l = [[]].
Proof.
  destruct l as [|x [|y l]]; simpl.
  - tauto.
  - destruct x; simpl; split; intros H; try tauto; try discriminate.
    destruct H; discriminate.
  - split; [discriminate|]. intros [H|H]; discriminate.
Qed.

Lemma pieces_nil s d : pieces_from d s = [[]] -> s = [].
Proof.
  destruct s as [|c s]; [done|]. rewrite pieces_from_step.
  destruct (pieces_from_cons (d + delta c) s) as (x & xs & ->).
  destruct (Ascii.eqb c "," && (d =? 0)%Z); discriminate.
Qed.

End TableFacts.

Import Text Re SqlParser Py Raw AstBuilder Validators Spec YamlConverter Pipeline.
Import ReFacts SplitFacts BodyFacts ParserFacts TextFacts PhraseFacts EdgeFacts.
Import TableFacts.

#[local] Arguments txt : simpl never.

(** X3.  In a parsed table the name is not empty and has no quote character
    at either end; every column is the parse of one of the statement's
    fragments and every foreign key is the parse of one of them; the name
    of every column flagged as primary key is in the primary key; and the
    columns and foreign keys together are no more than the fragments. *)
Theorem parsed_table_from_fragments (stmt : list token) (t : table_def) :
  parse_create_table stmt = Some t ->
  tbl_name t <> [] /\ unquoted (tbl_name t) = true /\
  (forall c, c ∈ tbl_columns t ->
     exists frag, frag ∈ fragments (stmt_str stmt) /\
                  parse_column_definition frag = Some c) /\
  (forall fk, fk ∈ tbl_foreign_keys t ->
     exists frag, frag ∈ fragments (stmt_str stmt) /\
                  parse_foreign_key frag = Some fk) /\
  (forall c, c ∈ tbl_columns t -> col_is_primary_key c = true ->
     col_name c ∈ tbl_primary_key t) /\
  length (tbl_columns t) + length (tbl_foreign_keys t)
    <= length (fragments (stmt_str stmt)).
Proof.
  unfold parse_create_table.
  destruct (find_table_name stmt false) as [[|x n]|] eqn:En; try discriminate.
  intros H. inversion H; subst; clear H. simpl.
  split; [done|]. split; [exact (find_table_name_unquoted _ _ _ En)|].
  exact (collect_collected (stmt_str stmt)).
Qed.

Lemma parsed_table_from_fragments_witness :
  exists t, parse_create_table Examples.three_keys = Some t /\
            length (tbl_columns t) = 3 /\
            txt "c" ∈ tbl_primary_key t.
Proof.
  destruct (parse_create_table Examples.three_keys) as [t|] eqn:E;
    [|vm_compute in E; discriminate].
  destruct (parsed_table_from_fragments _ _ E) as (_ & _ & _ & _ & Hpk & _).
  exists t. split; [reflexivity|].
  vm_compute in E. inversion E; subst. split; [reflexivity|].
  apply (Hpk (ColumnDef (txt "c") (txt "INT") None true)); [|reflexivity].
  right. right. left.
Defined.

(** X4.  The statements are parsed one by one: the tables of two lists of
    statements put together are the tables of the first followed by those
    of the second; every table comes from a statement of kind CREATE; there
    are no more tables than such statements. *)
Theorem parse_statements_independent (a b : list statement) :
  parse_statements (a ++ b) = parse_statements a ++ parse_statements b /\
  (forall t, t ∈ parse_statements a ->
     exists st, st ∈ a /\ is_create st = true /\
                parse_create_table (tokens st) = Some t) /\
  length (parse_statements a) <= length (List.filter is_create a).
Proof.
  split; [apply parse_statements_app|].
  split; [apply parse_statements_from|apply parse_statements_length].
Qed.

Lemma parse_statements_independent_witness :
  map tbl_name (parse_statements MoreExamples.two_statements) = [txt "a"; txt "b"] /\
  exists st, st ∈ MoreExamples.two_statements /\ is_create st = true /\
             tbl_name <$> parse_create_table (tokens st) = Some (txt "b").
Proof.
  split; [vm_compute; reflexivity|].
  destruct (proj1 (proj2 (parse_statements_independent MoreExamples.two_statements []))
              (TableDef (txt "b") [ColumnDef (txt "y") (txt "INT") None true]
                        [txt "y"] []))
    as (st & Hin & Hc & Hp).
  - vm_compute. right. left.
  - exists st. rewrite Hp. done.
Defined.

(** X5.  The splitter returns no part exactly for the empty text; on a text
    without parentheses it returns what splitting at every comma returns,
    less the last part when that one is empty. *)
Theorem split_by_comma_plain (text : str) :
  (split_by_comma text = [] <-> text = []) /\
  (no_parenthesis text = true ->
   split_by_comma text = drop_empty_last (split_char "," text)).
Proof.
  rewrite split_by_comma_pieces. split.
  - rewrite drop_empty_last_nil. unfold top_level_pieces. split.
    + intros [H|H].
      * destruct (pieces_from_cons 0 text) as (x & xs & Hx).
        unfold pieces_from in Hx. rewrite Hx in H. discriminate.
      * by apply (pieces_nil text 0).
    + intros ->. by right.
  - intros Hn. unfold top_level_pieces.
    change (map (map fst) (split_where top_level_comma (annotate 0 text)))
      with (pieces_from 0 text).
    by rewrite (pieces_plain text Hn).
Qed.

Lemma split_by_comma_plain_witness :
  split_by_comma (txt "a INT, b TEXT,") = [txt "a INT"; txt " b TEXT"].
Proof.
  rewrite (proj2 (split_by_comma_plain (txt "a INT, b TEXT,")));
    vm_compute; reflexivity.
Defined.

Module AcceptFacts.
Import Text Py Validators Spec Pipeline ValidatorFacts.

#[local] Arguments txt : simpl never.

Lemma validate_column_accepts column tn i :
  validate_column column tn i = Ok () <-> exists n, column_named column n.
Proof.
  unfold validate_column, column_named. split.
  - destruct column as [| | | | |d]; try discriminate.
    destruct (dict_get (txt "name") d) as [name|] eqn:En; [|discriminate].
    destruct (dict_get (txt "type") d) as [ty|] eqn:Et; [|discriminate].
    destruct name as [| | |[|c n]| |]; try discriminate.
    destruct ty as [| | |[|c' t]| |]; try discriminate. simpl.
    destruct (dict_get (txt "constraints") d) as [[| | | | |]|] eqn:Ec;
      try discriminate; intros _; exists (c :: n), d, (c' :: t);
      rewrite Ec; done.
  - intros (n & d & ty & -> & -> & Hn & -> & Ht & Hc).
    destruct n; [done|]. destruct ty; [done|]. simpl.
    destruct (dict_get (txt "constraints") d) as [[| | | | |]|]; done.
Qed.

Lemma column_named_item col n : column_named col n -> item col "name" = Ok (PStr n).
Proof. intros (d & ty & -> & Hn & _). unfold item. by rewrite Hn. Qed.

Lemma column_named_inj col n m : column_named col n -> column_named col m -> n = m.
Proof.
  intros H1 H2. apply column_named_item in H1, H2. congruence.
Qed.

Lemma validate_columns_sound cols tn : forall i seen s,
  validate_columns cols tn i seen = Ok s ->
  exists names,
    Forall2 column_named cols names /\ NoDup names /\
    (forall n, n ∈ names -> n ∉ seen) /\
    (forall x, x ∈ s <-> x ∈ names \/ x ∈ seen).
Proof.
  induction cols as [|c cols IH]; intros i seen s H; simpl in H.
  - inversion H; subst. exists []. split; [constructor|]. split; [constructor|].
    split; [intros n Hn; by apply elem_of_nil in Hn|].
    intros x. split; [auto|intros [Hx|Hx]; [by apply elem_of_nil in Hx|done]].
  - apply bind_Ok in H as ([] & Hc & H).
    apply validate_column_accepts in Hc as [n Hn].
    rewrite (column_named_item _ _ Hn) in H. simpl in H.
    destruct (bool_decide (n ∈ seen)) eqn:Eb; [discriminate|].
    apply bool_decide_eq_false in Eb.
    apply IH in H as (names & Hf & Hd & Hs & Hx).
    exists (n :: names). split; [by constructor|]. split; [|split].
    + constructor; [|done]. intros Hin. apply (Hs n Hin).
      apply elem_of_union. left. by apply elem_of_singleton.
    + intros m Hm Hseen. apply elem_of_cons in Hm as [->|Hm]; [done|].
      apply (Hs m Hm). apply elem_of_union. by right.
    + intros x. rewrite Hx, elem_of_union, elem_of_singleton, elem_of_cons. tauto.
Qed.

Lemma validate_columns_complete cols tn : forall names i seen,
  Forall2 column_named cols names -> NoDup names ->
  (forall n, n ∈ names -> n ∉ seen) ->
  exists s, validate_columns cols tn i seen = Ok s /\
            (forall x, x ∈ s <-> x ∈ names \/ x ∈ seen).
Proof.
  induction cols as [|c cols IH]; intros names i seen Hf Hd Hs.
  - inversion Hf; subst. exists seen. split; [reflexivity|].
    intros x. split; [auto|]. intros [Hx|Hx]; [by apply elem_of_nil in Hx|done].
  - inversion Hf as [|? n ? names' Hn Hf']; subst.
    apply NoDup_cons in Hd as [Hnin Hd].
    simpl. rewrite (proj2 (validate_column_accepts c tn i)) by eauto. simpl.
    rewrite (column_named_item _ _ Hn). simpl.
    assert (Hns : n ∉ seen) by (apply Hs; left).
    rewrite (bool_decide_eq_false_2 _ Hns).
    destruct (IH names' (S i) ({[n]} ∪ seen) Hf' Hd) as (s & -> & Hx).
    + intros m Hm Hin. apply elem_of_union in Hin as [Hin|Hin].
      * apply elem_of_singleton in Hin. by subst.
      * apply (Hs m); [by right|done].
    + exists s. split; [reflexivity|].
      intros x. rewrite Hx, elem_of_union, elem_of_singleton, elem_of_cons. tauto.
Qed.

Lemma validate_primary_key_accepts pk tn s :
  validate_primary_key pk tn s = Ok () <->
  Forall (fun p => exists n, p = PStr n /\ n ∈ s) pk.
Proof.
  induction pk as [|p pk IH]; simpl.
  - split; [constructor|done].
  - rewrite Forall_cons, <- IH. unfold in_set.
    destruct p as [| | |n| |]; simpl;
      try (split; [discriminate|intros [(n' & ? & _) _]; discriminate]).
    destruct (bool_decide (n ∈ s)) eqn:Eb; simpl.
    + apply bool_decide_eq_true in Eb. split; [eauto|tauto].
    + apply bool_decide_eq_false in Eb.
      split; [discriminate|]. intros [(n' & Hn & Hin) _]. by inversion Hn; subst.
Qed.

Lemma validate_table_accepts table i :
  validate_table table i = Ok () <-> well_formed_table table.
Proof.
  unfold validate_table, well_formed_table. split.
  - destruct table as [| | | | |d]; try discriminate.
    destruct (dict_get (txt "name") d) as [name|] eqn:En; [|discriminate].
    destruct (dict_get (txt "columns") d) as [columns|] eqn:Ecs; [|discriminate].
    destruct (dict_get (txt "primary_key") d) as [pk|] eqn:Epk; [|discriminate].
    destruct name as [| | |[|c n]| |]; try discriminate.
    destruct columns as [| | | |[|col cols]|]; try discriminate.
    cbn [nonempty_str negb]. intros H. apply bind_Ok in H as (s & Hc & H).
    destruct pk as [| | | |pk|]; try discriminate.
    apply validate_columns_sound in Hc as (names & Hf & Hd & _ & Hx).
    apply validate_primary_key_accepts in H.
    exists d, (c :: n), (col :: cols), pk, names.
    repeat split; try done.
    eapply Forall_impl; [exact H|]. intros p (m & -> & Hm).
    exists m. split; [done|]. apply Hx in Hm as [Hm|Hm]; [done|].
    by apply elem_of_empty in Hm.
  - intros (d & name & cols & pk & names & -> & -> & Hn & -> & Hc & -> & Hf & Hd & Hp).
    destruct name as [|c n]; [done|]. destruct cols as [|col cols]; [done|].
    cbn [nonempty_str negb].
    destruct (validate_columns_complete (col :: cols) (PStr (c :: n)) names 0 ∅ Hf Hd)
      as (s & -> & Hx).
    { intros m _ Hm. by apply elem_of_empty in Hm. }
    simpl. apply validate_primary_key_accepts.
    eapply Forall_impl; [exact Hp|]. intros p (m & -> & Hm).
    exists m. split; [done|]. apply Hx. by left.
Qed.

Lemma first_pass_step_with table tables i names cols n cl cs :
  validate_table table i = Ok () ->
  item table "name" = Ok (PStr n) ->
  item table "columns" = Ok (PList cl) ->
  column_name_set cl = Ok cs ->
  first_pass (table :: tables) i names cols =
  first_pass tables (S i) ({[n]} ∪ names) (<[n := cs]> cols).
Proof.
  intros H Hn Hc Hs. cbn [first_pass]. rewrite H, Hn, Hc. simpl. by rewrite Hs.
Qed.

Lemma first_pass_app a : forall b i names cols,
  first_pass (a ++ b) i names cols =
  (r ← first_pass a i names cols; first_pass b (i + length a) r.1 r.2).
Proof.
  induction a as [|t a IH]; intros b i names cols.
  - simpl. by rewrite Nat.add_0_r.
  - cbn [app]. destruct (validate_table t i) as [[]|e] eqn:Ht.
    + destruct (validate_table_Ok _ _ Ht) as (n & cl & cs & Hn & Hc & Hs).
      rewrite !(first_pass_step_with _ _ _ _ _ _ _ _ Ht Hn Hc Hs), IH.
      cbn [length]. replace (i + S (length a)) with (S i + length a) by lia.
      reflexivity.
    + cbn [first_pass]. rewrite Ht. reflexivity.
Qed.

Lemma second_pass_app a b names cols :
  second_pass (a ++ b) names cols =
  (_ ← second_pass a names cols; second_pass b names cols).
Proof.
  induction a as [|t a IH]; [reflexivity|].
  simpl. destruct (validate_foreign_keys t names cols) as [[]|]; simpl; [exact IH|done].
Qed.

Lemma column_name_set_elem cl : forall cs c,
  column_name_set cl = Ok cs -> c ∈ cs ->
  exists col, col ∈ cl /\ item col "name" = Ok (PStr c).
Proof.
  induction cl as [|col cl IH]; intros cs c H Hin; simpl in H.
  - inversion H; subst. by apply elem_of_empty in Hin.
  - apply bind_Ok in H as (name & Hn & H). apply bind_Ok in H as (rest & Hr & H).
    destruct name as [| | |n| |]; try discriminate. inversion H; subst.
    apply elem_of_union in Hin as [Hin|Hin].
    + apply elem_of_singleton in Hin. subst. exists col. split; [left|done].
    + destruct (IH _ _ Hr Hin) as (col' & ? & ?). exists col'. split; [by right|done].
Qed.

(** The column sets the first loop records are those of tables of the list. *)
Lemma first_pass_columns tables : forall i names cols names' cols' n s,
  first_pass tables i names cols = Ok (names', cols') ->
  cols' !! n = Some s ->
  cols !! n = Some s \/
  exists t cl, t ∈ tables /\ item t "name" = Ok (PStr n) /\
               item t "columns" = Ok (PList cl) /\ column_name_set cl = Ok s.
Proof.
  induction tables as [|t tables IH]; intros i names cols names' cols' n s H Hl.
  - simpl in H. inversion H; subst. by left.
  - assert (Ht : validate_table t i = Ok ()).
    { simpl in H. destruct (validate_table t i) as [[]|]; [done|discriminate]. }
    destruct (validate_table_Ok _ _ Ht) as (m & cl & cs & Hm & Hc & Hs).
    rewrite (first_pass_step_with _ _ _ _ _ _ _ _ Ht Hm Hc Hs) in H.
    destruct (IH _ _ _ _ _ _ _ H Hl) as [Hold|(t' & cl' & Hin & ?)].
    + destruct (decide (m = n)) as [->|Hne].
      * rewrite lookup_insert_eq in Hold. inversion Hold; subst.
        right. exists t, cl. split; [left|done].
      * rewrite lookup_insert_ne in Hold by done. by left.
    + right. exists t', cl'. split; [by right|done].
Qed.

Lemma validate_fk_columns_Ok l s msg :
  validate_fk_columns l s msg = Ok () ->
  Forall (fun v => exists c, v = PStr c /\ c ∈ s) l.
Proof.
  induction l as [|v l IH]; simpl; intros H; [constructor|].
  apply bind_Ok in H as (found & Hf & H). destruct found; [|discriminate].
  constructor; [|by apply IH].
  destruct v as [| | |c| |]; try discriminate.
  simpl in Hf. inversion Hf as [Hb]. apply bool_decide_eq_true in Hb. eauto.
Qed.

(** What a foreign key that passes [_validate_foreign_key] is. *)
Lemma validate_foreign_key_Ok fk table i names cols :
  validate_foreign_key fk table i names cols = Ok () ->
  exists tn d name rt cs rs own theirs,
    item table "name" = Ok (PStr tn) /\
    fk = PDict d /\
    dict_get (txt "name") d = Some (PStr name) /\ name <> [] /\
    dict_get (txt "columns") d = Some (PList cs) /\ cs <> [] /\
    dict_get (txt "ref_table") d = Some (PStr rt) /\ rt ∈ names /\
    dict_get (txt "ref_columns") d = Some (PList rs) /\
    length cs = length rs /\
    cols !! tn = Some own /\ cols !! rt = Some theirs /\
    Forall (fun v => exists c, v = PStr c /\ c ∈ own) cs /\
    Forall (fun v => exists c, v = PStr c /\ c ∈ theirs) rs.
Proof.
  unfold validate_foreign_key. intros H.
  apply bind_Ok in H as (tname & Htn & H).
  destruct fk as [| | | | |d]; try discriminate.
  destruct (find _ required_fields); [discriminate|].
  unfold item in H.
  destruct (dict_get (txt "name") d) as [name|] eqn:En; [|discriminate].
  destruct (dict_get (txt "columns") d) as [columns|] eqn:Ec; [|discriminate].
  destruct (dict_get (txt "ref_table") d) as [ref_table|] eqn:Er; [|discriminate].
  destruct (dict_get (txt "ref_columns") d) as [ref_columns|] eqn:Erc; [|discriminate].
  simpl in H.
  destruct name as [| | |[|x name]| |]; try discriminate. simpl in H.
  destruct columns as [| | | |[|c0 cs]|]; try discriminate. simpl in H.
  apply bind_Ok in H as (own & Hown & H). apply bind_Ok in H as ([] & Hcs & H).
  destruct ref_table as [| | |[|y rt]| |]; try discriminate. simpl in H.
  destruct (bool_decide (y :: rt ∈ names)) eqn:Eb; [|discriminate]. simpl in H.
  apply bool_decide_eq_true in Eb.
  destruct ref_columns as [| | | |[|r0 rs]|]; try discriminate. simpl in H.
  apply bind_Ok in H as (theirs & Htheirs & H). apply bind_Ok in H as ([] & Hrs & H).
  destruct (Nat.eqb (length cs) (length rs)) eqn:El; [|discriminate].
  apply Nat.eqb_eq in El.
  unfold columns_of in Hown, Htheirs.
  destruct tname as [| | |tn| |]; try discriminate.
  destruct (cols !! tn) as [o|] eqn:Eo; [|discriminate]. inversion Hown; subst o.
  destruct (cols !! (y :: rt)) as [o|] eqn:Et; [|discriminate]. inversion Htheirs; subst o.
  pose proof (validate_fk_columns_Ok (c0 :: cs) own _ Hcs) as Hcs'.
  pose proof (validate_fk_columns_Ok (r0 :: rs) theirs _ Hrs) as Hrs'.
  exists tn, d, (x :: name), (y :: rt), (c0 :: cs), (r0 :: rs), own, theirs.
  repeat split; try done. simpl. by rewrite El.
Qed.

End AcceptFacts.

Module SchemaFacts.
Import Text Py Validators Spec Pipeline ValidatorFacts AcceptFacts.

#[local] Arguments txt : simpl never.

Lemma first_pass_Ok_tables tables : forall i names cols r,
  first_pass tables i names cols = Ok r ->
  forall t, t ∈ tables -> exists j, validate_table t j = Ok ().
Proof.
  induction tables as [|x tables IH]; intros i names cols r H t Ht;
    [by apply elem_of_nil in Ht|].
  assert (Hx : validate_table x i = Ok ()).
  { simpl in H. destruct (validate_table x i) as [[]|]; [done|discriminate]. }
  destruct (first_pass_step x tables i names cols Hx) as (n & cs & _ & E).
  rewrite E in H. apply elem_of_cons in Ht as [->|Ht]; [eauto|]. by eapply IH.
Qed.

Lemma validate_schema_Ok_passes schema b :
  validate_schema schema = Ok b ->
  exists d tables names cols,
    schema = PDict d /\ dict_get (txt "tables") d = Some (PList tables) /\
    first_pass tables 0 ∅ ∅ = Ok (names, cols) /\
    second_pass tables names cols = Ok ().
Proof.
  unfold validate_schema. intros H.
  destruct schema as [| | | | |d]; try discriminate.
  destruct (dict_get (txt "tables") d) as [[| | | |tables|]|] eqn:Ed; try discriminate.
  apply bind_Ok in H as ([names cols] & Hf & H).
  apply bind_Ok in H as ([] & Hs & _). eauto 10.
Qed.

Lemma validate_foreign_keys_Ok table names cols fk :
  validate_foreign_keys table names cols = Ok () ->
  fk ∈ list_items (field "foreign_keys" table) ->
  exists j, validate_foreign_key fk table j names cols = Ok ().
Proof.
  unfold validate_foreign_keys, field. intros Hv Hfk.
  destruct table as [| | | | |dt]; try discriminate. simpl in Hfk.
  destruct (dict_get (txt "foreign_keys") dt) as [[| | | |fks|]|];
    simpl in Hfk, Hv; try (by apply elem_of_nil in Hfk).
  by eapply validate_fk_list_Ok.
Qed.

Lemma known_has_column tables names cols tn s l :
  first_pass tables 0 ∅ ∅ = Ok (names, cols) ->
  cols !! tn = Some s ->
  Forall (fun v => exists c, v = PStr c /\ c ∈ s) l ->
  Forall (has_column tables tn) l.
Proof.
  intros Hf Hl Hall.
  destruct (first_pass_columns _ _ _ _ _ _ _ _ Hf Hl) as [He|(t & cl & Ht & Hn & Hc & Hs)].
  { rewrite lookup_empty in He. discriminate. }
  eapply Forall_impl; [exact Hall|]. intros v (c & -> & Hin).
  destruct (column_name_set_elem _ _ _ Hs Hin) as (col & Hcol & Hname).
  exists t, cl, col, c. done.
Qed.

End SchemaFacts.

Import Text Re SqlParser Py Raw AstBuilder Validators Spec YamlConverter Pipeline.
Import ValidatorFacts AcceptFacts SchemaFacts.

#[local] Arguments txt : simpl never.

(** X6.  [_validate_table] accepts a table exactly when it is a dictionary
    with a name that is a string and not empty, a list of columns that is
    not empty (each a dictionary with a name and a type that are strings
    and not empty, and constraints that are absent, [None] or a string),
    column names that all differ, and a primary key that is a list of names
    of these columns.  The index of the table plays no part. *)
Theorem validate_table_well_formed (table : pyval) (index : nat) :
  validate_table table index = Ok () <-> well_formed_table table.
Proof. apply validate_table_accepts. Qed.

Lemma validate_table_well_formed_witness :
  well_formed_table MoreExamples.users_table /\
  validate_table MoreExamples.users_table 7 = Ok ().
Proof.
  assert (H : well_formed_table MoreExamples.users_table).
  { apply (proj1 (validate_table_well_formed MoreExamples.users_table 0)).
    vm_compute. reflexivity. }
  split; [exact H|].
  apply (proj2 (validate_table_well_formed MoreExamples.users_table 7)). exact H.
Defined.

(** X7.  In a schema that the validator accepts every table is well formed,
    and every foreign key resolves: it has a name, its two column lists are
    not empty and of one length, its referenced table is the name of a
    table of the schema, every referenced column is a column of a table of
    that name, and every local column a column of a table with the name of
    the owning table. *)
Theorem accepted_schema_resolved (schema : pyval) (b : bool) :
  validate_schema schema = Ok b ->
  forall table, table ∈ list_items (field "tables" schema) ->
    well_formed_table table /\
    forall fk, fk ∈ list_items (field "foreign_keys" table) ->
      exists owner, item table "name" = Ok (PStr owner) /\
        resolved_foreign_key (list_items (field "tables" schema)) owner fk.
Proof.
  intros H. apply validate_schema_Ok_passes in H
    as (d & tables & names & cols & -> & Hd & Hf & Hs).
  unfold field at 1 3. rewrite Hd. simpl. intros table Ht. split.
  - destruct (first_pass_Ok_tables _ _ _ _ _ Hf table Ht) as [j Hj].
    by apply validate_table_accepts in Hj.
  - intros fk Hfk.
    pose proof (second_pass_Ok _ _ _ Hs table Ht) as Hv.
    destruct (validate_foreign_keys_Ok _ _ _ _ Hv Hfk) as [j Hj].
    apply validate_foreign_key_Ok in Hj
      as (tn & dk & name & rt & cs & rs & own & theirs & Htn & -> & Hn & Hne & Hc
          & Hcne & Hr & Hrin & Hrc & Hlen & Hown & Htheirs & Hcs & Hrs).
    exists tn. split; [exact Htn|].
    exists dk, name, rt, cs, rs. repeat split; try done.
    + apply (first_pass_names _ _ _ _ _ _ Hf) in Hrin as [Hrin|Hrin]; [|exact Hrin].
      by apply elem_of_empty in Hrin.
    + by eapply known_has_column.
    + by eapply known_has_column.
Qed.

Lemma accepted_schema_resolved_witness :
  resolved_foreign_key (list_items (field "tables" MoreExamples.orders_schema))
    (txt "orders") MoreExamples.user_reference.
Proof.
  destruct (accepted_schema_resolved MoreExamples.orders_schema true)
    with (table := MoreExamples.orders_table) as [_ H].
  - vm_compute. reflexivity.
  - vm_compute. right. left.
  - destruct (H MoreExamples.user_reference) as (owner & Ho & Hr).
    + vm_compute. left.
    + vm_compute in Ho. inversion Ho; subst owner. exact Hr.
Defined.

(** X8.  The names of the tables are not checked for uniqueness: when a
    schema is accepted, so is the schema with its last table listed twice. *)
Theorem duplicate_table_accepted (d d' : list (str * pyval))
    (tables : list pyval) (table : pyval) :
  dict_get (txt "tables") d = Some (PList (tables ++ [table])) ->
  dict_get (txt "tables") d' = Some (PList (tables ++ [table; table])) ->
  validate_schema (PDict d) = Ok true ->
  validate_schema (PDict d') = Ok true.
Proof.
  intros Hd Hd' H. apply validate_schema_Ok_passes in H
    as (d0 & ts & names & cols & Heq & Hd0 & Hf & Hs).
  inversion Heq; subst d0. rewrite Hd in Hd0. inversion Hd0; subst ts. clear Heq Hd0.
  unfold validate_schema. rewrite Hd'.
  rewrite first_pass_app in Hf. apply bind_Ok in Hf as ([n0 c0] & Hf0 & Hf1).
  change (first_pass [table] (length tables) n0 c0 = Ok (names, cols)) in Hf1.
  assert (Ht : validate_table table (length tables) = Ok ()).
  { pose proof Hf1 as Hcopy. cbn [first_pass] in Hcopy.
    destruct (validate_table table (length tables)) as [[]|]; [done|discriminate]. }
  destruct (validate_table_Ok _ _ Ht) as (n & cl & cs & Hn & Hc & Hcs).
  rewrite (first_pass_step_with _ _ _ _ _ _ _ _ Ht Hn Hc Hcs) in Hf1.
  simpl in Hf1. inversion Hf1; subst names cols. clear Hf1.
  assert (Ht' : validate_table table (S (length tables)) = Ok ()).
  { apply validate_table_accepts. by apply validate_table_accepts in Ht. }
  rewrite first_pass_app, Hf0. cbn [mbind result_bind fst snd].
  change (0 + length tables) with (length tables).
  rewrite (first_pass_step_with _ _ _ _ _ _ _ _ Ht Hn Hc Hcs).
  rewrite (first_pass_step_with _ _ _ _ _ _ _ _ Ht' Hn Hc Hcs).
  cbn [first_pass mbind result_bind]. rewrite insert_insert_eq.
  replace ({[n]} ∪ ({[n]} ∪ n0)) with ({[n]} ∪ n0)
    by (rewrite (assoc_L (∪)); by rewrite union_idemp_L).
  rewrite second_pass_app in Hs. apply bind_Ok in Hs as ([] & Hs0 & Hs1).
  rewrite second_pass_app, Hs0. simpl in *.
  destruct (validate_foreign_keys table _ _) as [[]|]; [reflexivity|discriminate].
Qed.

Lemma duplicate_table_accepted_witness :
  validate_schema (PDict [(txt "tables",
     PList [MoreExamples.users_table; MoreExamples.users_table])]) = Ok true.
Proof.
  apply (duplicate_table_accepted
           [(txt "tables", PList [MoreExamples.users_table])] _
           [] MoreExamples.users_table); [reflexivity|reflexivity|].
  vm_compute. reflexivity.
Defined.

Module ExportFacts.
Import Text SqlParser Py Raw AstBuilder Validators Spec YamlConverter Pipeline.
Import ValidatorFacts.

#[local] Arguments txt : simpl never.

Lemma mapM_map {A B C} (f : B -> result C) (g : A -> B) (h : A -> C) l :
  (forall a, f (g a) = Ok (h a)) -> mapM f (map g l) = Ok (map h l).
Proof.
  intros H. induction l as [|a l IH]; [reflexivity|].
  simpl. rewrite H. simpl. by rewrite IH.
Qed.

Lemma build_column_of_def c : build_column (column_to_py c) = Ok (column_of_def c).
Proof. destruct c as [n t cs pk]. reflexivity. Qed.

Lemma build_foreign_key_of_def f :
  build_foreign_key (foreign_key_to_py f) = Ok (foreign_key_of_def f).
Proof. destruct f. reflexivity. Qed.

Lemma build_table_of_def t : build_table (table_to_py t) = Ok (table_of_def t).
Proof.
  destruct t as [n cols pk fks]. unfold build_table, table_of_def.
  change (get (table_to_py (TableDef n cols pk fks)) "columns" (PList []))
    with (Ok (PList (map column_to_py cols))).
  change (get (table_to_py (TableDef n cols pk fks)) "foreign_keys" (PList []))
    with (Ok (PList (map foreign_key_to_py fks))).
  change (get (table_to_py (TableDef n cols pk fks)) "primary_key" (PList []))
    with (Ok (str_list pk)).
  change (item (table_to_py (TableDef n cols pk fks)) "name") with (Ok (PStr n)).
  cbn [mbind result_bind iter].
  rewrite (mapM_map build_column column_to_py column_of_def cols build_column_of_def).
  cbn [mbind result_bind].
  rewrite (mapM_map build_foreign_key foreign_key_to_py foreign_key_of_def fks
             build_foreign_key_of_def).
  reflexivity.
Qed.

Lemma build_of_defs tables : build (parsed_to_py tables) = Ok (schema_of_defs tables).
Proof.
  unfold build, schema_of_defs.
  change (get (parsed_to_py tables) "tables" (PList []))
    with (Ok (PList (map table_to_py tables))).
  cbn [mbind result_bind iter].
  by rewrite (mapM_map build_table table_to_py table_of_def tables build_table_of_def).
Qed.

(** *** Exporting and building again *)

Lemma build_column_to_dict c : build_column (column_to_dict c) = Ok (rebuilt_column c).
Proof.
  destruct c as [n t cs]. unfold column_to_dict, rebuilt_column. simpl.
  destruct (truth cs); reflexivity.
Qed.

Lemma build_foreign_key_to_dict f :
  build_foreign_key (foreign_key_to_dict f) = Ok f.
Proof. destruct f. reflexivity. Qed.

Lemma map_id_ext {A} (f : A -> A) l : (forall a, f a = a) -> map f l = l.
Proof. intros H. induction l as [|a l IH]; simpl; [done|]. by rewrite H, IH. Qed.

Lemma build_table_to_dict t : build_table (table_to_dict t) = Ok (rebuilt_table t).
Proof.
  destruct t as [n cols pk fks]. unfold build_table, rebuilt_table, table_to_dict.
  cbn [table_name table_columns table_primary_key table_foreign_keys].
  destruct fks as [|f fks].
  - change (get _ "columns" (PList [])) with (Ok (PList (map column_to_dict cols))).
    cbn [mbind result_bind iter].
    rewrite (mapM_map build_column column_to_dict rebuilt_column cols build_column_to_dict).
    reflexivity.
  - change (get _ "columns" (PList [])) with (Ok (PList (map column_to_dict cols))).
    cbn [mbind result_bind iter].
    rewrite (mapM_map build_column column_to_dict rebuilt_column cols build_column_to_dict).
    cbn [mbind result_bind].
    change (get _ "foreign_keys" (PList []))
      with (Ok (PList (map foreign_key_to_dict (f :: fks)))).
    cbn [mbind result_bind iter].
    rewrite (mapM_map build_foreign_key foreign_key_to_dict id (f :: fks)
               build_foreign_key_to_dict).
    rewrite (map_id_ext id) by done. reflexivity.
Qed.

Lemma build_schema_to_dict schema :
  build (schema_to_dict schema) = Ok (without_false_constraints schema).
Proof.
  unfold build, schema_to_dict, without_false_constraints.
  change (get _ "tables" (PList []))
    with (Ok (PList (map table_to_dict (schema_tables schema)))).
  cbn [mbind result_bind iter].
  by rewrite (mapM_map build_table table_to_dict rebuilt_table _ build_table_to_dict).
Qed.

Lemma rebuilt_column_same c :
  match column_constraints c with PNone => true | v => truth v end = true ->
  rebuilt_column c = c.
Proof.
  destruct c as [cn ct cs]. unfold rebuilt_column. simpl. intros H.
  destruct cs; simpl in *; try reflexivity; by rewrite H.
Qed.

Lemma constraints_kept_same schema :
  constraints_kept schema = true -> without_false_constraints schema = schema.
Proof.
  destruct schema as [tables]. unfold constraints_kept, without_false_constraints.
  cbn [schema_tables]. intros H. f_equal.
  induction tables as [|t tables IH]; [reflexivity|].
  cbn [forallb] in H. apply andb_true_iff in H as [Ht H].
  cbn [map]. rewrite (IH H). f_equal.
  destruct t as [n cols pk fks]. unfold rebuilt_table.
  cbn [table_name table_columns table_primary_key table_foreign_keys] in *. f_equal.
  clear IH H. induction cols as [|c cols IH]; [reflexivity|].
  cbn [forallb] in Ht. apply andb_true_iff in Ht as [Hc Ht].
  cbn [map]. by rewrite (IH Ht), (rebuilt_column_same c Hc).
Qed.

End ExportFacts.

Import Text Re SqlParser Py Raw AstBuilder Validators Spec YamlConverter Pipeline.
Import ExportFacts.

#[local] Arguments txt : simpl never.

(** X9.  On the parser's output the builder never fails: every table
    record becomes a table with the same name, columns (less the primary-key
    flag), primary key and foreign keys, in the same order. *)
Theorem build_parser_output (tables : list table_def) :
  build (parsed_to_py tables) = Ok (schema_of_defs tables) /\
  map table_name (schema_tables (schema_of_defs tables)) =
    map (fun t => PStr (tbl_name t)) tables /\
  map (fun t => length (table_columns t)) (schema_tables (schema_of_defs tables)) =
    map (fun t => length (tbl_columns t)) tables.
Proof.
  split; [apply build_of_defs|]. unfold schema_of_defs. simpl.
  rewrite !map_map. split; [reflexivity|].
  apply map_ext. intros t. simpl. by rewrite length_map.
Qed.

(** X10.  Building from the exported dictionary gives the schema back,
    with the constraints that are not true (the empty string, for one)
    turned into [None]; a schema whose constraints are all [None] or true
    comes back as it was. *)
Theorem export_then_build (schema : Schema) :
  build (schema_to_dict schema) = Ok (without_false_constraints schema) /\
  (constraints_kept schema = true -> build (schema_to_dict schema) = Ok schema).
Proof.
  split; [apply build_schema_to_dict|].
  intros H. by rewrite build_schema_to_dict, (constraints_kept_same _ H).
Qed.

Lemma export_then_build_witness :
  build (schema_to_dict MoreExamples.users_schema_object) =
  Ok MoreExamples.users_schema_object.
Proof.
  apply (proj2 (export_then_build MoreExamples.users_schema_object)).
  vm_compute. reflexivity.
Defined.

Module VerdictFacts.
Import Text SqlParser Py Raw AstBuilder Validators Spec YamlConverter Pipeline.
Import ValidatorFacts.

#[local] Arguments txt : simpl never.

Lemma validate_column_exported c tn i :
  validate_column (exported_column c) tn i = validate_column (column_to_py c) tn i.
Proof. destruct c as [n t [[|x cs]|] pk]; reflexivity. Qed.

Lemma item_name_exported c :
  item (exported_column c) "name" = item (column_to_py c) "name".
Proof. destruct c as [n t [[|x cs]|] pk]; reflexivity. Qed.

Lemma validate_columns_exported cols tn : forall i seen,
  validate_columns (map exported_column cols) tn i seen =
  validate_columns (map column_to_py cols) tn i seen.
Proof.
  induction cols as [|c cols IH]; intros i seen; [reflexivity|].
  cbn [map validate_columns].
  rewrite validate_column_exported, item_name_exported.
  destruct (validate_column (column_to_py c) tn i); [|reflexivity].
  cbn [mbind result_bind]. destruct (item (column_to_py c) "name") as [[| | |n| |]|];
    try reflexivity.
  cbn [mbind result_bind]. destruct (bool_decide (n ∈ seen)); [reflexivity|apply IH].
Qed.

Lemma column_name_set_exported cols :
  column_name_set (map exported_column cols) = column_name_set (map column_to_py cols).
Proof.
  induction cols as [|c cols IH]; [reflexivity|].
  cbn [map column_name_set]. by rewrite item_name_exported, IH.
Qed.

Lemma exported_columns t :
  map column_to_dict (table_columns (table_of_def t)) =
  map exported_column (tbl_columns t).
Proof. destruct t. simpl. by rewrite map_map. Qed.

Lemma validate_table_congr d1 d2 n cols1 cols2 pk i :
  dict_get (txt "name") d1 = Some (PStr n) ->
  dict_get (txt "columns") d1 = Some (PList cols1) ->
  dict_get (txt "primary_key") d1 = Some pk ->
  dict_get (txt "name") d2 = Some (PStr n) ->
  dict_get (txt "columns") d2 = Some (PList cols2) ->
  dict_get (txt "primary_key") d2 = Some pk ->
  length cols1 = length cols2 ->
  (forall tn j s, validate_columns cols1 tn j s = validate_columns cols2 tn j s) ->
  validate_table (PDict d1) i = validate_table (PDict d2) i.
Proof.
  intros Hn1 Hc1 Hp1 Hn2 Hc2 Hp2 Hl Hv. unfold validate_table.
  rewrite Hn1, Hc1, Hp1, Hn2, Hc2, Hp2.
  destruct (negb (nonempty_str (PStr n))); [reflexivity|].
  destruct cols1 as [|c1 cols1], cols2 as [|c2 cols2]; try discriminate;
    [reflexivity|].
  by rewrite Hv.
Qed.

Lemma exported_foreign_keys fks :
  map foreign_key_to_dict (map foreign_key_of_def fks) = map foreign_key_to_py fks.
Proof. rewrite map_map. apply map_ext. by intros []. Qed.

Lemma exported_table_fields t :
  exists extra,
    exported_table t =
    PDict ((txt "name", PStr (tbl_name t)) ::
           (txt "columns", PList (map exported_column (tbl_columns t))) ::
           (txt "primary_key", str_list (tbl_primary_key t)) :: extra) /\
    dict_get (txt "foreign_keys") extra =
      match tbl_foreign_keys t with
      | [] => None
      | fks => Some (PList (map foreign_key_to_py fks))
      end.
Proof.
  destruct t as [n cols pk fks]. unfold exported_table, table_to_dict.
  rewrite exported_columns.
  cbn [table_name table_of_def table_primary_key table_foreign_keys
       tbl_name tbl_columns tbl_primary_key tbl_foreign_keys app].
  destruct fks as [|f fks].
  - exists []. split; reflexivity.
  - eexists. split; [reflexivity|].
    change (dict_get (txt "foreign_keys") [(txt "foreign_keys", ?v)])
      with (Some v).
    by rewrite <- (exported_foreign_keys (f :: fks)).
Qed.

Lemma validate_table_exported t i :
  validate_table (exported_table t) i = validate_table (table_to_py t) i.
Proof.
  destruct (exported_table_fields t) as (extra & -> & _).
  eapply validate_table_congr; try reflexivity.
  - by rewrite !length_map.
  - intros. apply validate_columns_exported.
Qed.

Lemma first_pass_exported tables : forall i names cols,
  first_pass (map exported_table tables) i names cols =
  first_pass (map table_to_py tables) i names cols.
Proof.
  induction tables as [|t tables IH]; intros i names cols; [reflexivity|].
  cbn [map first_pass]. rewrite validate_table_exported.
  destruct (validate_table (table_to_py t) i); [|reflexivity].
  cbn [mbind result_bind].
  destruct (exported_table_fields t) as (extra & -> & _).
  change (item (PDict ((txt "name", PStr (tbl_name t)) :: ?d)) "name")
    with (Ok (PStr (tbl_name t))).
  change (item (table_to_py t) "name") with (Ok (PStr (tbl_name t))).
  cbn [mbind result_bind].
  change (item (PDict (?a :: (txt "columns", ?v) :: ?d)) "columns") with (Ok v).
  change (item (table_to_py t) "columns")
    with (Ok (PList (map column_to_py (tbl_columns t)))).
  cbn [mbind result_bind iter]. rewrite column_name_set_exported.
  destruct (column_name_set (map column_to_py (tbl_columns t))); [|reflexivity].
  cbn [mbind result_bind]. apply IH.
Qed.

Lemma validate_foreign_key_same_name fk t1 t2 i names cols :
  item t1 "name" = item t2 "name" ->
  validate_foreign_key fk t1 i names cols = validate_foreign_key fk t2 i names cols.
Proof. intros H. unfold validate_foreign_key. by rewrite H. Qed.

Lemma validate_fk_list_same_name fks t1 t2 names cols :
  item t1 "name" = item t2 "name" -> forall i,
  validate_fk_list fks t1 i names cols = validate_fk_list fks t2 i names cols.
Proof.
  intros H. induction fks as [|fk fks IH]; intros i; [reflexivity|].
  cbn [validate_fk_list]. rewrite (validate_foreign_key_same_name _ _ _ _ _ _ H).
  destruct (validate_foreign_key fk t2 i names cols); [|reflexivity].
  cbn [mbind result_bind]. apply IH.
Qed.

Lemma validate_foreign_keys_exported t names cols :
  validate_foreign_keys (exported_table t) names cols =
  validate_foreign_keys (table_to_py t) names cols.
Proof.
  destruct (exported_table_fields t) as (extra & E & Hfk).
  assert (Hn : item (exported_table t) "name" = item (table_to_py t) "name").
  { rewrite E. reflexivity. }
  unfold validate_foreign_keys at 1. rewrite E.
  change (dict_get (txt "foreign_keys")
            ((txt "name", ?a) :: (txt "columns", ?b) :: (txt "primary_key", ?c) :: extra))
    with (dict_get (txt "foreign_keys") extra).
  rewrite Hfk, <- E. unfold validate_foreign_keys, table_to_py.
  change (dict_get (txt "foreign_keys") _)
    with (Some (PList (map foreign_key_to_py (tbl_foreign_keys t)))).
  fold (table_to_py t).
  destruct (tbl_foreign_keys t) as [|f fks]; [reflexivity|].
  by apply validate_fk_list_same_name.
Qed.

Lemma second_pass_exported tables names cols :
  second_pass (map exported_table tables) names cols =
  second_pass (map table_to_py tables) names cols.
Proof.
  induction tables as [|t tables IH]; [reflexivity|].
  cbn [map second_pass]. by rewrite validate_foreign_keys_exported, IH.
Qed.

Lemma validate_schema_exported tables :
  validate_schema (schema_to_dict (schema_of_defs tables)) =
  validate_schema (parsed_to_py tables).
Proof.
  unfold validate_schema, schema_to_dict, schema_of_defs, parsed_to_py.
  cbn [schema_tables].
  change (dict_get (txt "tables") [(txt "tables", ?v)]) with (Some v).
  rewrite map_map.
  change (map (fun x => table_to_dict (table_of_def x)) tables)
    with (map exported_table tables).
  rewrite first_pass_exported.
  destruct (first_pass (map table_to_py tables) 0 ∅ ∅) as [[names cols]|]; [|reflexivity].
  cbn [mbind result_bind]. by rewrite second_pass_exported.
Qed.

End VerdictFacts.

Import Text Re SqlParser Py Raw AstBuilder Validators Spec YamlConverter Pipeline.
Import ExportFacts VerdictFacts.

(** X11.  Building the schema from the parser's output and exporting it to a
    dictionary does not change what the validator says: the exported
    dictionary is accepted exactly when the parser's output is, and is
    rejected with the same error. *)
Theorem export_keeps_verdict (tables : list table_def) (schema : Schema) :
  build (parsed_to_py tables) = Ok schema ->
  validate_schema (schema_to_dict schema) = validate_schema (parsed_to_py tables).
Proof.
  rewrite build_of_defs. intros H. inversion H; subst.
  apply validate_schema_exported.
Qed.

Lemma export_keeps_verdict_witness :
  exists schema,
    build (parsed_to_py (parse_statements MoreExamples.two_statements)) = Ok schema /\
    validate_schema (schema_to_dict schema) = Ok true.
Proof.
  destruct (build (parsed_to_py (parse_statements MoreExamples.two_statements)))
    as [schema|] eqn:E; [|vm_compute in E; discriminate].
  exists schema. split; [reflexivity|].
  rewrite (export_keeps_verdict _ _ E). vm_compute. reflexivity.
Defined.
